(** * ORB extractor: FAST tiling, corner detection, NMS, orientation and
      descriptor kernels

    Shallow embedding of
      - [orb-extractor/src/gpu/fast.cpp]
        ([fastExtKernelImpl], [nmsExt], [FastExtKernel], [ORBKernel::fastExtImpl])
      - [orb-extractor/src/gpu/orb_descriptor.cpp]
        ([computeOrientation], [computeDescriptor], [ORBKernel::orbDescriptorImpl])
      - [orb-extractor/src/sycl_utils/include/device_impl.h] ([divUp], [align])

    Conventions.
      - [uint32_t] values are integers in [0, 2^32); every unsigned operation
        is followed by [u32].  A store of an unsigned value into an [int]
        goes through [i32] (two's complement).  Signed overflow is undefined
        behaviour in C++ and is reported as such by the column loop.
      - Device memory holding an image is a function from element offsets
        (relative to the base pointer) to pixel values.
      - A work-group is run one work-item after the other, in the order of
        the local linear id; the slots handed out by the atomic counters
        follow that order.
      - [float] is an interface ([FloatOps]); its implementation [binary32]
        is IEEE 754 single precision as specified by the standard library
        ([Floats.SpecFloat] with 24 bits of precision and [emax = 128]),
        every operation rounded to nearest, ties to even. *)

From Stdlib Require Import ZArith List Bool Lia String QArith Qround Sorted.
From Stdlib Require Import Qpower Lqa Floats.SpecFloat.
From stdpp Require Import base list.
Import ListNotations.
Local Open Scope Z_scope.

(** ** Machine integers *)

Definition u32 (z : Z) : Z := z mod 2 ^ 32.
Definition i32 (z : Z) : Z := (z + 2 ^ 31) mod 2 ^ 32 - 2 ^ 31.
Definition i16 (z : Z) : Z := (z + 2 ^ 15) mod 2 ^ 16 - 2 ^ 15.
Definition u8 (z : Z) : Z := z mod 2 ^ 8.
Definition INT_MAX : Z := 2 ^ 31 - 1.

(** [int] holds [z] *)
Definition fits_int (z : Z) : bool := (- 2 ^ 31 <=? z) && (z <=? INT_MAX).

(** [divUp] and [align] of device_impl.h.  The templates are instantiated
    at unsigned types only ([uint32_t] in [getLocalRange], [size_t] in
    [orbDescriptorImpl]): [bits] is the width of that type, and the sum, the
    quotient and the product are taken modulo [2 ^ bits]. *)
Definition wrap (bits z : Z) : Z := z mod 2 ^ bits.
Definition divUp (bits total grain : Z) : Z :=
  wrap bits (wrap bits (total + grain - 1) / grain).
Definition align (bits total grain : Z) : Z :=
  wrap bits (divUp bits total grain * grain).

(** ** Images *)

(** Pixels of an image buffer, by element offset from its base pointer. *)
Definition image := Z -> Z.

Definition byte_image (img : image) : Prop := forall i, 0 <= img i <= 255.

(** ** Suppressor: corner score ([nmsExt::cornerScore]) *)

Module Suppressor.

(** [d[i]] of the local array [int d[16]] *)
Definition dget (d : list Z) (i : Z) : Z := nth (Z.to_nat i) d 0.
Definition dset (d : list Z) (i : Z) (x : Z) : list Z := <[Z.to_nat i := x]> d.

(** [LOAD2(idx, ofs)]: [p] is the offset of [img] (the pixel pointer) *)
Definition LOAD2 (src : image) (p v : Z) (idx ofs : Z) (d : list Z) : list Z :=
  let tofs := ofs in
  let d := dset d idx (i16 (v - src (p + tofs))) in
  dset d (idx + 8) (i16 (v - src (p - tofs))).

Definition load_circle (src : image) (p step : Z) : list Z :=
  let v := src p in
  let d := replicate 16 0 in
  let d := LOAD2 src p v 0 3 d in
  let d := LOAD2 src p v 1 (- step + 3) d in
  let d := LOAD2 src p v 2 (- step * 2 + 2) d in
  let d := LOAD2 src p v 3 (- step * 3 + 1) d in
  let d := LOAD2 src p v 4 (- step * 3) d in
  let d := LOAD2 src p v 5 (- step * 3 - 1) d in
  let d := LOAD2 src p v 6 (- step * 2 - 2) d in
  LOAD2 src p v 7 (- step - 3) d.

(** the values of [k] in [for (k = 0; k < 16; k += 2)] *)
Definition rotations : list Z := [0; 2; 4; 6; 8; 10; 12; 14].

(** body of the first loop, returning the new [a0] *)
Definition dark_body (d : list Z) (a0 k : Z) : Z :=
  let a := Z.min (dget d (Z.land (k + 1) 15)) (dget d (Z.land (k + 2) 15)) in
  let a := Z.min a (dget d (Z.land (k + 3) 15)) in
  let a := Z.min a (dget d (Z.land (k + 4) 15)) in
  let a := Z.min a (dget d (Z.land (k + 5) 15)) in
  let a := Z.min a (dget d (Z.land (k + 6) 15)) in
  let a := Z.min a (dget d (Z.land (k + 7) 15)) in
  let a := Z.min a (dget d (Z.land (k + 8) 15)) in
  let a0 := Z.max a0 (Z.min a (dget d (Z.land k 15))) in
  Z.max a0 (Z.min a (dget d (Z.land (k + 9) 15))).

(** body of the second loop, returning the new [b0] *)
Definition bright_body (d : list Z) (b0 k : Z) : Z :=
  let b := Z.max (dget d (Z.land (k + 1) 15)) (dget d (Z.land (k + 2) 15)) in
  let b := Z.max b (dget d (Z.land (k + 3) 15)) in
  let b := Z.max b (dget d (Z.land (k + 4) 15)) in
  let b := Z.max b (dget d (Z.land (k + 5) 15)) in
  let b := Z.max b (dget d (Z.land (k + 6) 15)) in
  let b := Z.max b (dget d (Z.land (k + 7) 15)) in
  let b := Z.max b (dget d (Z.land (k + 8) 15)) in
  let b0 := Z.min b0 (Z.max b (dget d k)) in
  Z.min b0 (Z.max b (dget d (Z.land (k + 9) 15))).

Definition score_of_circle (d : list Z) : Z :=
  let a0 := fold_left (dark_body d) rotations 0 in
  let b0 := - a0 in
  let b0 := fold_left (bright_body d) rotations b0 in
  - b0 - 1.

(** [cornerScore(img, step)] with [img = src_image_ptr + p] *)
Definition cornerScore (src : image) (p step : Z) : Z :=
  score_of_circle (load_circle src p step).

(** *** The formula as the specification words it

    Sixteen differences [d[k] = center - circle[k]]; for the 8 rotations of a
    contiguous 8-point arc, the minimum over the arc, then the maximum over
    the rotations (dark case); symmetrically for the bright case, seeded
    with the negated dark result; the score is
    [-(min over rotations of max) - 1]. *)

Definition arc8 (d : list Z) (k : Z) : list Z :=
  map (fun i => dget d (Z.land (k + i) 15)) [1; 2; 3; 4; 5; 6; 7; 8].

Definition min_list (x : Z) (l : list Z) : Z := fold_left Z.min l x.
Definition max_list (x : Z) (l : list Z) : Z := fold_left Z.max l x.

Definition arc_min (arc : list Z) : Z :=
  match arc with [] => 0 | x :: l => min_list x l end.
Definition arc_max (arc : list Z) : Z :=
  match arc with [] => 0 | x :: l => max_list x l end.

Definition spec_score_of_circle (d : list Z) : Z :=
  let dark := max_list 0 (map (fun k => arc_min (arc8 d k)) rotations) in
  let bright := min_list (- dark) (map (fun k => arc_max (arc8 d k)) rotations) in
  - bright - 1.

(** [d[k] = center - circle[k]], the circle in the order of the detector *)
Definition circle_differences (src : image) (p step : Z) : list Z :=
  let v := src p in
  let ofs := [3; - step + 3; - step * 2 + 2; - step * 3 + 1;
              - step * 3; - step * 3 - 1; - step * 2 - 2; - step - 3] in
  map (fun o => v - src (p + o)) ofs ++ map (fun o => v - src (p - o)) ofs.

Definition spec_cornerScore (src : image) (p step : Z) : Z :=
  spec_score_of_circle (circle_differences src p step).

(** *** The formula the code computes: all sixteen contiguous 9-point arcs *)

Definition arc9 (d : list Z) (j : Z) : list Z :=
  map (fun i => dget d (Z.land (j + i) 15)) [0; 1; 2; 3; 4; 5; 6; 7; 8].

Definition starts16 : list Z := [0; 1; 2; 3; 4; 5; 6; 7; 8; 9; 10; 11; 12; 13; 14; 15].

Definition arc9_score_of_circle (d : list Z) : Z :=
  let dark := max_list 0 (map (fun j => arc_min (arc9 d j)) starts16) in
  let bright := min_list (- dark) (map (fun j => arc_max (arc9 d j)) starts16) in
  - bright - 1.

End Suppressor.

(** ** Results of host code *)

(** A host function returns normally or throws. *)
Inductive result (A : Type) : Type :=
  | Ok (a : A)
  | Throw (msg : string).
Arguments Ok {A} a.
Arguments Throw {A} msg.

(** A loop run with fuel: it finishes, it reaches undefined behaviour
    (signed overflow, division by zero), or the fuel runs out. *)
Inductive outcome (A : Type) : Type :=
  | Done (a : A)
  | Undefined
  | OutOfFuel.
Arguments Done {A} a.
Arguments Undefined {A}.
Arguments OutOfFuel {A}.

(** ** Parameters of the detection kernel ([FastKernelParams<uint8_t>])

    The pointers of the structure are replaced by what they point to.  The
    keypoint buffer and its counter are mutable and live in [device_state]. *)

Record FastKernelParams : Type := {
  src_image_ptr : image;
  mask_image_ptr : image;
  group_pos_x_ptr : list (Z * Z);
  group_pos_y_ptr : list (Z * Z);
  image_cols : Z;
  image_rows : Z;
  image_steps : Z;
  ini_threshold : Z;
  min_threshold : Z;
  edge_clip : Z;
  overlap : Z;
  cell_size : Z;
  num_images : Z;
  mask_check : bool;
  nms_required : bool
}.

Definition group_x_size (p : FastKernelParams) : Z := Z.of_nat (length (group_pos_x_ptr p)).
Definition group_y_size (p : FastKernelParams) : Z := Z.of_nat (length (group_pos_y_ptr p)).

Definition ROWS_PER_THREAD : Z := 8.
Definition optimizedLocalWidth : Z := 32.

(** ** TilePartitioner ([FastExtKernel]) *)

Module TilePartitioner.

(** [align] instantiated at [uint32_t] *)
Definition align32 (total grain : Z) : Z := align 32 total grain.

(** [getLocalRange] *)
Definition getLocalRange (p : FastKernelParams) : Z * Z :=
  let local_thread := u32 (cell_size p + overlap p) in
  let local_width_thread := align32 local_thread optimizedLocalWidth in
  let local_height_thread := align32 (local_thread / ROWS_PER_THREAD) ROWS_PER_THREAD in
  (local_width_thread, local_height_thread).

(** the message ["Unsupported scale factor\n"] *)
Definition unsupported_scale_factor : string :=
  String.append "Unsupported scale factor" (String (Ascii.ascii_of_nat 10) EmptyString).

(** [getGlobalRange] *)
Definition getGlobalRange (p : FastKernelParams) : result (Z * Z) :=
  let min_border_x := edge_clip p in
  let min_border_y := min_border_x in
  let max_border_x := u32 (image_cols p - min_border_x) in
  let max_border_y := u32 (image_rows p - min_border_y) in
  if (min_border_x >? max_border_x) || (min_border_y >? max_border_y) then
    Throw unsupported_scale_factor
  else
    let local_threads := getLocalRange p in
    let num_cols := group_x_size p in
    let num_rows := group_y_size p in
    Ok (num_cols * fst local_threads, num_rows * snd local_threads).

(** *** Row bounds: the [for] loop of [UpdateGroupPosition] *)

(** [std::ceil(image_rows / cell_size) + 1]: the division is the integer
    division of two [uint32_t], so [std::ceil] has nothing to round. *)
Definition num_rows (p : FastKernelParams) : Z := image_rows p / cell_size p + 1.

Definition row_body (p : FastKernelParams) (group_y : list (Z * Z)) (j : Z) : list (Z * Z) :=
  let min_border_y := edge_clip p in
  let max_border_y := u32 (image_rows p - edge_clip p) in
  let min_y := u32 (min_border_y + j * cell_size p) in
  if u32 (max_border_y - overlap p) <=? min_y then group_y
  else
    let max_y := u32 (min_y + cell_size p + overlap p) in
    let max_y := if max_border_y <? max_y then max_border_y else max_y in
    group_y ++ [(i32 min_y, i32 max_y)].

Definition row_bounds (p : FastKernelParams) : list (Z * Z) :=
  fold_left (row_body p) (seqZ 0 (num_rows p)) [].

(** *** Column bounds: the [while (1)] loop of [UpdateGroupPosition] *)

Record col_state : Type := {
  blk_idx : Z;
  image_count : Z;
  min_x : Z;
  max_x : Z;
  current_width : Z;
  group_x : list (Z * Z)
}.

Inductive step_result : Type :=
  | Continue (s : col_state)
  | Break (group_x : list (Z * Z))
  | Overflow.

(** One iteration.  [mono_width] and [total_width] are the loop's constants.
    Mixed [int]/[uint32_t] expressions are evaluated in [uint32_t]. *)
Definition col_step (p : FastKernelParams) (mono_width total_width : Z)
    (s : col_state) : step_result :=
  if u32 (min_x s + cell_size p) <? u32 (current_width s - edge_clip p) then
    if negb (fits_int (blk_idx s + 1)) || negb (fits_int (mono_width * image_count s))
    then Overflow
    else
      let min_x' :=
        i32 (u32 (blk_idx s * cell_size p + mono_width * image_count s + edge_clip p)) in
      let blk_idx' := blk_idx s + 1 in
      let max_x' := i32 (u32 (min_x' + cell_size p + overlap p)) in
      let max_x' :=
        if u32 max_x' >? u32 (current_width s - edge_clip p)
        then i32 (u32 (current_width s - edge_clip p)) else max_x' in
      let group_x' := group_x s ++ [(min_x', max_x')] in
      if u32 min_x' >? u32 (total_width - edge_clip p) then
        Break (removelast group_x')
      else
        Continue {| blk_idx := blk_idx'; image_count := image_count s;
                    min_x := min_x'; max_x := max_x';
                    current_width := current_width s; group_x := group_x' |}
  else
    if negb (fits_int (image_count s + 1)) || negb (fits_int (current_width s + mono_width))
    then Overflow
    else
      Continue {| blk_idx := 0; image_count := image_count s + 1;
                  min_x := min_x s; max_x := max_x s;
                  current_width := current_width s + mono_width;
                  group_x := group_x s |}.

Fixpoint col_loop (fuel : nat) (p : FastKernelParams) (mono_width total_width : Z)
    (s : col_state) : outcome (list (Z * Z)) :=
  match fuel with
  | O => OutOfFuel
  | S fuel' =>
      match col_step p mono_width total_width s with
      | Continue s' => col_loop fuel' p mono_width total_width s'
      | Break g => Done g
      | Overflow => Undefined
      end
  end.

Definition col_init (p : FastKernelParams) : col_state :=
  {| blk_idx := 0; image_count := 0; min_x := 0; max_x := 0;
     current_width := i32 (image_cols p / num_images p); group_x := [] |}.

Definition col_bounds (fuel : nat) (p : FastKernelParams) : outcome (list (Z * Z)) :=
  let current_width := i32 (image_cols p / num_images p) in
  let total_width := i32 (image_cols p) in
  let mono_width := current_width in
  col_loop fuel p mono_width total_width (col_init p).

(** [UpdateGroupPosition]: the tables uploaded to [group_x_] and [group_y_].
    Both integer divisions are undefined for a zero divisor. *)
Definition UpdateGroupPosition (fuel : nat) (p : FastKernelParams)
    : outcome (list (Z * Z) * list (Z * Z)) :=
  if (num_images p =? 0) || (cell_size p =? 0) then Undefined
  else
    let group_y := row_bounds p in
    match col_bounds fuel p with
    | Done group_x => Done (group_x, group_y)
    | Undefined => Undefined
    | OutOfFuel => OutOfFuel
    end.

End TilePartitioner.

(** ** CornerDetector ([fastExtKernelImpl]) *)

Module CornerDetector.

Definition u64 (z : Z) : Z := z mod 2 ^ 64.

Definition EVEN_MASK : Z := 1 + 4 + 16 + 64.

(** the part of [UPDATE_MASK(idx, ofs)] that depends on the four comparisons *)
Definition update_bits (idx : Z) (lt0 lt1 gt0 gt1 : bool) (m : Z * Z) : Z * Z :=
  (Z.lor (fst m) (Z.lor (Z.shiftl (Z.b2z lt0) idx) (Z.shiftl (Z.b2z lt1) (8 + idx))),
   Z.lor (snd m) (Z.lor (Z.shiftl (Z.b2z gt0) idx) (Z.shiftl (Z.b2z gt1) (8 + idx)))).

(** [UPDATE_MASK(idx, ofs)] on the pair [(m0, m1)] *)
Definition UPDATE_MASK (src : image) (p t0 t1 : Z) (idx ofs : Z) (m : Z * Z) : Z * Z :=
  let tofs := ofs in
  let v0 := src (p + tofs) in
  let v1 := src (p - tofs) in
  update_bits idx (v0 <? t0) (v1 <? t0) (v0 >? t1) (v1 >? t1) m.

Definition CHECK (m i : Z) : bool := Z.land m (Z.shiftl 511 i) =? Z.shiftl 511 i.

Definition sum_checks (m : Z) : Z :=
  fold_left (fun acc i => acc + Z.b2z (CHECK m i)) (seqZ 0 16) 0.

Definition pairs_set (m mask : Z) : bool :=
  Z.land (Z.lor m (Z.shiftr m 8)) mask =? mask.

(** The test of one pixel at offset [p]: [true] when the pixel is appended to
    the local list, [false] for every [continue].  The masks stay below
    [2^16] before they are doubled, so the shifts by 16 lose nothing. *)
Definition fast_pixel (src : image) (p step threshold : Z) : bool :=
  let v := src p in
  let t0 := i32 (u32 (v - threshold)) in
  let t1 := i32 (u32 (v + threshold)) in
  let m := (0, 0) in
  let m := UPDATE_MASK src p t0 t1 0 3 m in
  if Z.lor (fst m) (snd m) =? 0 then false
  else
    let m := UPDATE_MASK src p t0 t1 2 (- step * 2 + 2) m in
    let m := UPDATE_MASK src p t0 t1 4 (- step * 3) m in
    let m := UPDATE_MASK src p t0 t1 6 (- step * 2 - 2) m in
    if negb (pairs_set (fst m) EVEN_MASK) && negb (pairs_set (snd m) EVEN_MASK) then false
    else
      let m := UPDATE_MASK src p t0 t1 1 (- step + 3) m in
      let m := UPDATE_MASK src p t0 t1 3 (- step * 3 + 1) m in
      let m := UPDATE_MASK src p t0 t1 5 (- step * 3 - 1) m in
      let m := UPDATE_MASK src p t0 t1 7 (- step - 3) m in
      if negb (pairs_set (fst m) 255) && negb (pairs_set (snd m) 255) then false
      else
        let m0 := Z.lor (fst m) (Z.shiftl (fst m) 16) in
        let m1 := Z.lor (snd m) (Z.shiftl (snd m) 16) in
        negb (sum_checks m0 + sum_checks m1 =? 0).

(** The rows of one work-item [(l_x, l_y)] in tile [(min_x, max_x)] x
    [(min_y, max_y)]: the coordinates it appends, in the order of [i]. *)
Definition fast_item (p : FastKernelParams) (threshold : Z)
    (min_x max_x min_y max_y : Z) (l_x l_y : Z) : list (Z * Z) :=
  let g_x := u64 (l_x + min_x + 3) in
  let g_y := u64 (l_y * ROWS_PER_THREAD + min_y + 3) in
  let step := i32 (image_steps p) in
  flat_map
    (fun i =>
       if (g_x <? u64 (max_x - 3)) && (u64 (g_y + i) <? u64 (max_y - 3)) then
         let pos := (g_y + i) * step + g_x in
         if mask_check p && (mask_image_ptr p pos =? 0) then []
         else if fast_pixel (src_image_ptr p) pos step threshold
              then [(i32 g_x, i32 (g_y + i))]
              else []
       else [])
    (seqZ 0 ROWS_PER_THREAD).

(** local ids of a work-group, by increasing local linear id *)
Definition work_items (local : Z * Z) : list (Z * Z) :=
  flat_map (fun l_x => map (fun l_y => (l_x, l_y)) (seqZ 0 (snd local))) (seqZ 0 (fst local)).

(** Contents of [local_key] (and [local_count], its length) after the
    work-group [(group_x, group_y)] has run the detector.  [None]: a table is
    read or [local_key] is written out of bounds. *)
Definition detect (p : FastKernelParams) (group_x group_y : Z) (threshold : Z)
    : option (list (Z * Z)) :=
  match group_pos_x_ptr p !! Z.to_nat group_x, group_pos_y_ptr p !! Z.to_nat group_y with
  | Some (min_x, max_x), Some (min_y, max_y) =>
      let local := TilePartitioner.getLocalRange p in
      let keys :=
        flat_map (fun l => fast_item p threshold min_x max_x min_y max_y (fst l) (snd l))
                 (work_items local) in
      if Z.of_nat (length keys) <=? fst local * snd local then Some keys else None
  | _, _ => None
  end.

End CornerDetector.

(** ** Suppressor: acceptance test ([nmsExt::operator()]) *)

Module NMS.
Import Suppressor.

(** The decision taken for the candidate [(ax, ay)] of [local_key] and its
    score [s].  [None]: a bounds table is read out of range. *)
Definition nms_accept (p : FastKernelParams) (group_x group_y : Z) (key : Z * Z)
    : option (bool * Z) :=
  let step := image_steps p in
  match group_pos_x_ptr p !! Z.to_nat group_x, group_pos_y_ptr p !! Z.to_nat group_y,
        group_pos_x_ptr p !! Z.to_nat group_y with
  | Some gpx, Some gpy, Some gpx_at_y =>
      let cols := snd gpx - fst gpx in
      let rows := snd gpy - fst gpy in
      let ax := fst key in
      let ay := snd key in
      let img := u32 (ay * step) + ax in
      let src := src_image_ptr p in
      let x := ax - fst gpx in
      let y := ay - fst gpx_at_y in
      let s := cornerScore src img (i32 step) in
      if negb (Z.b2z ((x <? 4) || (s >? cornerScore src (img - 1) (i32 step)))
               + Z.b2z ((y <? 4) || (s >? cornerScore src (img - step) (i32 step))) =? 2)
      then Some (false, s)
      else
        Some
          (Z.b2z ((x >=? cols - 4) || (s >? cornerScore src (img + 1) (i32 step)))
           + Z.b2z ((y >=? rows - 4) || (s >? cornerScore src (img + step) (i32 step)))
           + Z.b2z ((x <? 4) || (y <? 4) || (s >? cornerScore src (img - step - 1) (i32 step)))
           + Z.b2z ((x >=? cols - 4) || (y <? 4)
                    || (s >? cornerScore src (img - step + 1) (i32 step)))
           + Z.b2z ((x <? 4) || (y >=? rows - 4)
                    || (s >? cornerScore src (img + step - 1) (i32 step)))
           + Z.b2z ((x >=? cols - 4) || (y >=? rows - 4)
                    || (s >? cornerScore src (img + step + 1) (i32 step)))
           =? 6, s)
  | _, _, _ => None
  end.

End NMS.

(** ** Single-precision arithmetic

    The kernels use [float] for the keypoint fields and for the
    trigonometric approximations.  The operations are an interface; the
    properties proved below hold for every implementation of it. *)

Class FloatOps : Type := {
  float : Type;
  f_lit : Q -> float;            (* a literal with suffix [f] *)
  f_of_int : Z -> float;         (* [(float) i] *)
  f_to_int : float -> Z;         (* [(int) x] *)
  f_add : float -> float -> float;
  f_sub : float -> float -> float;
  f_mul : float -> float -> float;
  f_div : float -> float -> float;
  f_neg : float -> float;
  f_abs : float -> float;
  f_floor : float -> float;
  f_rint : float -> float;
  f_lt : float -> float -> bool;
  f_ge : float -> float -> bool
}.

(** Fixed-point arithmetic with 16 fractional bits, used to evaluate the
    kernels on examples. *)
Definition fx_one : Z := 65536.

#[local] Instance fixed_floats : FloatOps := {|
  float := Z;
  f_lit := fun q => Qfloor (q * inject_Z fx_one);
  f_of_int := fun i => i * fx_one;
  f_to_int := fun a => Z.quot a fx_one;
  f_add := Z.add;
  f_sub := Z.sub;
  f_mul := fun a b => a * b / fx_one;
  f_div := fun a b => a * fx_one / b;
  f_neg := Z.opp;
  f_abs := Z.abs;
  f_floor := fun a => a / fx_one * fx_one;
  f_rint := fun a => (a + fx_one / 2) / fx_one * fx_one;
  f_lt := Z.ltb;
  f_ge := Z.geb
|}.

(** Single precision proper.  The values are those of [spec_float]; the
    arithmetic is that of [Floats.SpecFloat] at precision 24 and [emax]
    128.  Literals, conversions and [floor]/[rint] are defined from the
    same rounding. *)
Module Binary32.

Definition prec : Z := 24.
Definition emax : Z := 128.

(** the value nearest to the rational [q], ties to even: what a decimal
    literal with suffix [f] denotes *)
Definition of_Q (q : Q) : spec_float :=
  match Qnum q with
  | Z0 => S754_zero false
  | Zpos n =>
      let '(mz, ez, lz) := SFdiv_core_binary prec emax (Zpos n) 0 (Zpos (Qden q)) 0 in
      binary_round_aux prec emax false mz ez lz
  | Zneg n =>
      let '(mz, ez, lz) := SFdiv_core_binary prec emax (Zpos n) 0 (Zpos (Qden q)) 0 in
      binary_round_aux prec emax true mz ez lz
  end.

(** [(float) i] *)
Definition of_Z (i : Z) : spec_float := binary_normalize prec emax i 0 false.

(** the integer part and the remainder of a finite value, in units of
    [2 ^ e] *)
Definition floorZ (s : bool) (m : positive) (e : Z) : Z :=
  if 0 <=? e then cond_Zopp s (Zpos m) * 2 ^ e else cond_Zopp s (Zpos m) / 2 ^ (- e).

(** [(int) x], truncation towards zero *)
Definition to_Z (x : spec_float) : Z :=
  match x with
  | S754_finite s m e =>
      if 0 <=? e then cond_Zopp s (Zpos m * 2 ^ e) else cond_Zopp s (Zpos m / 2 ^ (- e))
  | _ => 0
  end.

Definition integral (s : bool) (n : Z) : spec_float :=
  if n =? 0 then S754_zero s else of_Z n.

Definition floor (x : spec_float) : spec_float :=
  match x with
  | S754_finite s m e => integral s (floorZ s m e)
  | _ => x
  end.

(** round to the nearest integer, ties to even *)
Definition rint (x : spec_float) : spec_float :=
  match x with
  | S754_finite s m e =>
      if 0 <=? e then x
      else
        let den := 2 ^ (- e) in
        let q := cond_Zopp s (Zpos m) / den in
        let r := cond_Zopp s (Zpos m) mod den in
        integral s (if 2 * r <? den then q
                    else if den <? 2 * r then q + 1
                    else if Z.even q then q else q + 1)
  | _ => x
  end.

(** neither an infinity nor a NaN, and canonical *)
Definition is_finite (x : spec_float) : bool :=
  match x with
  | S754_zero _ => true
  | S754_finite _ m e => bounded prec emax m e
  | _ => false
  end.

Definition ge (x y : spec_float) : bool :=
  match SFcompare x y with Some (Gt | Eq) => true | _ => false end.

End Binary32.

(** IEEE 754 binary32: the implementation of [float] on the device. *)
Definition binary32 : FloatOps := {|
  float := spec_float;
  f_lit := Binary32.of_Q;
  f_of_int := Binary32.of_Z;
  f_to_int := Binary32.to_Z;
  f_add := SFadd Binary32.prec Binary32.emax;
  f_sub := SFsub Binary32.prec Binary32.emax;
  f_mul := SFmul Binary32.prec Binary32.emax;
  f_div := SFdiv Binary32.prec Binary32.emax;
  f_neg := SFopp;
  f_abs := SFabs;
  f_floor := Binary32.floor;
  f_rint := Binary32.rint;
  f_lt := SFltb;
  f_ge := Binary32.ge
|}.

(** ** Keypoints and device memory *)

Section Kernels.
Context {FO : FloatOps}.

(** Modelled from the spec: the declaration of [PartKey] (gpu_kernels.h) is
    not part of the sources; its fields are those of the specification's
    Keypoint, [{x:int, y:int, response:float, angle:float}]. *)
Record PartKey : Type := {
  pt_x : Z;
  pt_y : Z;
  response : float;
  angle : float
}.

(** Global memory written by the detection kernel, and the calls of the
    detector made so far by the work-group being run (their [threshold]
    argument); the latter is a history variable, not program state. *)
Record device_state : Type := {
  keypoints_ptr : list PartKey;
  keypoints_count : Z;
  fast_calls : list Z
}.

(** Device code: reads and writes [device_state]; [None] is an access out of
    bounds. *)
Definition dev (A : Type) : Type := device_state -> option (A * device_state).

Definition dret {A} (a : A) : dev A := fun st => Some (a, st).
Definition dbind {A B} (m : dev A) (f : A -> dev B) : dev B :=
  fun st => match m st with Some (a, st') => f a st' | None => None end.
Definition dfail {A} : dev A := fun _ => None.
Definition dlift {A} (o : option A) : dev A :=
  fun st => match o with Some a => Some (a, st) | None => None end.

End Kernels.

Declare Scope dev_scope.
Delimit Scope dev_scope with dev.
Notation "'let*' x ':=' m 'in' f" := (dbind m (fun x => f))
  (at level 10, x name, m at level 100, f at level 200) : dev_scope.
Notation "'do' m 'then' f" := (dbind m (fun _ => f))
  (at level 10, m at level 100, f at level 200) : dev_scope.

Module Kernel.
Section Kernel.
Context {FO : FloatOps}.
Local Open Scope dev_scope.

(** [-1.0f] *)
Definition minus_one : float := f_of_int (-1).

(** [fastOps(it, keys_mem, counts_fast, threshold)] for a whole work-group,
    returning [keys_mem]; [counts_fast[0]] is its length. *)
Definition fastOps (p : FastKernelParams) (group_x group_y threshold : Z)
    : dev (list (Z * Z)) :=
  fun st =>
    match CornerDetector.detect p group_x group_y threshold with
    | Some keys =>
        Some (keys, {| keypoints_ptr := keypoints_ptr st;
                       keypoints_count := keypoints_count st;
                       fast_calls := fast_calls st ++ [threshold] |})
    | None => None
    end.

(** [global_loc++] *)
Definition next_slot : dev Z :=
  fun st =>
    Some (keypoints_count st,
          {| keypoints_ptr := keypoints_ptr st;
             keypoints_count := u32 (keypoints_count st + 1);
             fast_calls := fast_calls st |}).

(** an update of [keypoints_ptr[global_idx]] *)
Definition update_key (global_idx : Z) (f : PartKey -> PartKey) : dev unit :=
  fun st =>
    if global_idx <? 0 then None
    else
      match keypoints_ptr st !! Z.to_nat global_idx with
      | Some k =>
          Some (tt, {| keypoints_ptr := <[Z.to_nat global_idx := f k]> (keypoints_ptr st);
                       keypoints_count := keypoints_count st;
                       fast_calls := fast_calls st |})
      | None => None
      end.

(** the four stores of an accepted candidate *)
Definition store_nms (p : FastKernelParams) (ax ay s : Z) (k : PartKey) : PartKey :=
  {| pt_x := i32 (u32 (ax - edge_clip p));
     pt_y := i32 (u32 (ay - edge_clip p));
     response := f_of_int s;
     angle := minus_one |}.

(** the three stores of the branch without NMS *)
Definition store_raw (p : FastKernelParams) (kx ky : Z) (k : PartKey) : PartKey :=
  {| pt_x := i32 (u32 (kx - edge_clip p));
     pt_y := i32 (u32 (ky - edge_clip p));
     response := response k;
     angle := minus_one |}.

(** The work-item of [nmsOps] that holds candidate [key]; returns whether it
    incremented [count_nms]. *)
Definition nms_item (p : FastKernelParams) (group_x group_y : Z) (key : Z * Z)
    : dev bool :=
  let* r := dlift (NMS.nms_accept p group_x group_y key) in
  if fst r then
    let* global_idx := next_slot in
    do update_key (i32 global_idx) (store_nms p (fst key) (snd key) (snd r)) then
    dret true
  else dret false.

(** [nmsOps(it, keys_mem, counts_fast, counts_nms)] for a whole work-group,
    returning [counts_nms[0]] *)
Fixpoint nmsOps (p : FastKernelParams) (group_x group_y : Z) (keys : list (Z * Z))
    : dev Z :=
  match keys with
  | [] => dret 0
  | key :: keys' =>
      let* b := nms_item p group_x group_y key in
      let* n := nmsOps p group_x group_y keys' in
      dret (Z.b2z b + n)
  end.

(** the work-items with [local_idx < counts_fast[0]] of the branch without NMS *)
Fixpoint write_raw (p : FastKernelParams) (keys : list (Z * Z)) : dev unit :=
  match keys with
  | [] => dret tt
  | key :: keys' =>
      let* global_idx := next_slot in
      do update_key global_idx (store_raw p (fst key) (snd key)) then
      write_raw p keys'
  end.

(** The kernel lambda of [ORBKernel::fastExtImpl], run by one work-group. *)
Definition fastExt_group (p : FastKernelParams) (group_x group_y : Z) : dev unit :=
  let* keys := fastOps p group_x group_y (ini_threshold p) in
  if nms_required p then
    let* counts_nms := nmsOps p group_x group_y keys in
    if counts_nms =? 0 then
      let* keys := fastOps p group_x group_y (min_threshold p) in
      do nmsOps p group_x group_y keys then
      dret tt
    else dret tt
  else
    let* keys := (if Z.of_nat (length keys) =? 0
                  then fastOps p group_x group_y (min_threshold p)
                  else dret keys) in
    write_raw p keys.

(** The detector calls of one work-group start from an empty history. *)
Definition run_group (p : FastKernelParams) (group_x group_y : Z) : dev unit :=
  fun st =>
    fastExt_group p group_x group_y
      {| keypoints_ptr := keypoints_ptr st;
         keypoints_count := keypoints_count st;
         fast_calls := [] |}.

Fixpoint run_groups (p : FastKernelParams) (groups : list (Z * Z)) : dev unit :=
  match groups with
  | [] => dret tt
  | g :: groups' => do run_group p (fst g) (snd g) then run_groups p groups'
  end.

(** all work-groups of the [nd_range]: the global range divided by the
    local one *)
Definition all_groups (p : FastKernelParams) : list (Z * Z) :=
  flat_map (fun gx => map (fun gy => (gx, gy)) (seqZ 0 (group_y_size p)))
           (seqZ 0 (group_x_size p)).

(** *** Host side: [FastExtKernel] constructor and [ORBKernel::fastExtImpl] *)

(** Arguments of [fastExtImpl].  [in_params] carries the image, the
    thresholds and sizes, and the tables cached in [dev_group_x] and
    [dev_group_y]; [dev_keypoints_tmp] is the keypoint buffer once resized to
    [max_keypoints_size]. *)
Record fast_args : Type := {
  in_params : FastKernelParams;
  mask_cols : Z;
  mask_rows : Z;
  dev_keypoints_tmp : list PartKey
}.

(** the constructor: validation, counter reset, tables *)
Definition FastExtKernel_new (fuel : nat) (a : fast_args)
    : outcome (result (FastKernelParams * device_state)) :=
  let p := in_params a in
  if (image_cols p =? 0) || (image_rows p =? 0) then
    Done (Throw "Invalid image buffer size")
  else if mask_check p
          && (negb (image_cols p =? mask_cols a) || negb (image_rows p =? mask_rows a)) then
    Done (Throw "Fast kernel expect src image and mask image have same size")
  else
    let st := {| keypoints_ptr := dev_keypoints_tmp a; keypoints_count := 0;
                 fast_calls := [] |} in
    if (Z.of_nat (length (group_pos_x_ptr p)) =? 0)
       || (Z.of_nat (length (group_pos_y_ptr p)) =? 0) then
      match TilePartitioner.UpdateGroupPosition fuel p with
      | Done (gx, gy) =>
          Done (Ok ({| src_image_ptr := src_image_ptr p;
                       mask_image_ptr := mask_image_ptr p;
                       group_pos_x_ptr := gx;
                       group_pos_y_ptr := gy;
                       image_cols := image_cols p;
                       image_rows := image_rows p;
                       image_steps := image_steps p;
                       ini_threshold := ini_threshold p;
                       min_threshold := min_threshold p;
                       edge_clip := edge_clip p;
                       overlap := overlap p;
                       cell_size := cell_size p;
                       num_images := num_images p;
                       mask_check := mask_check p;
                       nms_required := nms_required p |}, st))
      | Undefined => Undefined
      | OutOfFuel => OutOfFuel
      end
    else Done (Ok (p, st)).

(** What [fastExtImpl] did when it returns or throws. *)
Inductive launch : Type :=
  | Submitted (global local : Z * Z) (after : option device_state).

Definition fastExtImpl (fuel : nat) (a : fast_args) : outcome (result launch) :=
  match FastExtKernel_new fuel a with
  | Done (Ok (params, st)) =>
      match TilePartitioner.getGlobalRange params with
      | Throw msg => Done (Throw msg)
      | Ok global =>
          let local := TilePartitioner.getLocalRange params in
          Done (Ok (Submitted global local
                      (option_map snd (run_groups params (all_groups params) st))))
      end
  | Done (Throw msg) => Done (Throw msg)
  | Undefined => Undefined
  | OutOfFuel => OutOfFuel
  end.

End Kernel.
End Kernel.

(** ** OrientationEstimator and DescriptorEncoder (orb_descriptor.cpp) *)

Module Descriptor.
Section Descriptor.
Context {FO : FloatOps}.

Definition DESCRIPTOR_SIZE : Z := 32.
Definition HALF_PATCH_SIZE : Z := 15.

(** [OrbDescriptorKernelParams<uint8_t>]; the two output buffers are in
    [orb_state]. *)
Record OrbDescriptorKernelParams : Type := {
  src_image_ptr : image;
  gaussian_image_ptr : image;
  u_max_ptr : Z -> Z;
  pattern_ptr : Z -> float;
  image_steps : Z;
  num_keypoints : Z
}.

Record orb_state : Type := {
  keypoints_ptr : list PartKey;
  descriptors_ptr : list Z
}.

(** *** [computeOrientation] *)

Definition _DBL_EPSILON : float := f_lit (22204460492503131 # 100000000000000000000000000000000).
Definition rad2deg : float := f_lit (5729577951308232 # 100000000000000).
Definition atan2_p1 : float := f_mul (f_lit (9997878412794807 # 10000000000000000)) rad2deg.
Definition atan2_p3 : float := f_mul (f_lit (- 3258083974640975 # 10000000000000000)) rad2deg.
Definition atan2_p5 : float := f_mul (f_lit (1555786518463281 # 10000000000000000)) rad2deg.
Definition atan2_p7 : float := f_mul (f_lit (- 4432655554792128 # 100000000000000000)) rad2deg.

Definition atan2_poly (c : float) : float :=
  let c2 := f_mul c c in
  f_mul (f_add (f_mul (f_add (f_mul (f_add (f_mul atan2_p7 c2) atan2_p5) c2) atan2_p3) c2)
               atan2_p1) c.

Definition fastAtan2 (y x : float) : float :=
  let ax := f_abs x in
  let ay := f_abs y in
  let a :=
    if f_ge ax ay then
      let c := f_div ay (f_add ax _DBL_EPSILON) in
      atan2_poly c
    else
      let c := f_div ax (f_add ay _DBL_EPSILON) in
      f_sub (f_lit 90) (atan2_poly c) in
  let a := if f_lt x (f_of_int 0) then f_sub (f_lit 180) a else a in
  let a := if f_lt y (f_of_int 0) then f_sub (f_lit 360) a else a in
  a.

(** the moments [(m_01, m_10)] of the patch centred at offset [center] *)
Definition moments (p : OrbDescriptorKernelParams) (center : Z) : Z * Z :=
  let m_10 :=
    fold_left (fun m_10 u => m_10 + u * src_image_ptr p (center + u))
              (seqZ (- HALF_PATCH_SIZE) (2 * HALF_PATCH_SIZE + 1)) 0 in
  fold_left
    (fun (m : Z * Z) v =>
       let d := u_max_ptr p v in
       let line :=
         fold_left
           (fun (acc : Z * Z) u =>
              let val_plus := src_image_ptr p (center + (u + v * image_steps p)) in
              let val_minus := src_image_ptr p (center + (u - v * image_steps p)) in
              (fst acc + (val_plus - val_minus), snd acc + u * (val_plus + val_minus)))
           (seqZ (- d) (2 * d + 1)) (0, snd m) in
       (fst m + v * fst line, snd line))
    (seqZ 1 HALF_PATCH_SIZE) (0, m_10).

Definition set_angle (a : float) (k : PartKey) : PartKey :=
  {| pt_x := pt_x k; pt_y := pt_y k; response := response k; angle := a |}.

(** [computeOrientation::operator()] of the work-item with global id [idx];
    [None]: the keypoint buffer is accessed out of bounds. *)
Definition orientationOps (p : OrbDescriptorKernelParams) (idx : Z) (st : orb_state)
    : option orb_state :=
  if idx <? num_keypoints p then
    match keypoints_ptr st !! Z.to_nat idx with
    | Some kpt =>
        let center := pt_y kpt * image_steps p + pt_x kpt in
        let m := moments p center in
        let a := fastAtan2 (f_of_int (fst m)) (f_of_int (snd m)) in
        Some {| keypoints_ptr := <[Z.to_nat idx := set_angle a kpt]> (keypoints_ptr st);
                descriptors_ptr := descriptors_ptr st |}
    | None => None
    end
  else Some st.

(** *** [computeDescriptor] *)

Definition _PI : float := f_lit (314159265358979 # 100000000000000).
Definition _PI_2 : float := f_div _PI (f_lit 2).
Definition _TWO_PI : float := f_mul (f_lit 2) _PI.
Definition _INV_TWO_PI : float := f_div (f_lit 1) _TWO_PI.
Definition _THREE_PI_2 : float := f_mul (f_lit 3) _PI_2.

Definition _cos (v : float) : float :=
  let c1 := f_lit (99940307 # 100000000) in
  let c2 := f_lit (- 49558072 # 100000000) in
  let c3 := f_lit (3679168 # 100000000) in
  let v2 := f_mul v v in
  f_add c1 (f_mul v2 (f_add c2 (f_mul c3 v2))).

(** [out] is assigned in every case: [other] holds when the first three
    flags do not. *)
Definition cos (v : float) : float :=
  let v := f_abs (f_sub v (f_mul (f_floor (f_mul v _INV_TWO_PI)) _TWO_PI)) in
  let lpi2 := f_lt v _PI_2 in
  let lpi := xorb (f_lt v _PI) lpi2 in
  let l3pi2 := xorb (xorb (f_lt v _THREE_PI_2) lpi) lpi2 in
  if lpi2 then _cos v
  else if lpi then f_neg (_cos (f_sub v _PI))
  else if l3pi2 then f_neg (_cos (f_sub v _PI))
  else _cos (f_sub _TWO_PI v).

Definition sin (v : float) : float := cos (f_sub _PI_2 v).

(** [GET_VALUE(idx)]; [pattern] is the current value of the moving pointer,
    as an offset into [pattern_ptr] *)
Definition GET_VALUE (p : OrbDescriptorKernelParams) (center pattern : Z)
    (cosa sina : float) (idx : Z) : Z :=
  let px := pattern_ptr p (pattern + idx * 2) in
  let py := pattern_ptr p (pattern + (idx * 2 + 1)) in
  gaussian_image_ptr p
    (center
     + f_to_int
         (f_add
            (f_mul (f_rint (f_add (f_mul px sina) (f_mul py cosa))) (f_of_int (image_steps p)))
            (f_rint (f_sub (f_mul px cosa) (f_mul py sina))))).

(** the value of [val] at the end of one iteration of the byte loop *)
Definition descriptor_byte (p : OrbDescriptorKernelParams) (center pattern : Z)
    (cosa sina : float) : Z :=
  let get := GET_VALUE p center pattern cosa sina in
  let t0 := get 0 in
  let t1 := get 1 in
  let val := Z.b2z (t0 <? t1) in
  let t0 := get 2 in
  let t1 := get 3 in
  let val := Z.lor val (Z.shiftl (Z.b2z (t0 <? t1)) 1) in
  let t0 := get 4 in
  let t1 := get 5 in
  let val := Z.lor val (Z.shiftl (Z.b2z (t0 <? t1)) 2) in
  let t0 := get 6 in
  let t1 := get 7 in
  let val := Z.lor val (Z.shiftl (Z.b2z (t0 <? t1)) 3) in
  let t0 := get 8 in
  let t1 := get 9 in
  let val := Z.lor val (Z.shiftl (Z.b2z (t0 <? t1)) 4) in
  let t0 := get 10 in
  let t1 := get 11 in
  let val := Z.lor val (Z.shiftl (Z.b2z (t0 <? t1)) 5) in
  let t0 := get 12 in
  let t1 := get 13 in
  let val := Z.lor val (Z.shiftl (Z.b2z (t0 <? t1)) 6) in
  let t0 := get 14 in
  let t1 := get 15 in
  let val := Z.lor val (Z.shiftl (Z.b2z (t0 <? t1)) 7) in
  val.

(** the byte loop: the moving [pattern] pointer and the descriptor buffer *)
Definition byte_loop (p : OrbDescriptorKernelParams) (center desc : Z) (cosa sina : float)
    (descriptors : list Z) : Z * list Z :=
  fold_left
    (fun (acc : Z * list Z) i =>
       let val := descriptor_byte p center (fst acc) cosa sina in
       (fst acc + 16 * 2, <[Z.to_nat (desc + i) := u8 val]> (snd acc)))
    (seqZ 0 DESCRIPTOR_SIZE) (0, descriptors).

(** [computeDescriptor::operator()] of the work-item with global id [idx];
    [None]: the [int] product [idx * DESCRIPTOR_SIZE] overflows, or a buffer
    is accessed out of bounds. *)
Definition descriptorOps (p : OrbDescriptorKernelParams) (idx : Z) (st : orb_state)
    : option orb_state :=
  if idx <? num_keypoints p then
    match keypoints_ptr st !! Z.to_nat idx with
    | Some kpt =>
        let center := i32 (pt_y kpt * image_steps p + pt_x kpt) in
        let angle := f_mul (angle kpt) (f_lit (1745329251994329547 # 100000000000000000000)) in
        let cosa := cos angle in
        let sina := sin angle in
        let desc := idx * DESCRIPTOR_SIZE in
        if fits_int desc
           && (0 <=? desc) && (desc + DESCRIPTOR_SIZE <=? Z.of_nat (length (descriptors_ptr st)))
        then
          Some {| keypoints_ptr := keypoints_ptr st;
                  descriptors_ptr := snd (byte_loop p center desc cosa sina (descriptors_ptr st)) |}
        else None
    | None => None
    end
  else Some st.

(** the kernel lambda of [orbDescriptorImpl] for one work-item *)
Definition orb_item (p : OrbDescriptorKernelParams) (idx : Z) (st : orb_state)
    : option orb_state :=
  match orientationOps p idx st with
  | Some st' => descriptorOps p idx st'
  | None => None
  end.

Fixpoint run_items (p : OrbDescriptorKernelParams) (ids : list Z) (st : orb_state)
    : option orb_state :=
  match ids with
  | [] => Some st
  | idx :: ids' =>
      match orb_item p idx st with
      | Some st' => run_items p ids' st'
      | None => None
      end
  end.

(** The launch over [nd_range<1>({aligned_width}, {16})], with
    [aligned_width = align(src_keypoints.size(), 16)] at [size_t].  The size
    of a vector of keypoints is below [2 ^ 64 - 15], where the sum of [align]
    does not wrap and its value is the one written here. *)
Definition aligned_width (n : Z) : Z := (n + 16 - 1) / 16 * 16.

Definition orb_kernel (p : OrbDescriptorKernelParams) (st : orb_state) : option orb_state :=
  run_items p (seqZ 0 (aligned_width (num_keypoints p))) st.

End Descriptor.
End Descriptor.

(** ** Notions used in the statements *)

Module Notions.
Section Notions.
Context {FO : FloatOps}.

(** a work-group's candidate is accepted by [nmsOps] *)
Definition accepted (p : FastKernelParams) (gx gy : Z) (key : Z * Z) : bool :=
  match NMS.nms_accept p gx gy key with Some (b, _) => b | None => false end.

(** the candidates of [keys] that survive suppression, in their order *)
Definition survivors (p : FastKernelParams) (gx gy : Z) (keys : list (Z * Z))
    : list (Z * Z) :=
  filter (fun key => accepted p gx gy key = true) keys.

(** the corner score of a candidate, as [nmsOps] computes it *)
Definition key_score (p : FastKernelParams) (key : Z * Z) : Z :=
  Suppressor.cornerScore (src_image_ptr p)
    (u32 (snd key * image_steps p) + fst key) (i32 (image_steps p)).

(** the count that decides the escalation: survivors with NMS, candidates
    without *)
Definition tile_count (p : FastKernelParams) (gx gy : Z) (keys : list (Z * Z)) : Z :=
  if nms_required p then Z.of_nat (length (survivors p gx gy keys))
  else Z.of_nat (length keys).

(** the candidates that a work-group writes out of its last detection pass *)
Definition written (p : FastKernelParams) (gx gy : Z) (keys : list (Z * Z))
    : list (Z * Z) :=
  if nms_required p then survivors p gx gy keys else keys.

(** the counter is a [uint32_t]; the buffer fits a device allocation *)
Definition buffer_ok (st : device_state) : Prop :=
  0 <= keypoints_count st < 2 ^ 32 /\ Z.of_nat (length (keypoints_ptr st)) < 2 ^ 31.

(** From [st] to [st'] the candidates [keys] received the slots from
    [keypoints_count st] on, candidate [key] turning the record [old] of its
    slot into [store key old]; nothing else changed in the buffer. *)
Record wrote (st st' : device_state) (keys : list (Z * Z))
    (store : Z * Z -> PartKey -> PartKey) : Prop := {
  wrote_count : keypoints_count st' = keypoints_count st + Z.of_nat (length keys);
  wrote_length : length (keypoints_ptr st') = length (keypoints_ptr st);
  wrote_frame : forall i : nat,
      (Z.of_nat i < keypoints_count st
       \/ keypoints_count st + Z.of_nat (length keys) <= Z.of_nat i) ->
      keypoints_ptr st' !! i = keypoints_ptr st !! i;
  wrote_slots : forall (j : nat) key, keys !! j = Some key ->
      exists old,
        keypoints_ptr st !! Z.to_nat (keypoints_count st + Z.of_nat j) = Some old /\
        keypoints_ptr st' !! Z.to_nat (keypoints_count st + Z.of_nat j)
        = Some (store key old)
}.

(** the record that a work-group leaves in the slot of candidate [key]: the
    four stores of [nmsOps] when NMS is on, the three stores of the branch
    without NMS otherwise *)
Definition stored (p : FastKernelParams) (key : Z * Z) (old : PartKey) : PartKey :=
  if nms_required p then Kernel.store_nms p (fst key) (snd key) (key_score p key) old
  else Kernel.store_raw p (fst key) (snd key) old.

End Notions.
End Notions.

Module DescriptorNotions.
Section DescriptorNotions.
Context {FO : FloatOps}.
Import Descriptor.

(** the factor of [angle *= ...] in [computeDescriptor] *)
Definition deg2rad : float := f_lit (1745329251994329547 # 100000000000000000000).

(** pixel offset, cosine and sine that [computeDescriptor] derives from a
    keypoint *)
Definition key_center (p : OrbDescriptorKernelParams) (kpt : PartKey) : Z :=
  i32 (pt_y kpt * image_steps p + pt_x kpt).
Definition key_cos (kpt : PartKey) : float := cos (f_mul (angle kpt) deg2rad).
Definition key_sin (kpt : PartKey) : float := sin (f_mul (angle kpt) deg2rad).

(** the keypoint once [computeOrientation] has set its angle *)
Definition oriented (p : OrbDescriptorKernelParams) (kpt : PartKey) : PartKey :=
  let m := moments p (pt_y kpt * image_steps p + pt_x kpt) in
  set_angle (fastAtan2 (f_of_int (fst m)) (f_of_int (snd m))) kpt.

(** The intensity sampled at pattern offset [k] (the floats [2k] and [2k+1]
    of the pattern), rotated by [(cosa, sina)] and rounded to the nearest
    integer pixel offset. *)
Definition rotated_sample (p : OrbDescriptorKernelParams) (center : Z) (cosa sina : float)
    (k : Z) : Z :=
  let px := pattern_ptr p (2 * k) in
  let py := pattern_ptr p (2 * k + 1) in
  gaussian_image_ptr p
    (center
     + f_to_int
         (f_add
            (f_mul (f_rint (f_add (f_mul px sina) (f_mul py cosa))) (f_of_int (image_steps p)))
            (f_rint (f_sub (f_mul px cosa) (f_mul py sina))))).

(** the comparison of pattern pair [n]: its first offset against its second *)
Definition pair_bit (p : OrbDescriptorKernelParams) (center : Z) (cosa sina : float)
    (n : Z) : bool :=
  rotated_sample p center cosa sina (2 * n) <? rotated_sample p center cosa sina (2 * n + 1).

(** eight comparisons packed the way the byte loop packs them *)
Definition pack8 (c0 c1 c2 c3 c4 c5 c6 c7 : bool) : Z :=
  Z.lor (Z.lor (Z.lor (Z.lor (Z.lor (Z.lor (Z.lor (Z.b2z c0)
    (Z.shiftl (Z.b2z c1) 1)) (Z.shiftl (Z.b2z c2) 2)) (Z.shiftl (Z.b2z c3) 3))
    (Z.shiftl (Z.b2z c4) 4)) (Z.shiftl (Z.b2z c5) 5)) (Z.shiftl (Z.b2z c6) 6))
    (Z.shiftl (Z.b2z c7) 7).

(** What the second kernel may change between [st] and [st']: the angles of
    the first [num_keypoints] records and the first [32 * num_keypoints]
    descriptor bytes. *)
Record frame (p : OrbDescriptorKernelParams) (st st' : orb_state) : Prop := {
  frame_keys_length : length (keypoints_ptr st') = length (keypoints_ptr st);
  frame_desc_length : length (descriptors_ptr st') = length (descriptors_ptr st);
  frame_fields : forall (i : nat) k, keypoints_ptr st !! i = Some k ->
      exists k', keypoints_ptr st' !! i = Some k' /\
                 pt_x k' = pt_x k /\ pt_y k' = pt_y k /\ response k' = response k;
  frame_keys : forall i : nat, num_keypoints p <= Z.of_nat i ->
      keypoints_ptr st' !! i = keypoints_ptr st !! i;
  frame_desc : forall j : nat, num_keypoints p * DESCRIPTOR_SIZE <= Z.of_nat j ->
      descriptors_ptr st' !! j = descriptors_ptr st !! j
}.

End DescriptorNotions.
End DescriptorNotions.

(** ** Notions used in the statements about the tile tables *)

Module PartitionerNotions.
Import TilePartitioner.

(** a pixel of the clipped interior *)
Definition in_interior (p : FastKernelParams) (x y : Z) : Prop :=
  edge_clip p <= x < image_cols p - edge_clip p /\
  edge_clip p <= y < image_rows p - edge_clip p.

(** the tile made of a column pair and a row pair lies in the clipped
    interior, and is not empty *)
Definition tile_inside (p : FastKernelParams) (tx ty : Z * Z) : Prop :=
  edge_clip p <= fst tx /\ fst tx < snd tx <= image_cols p - edge_clip p /\
  edge_clip p <= fst ty /\ fst ty < snd ty <= image_rows p - edge_clip p.

(** the tile holds the pixel *)
Definition tile_holds (tx ty : Z * Z) (x y : Z) : Prop :=
  fst tx <= x < snd tx /\ fst ty <= y < snd ty.

Section Columns.
Variable p : FastKernelParams.
Variable mono : Z.
Local Abbreviation c := (cell_size p).
Local Abbreviation e := (edge_clip p).
Local Abbreviation o := (overlap p).
Local Abbreviation W := (image_cols p).

(** the state at the head of the loop *)
Record col_inv (s : col_state) : Prop := {
  inv_blk : 0 <= blk_idx s;
  inv_count : 0 <= image_count s;
  inv_width : current_width s = mono * (image_count s + 1);
  inv_min : 0 <= min_x s <= W - e;
  inv_block : 1 <= blk_idx s -> min_x s = (blk_idx s - 1) * c + mono * image_count s + e;
  inv_width_le : current_width s <= W + c + mono;
  inv_below : e <= current_width s -> group_x s <> [] -> min_x s < current_width s + e;
  inv_wrapped : blk_idx s = 0 -> group_x s <> [] -> min_x s < mono * image_count s + e;
  inv_first : group_x s = [] -> min_x s = 0 /\ blk_idx s = 0
}.

(** the start of the next tile *)
Definition next_min (s : col_state) : Z := blk_idx s * c + mono * image_count s + e.

(** the upper bound stored with a tile that starts at [v] *)
Definition clamp_max (s : col_state) (v : Z) : Z :=
  if (e <=? current_width s) && (v + c + o >? current_width s - e)
  then current_width s - e else v + c + o.

Definition tile_state (s : col_state) : col_state :=
  {| blk_idx := blk_idx s + 1; image_count := image_count s;
     min_x := next_min s; max_x := clamp_max s (next_min s);
     current_width := current_width s;
     group_x := group_x s ++ [(next_min s, clamp_max s (next_min s))] |}.

Definition wrap_state (s : col_state) : col_state :=
  {| blk_idx := 0; image_count := image_count s + 1;
     min_x := min_x s; max_x := max_x s;
     current_width := current_width s + mono;
     group_x := group_x s |}.

(** the loop condition, in plain integers *)
Definition has_room (s : col_state) : Prop :=
  current_width s < e \/ min_x s + c < current_width s - e.

(** a bound on the iterations left *)
Definition first_flag (s : col_state) : Z :=
  match group_x s with [] => 1 | _ => 0 end.

Definition col_measure (s : col_state) : Z :=
  (W - e - min_x s + 1 + first_flag s) * (W + c + mono + 1)
  + (W + c + mono - current_width s).

(** the starts of the tiles generated so far increase and stay at or
    below [min_x] *)
Definition ordered_inv (s : col_state) : Prop :=
  StronglySorted Z.lt (map fst (group_x s)) /\
  Forall (fun t => fst t <= min_x s) (group_x s).

(** a column pair inside the clipped interior; a point held by a pair *)
Definition tile_ok (t : Z * Z) : Prop := e <= fst t /\ fst t < snd t <= W - e.

Definition covers (tiles : list (Z * Z)) (x : Z) : Prop :=
  exists t, In t tiles /\ fst t <= x < snd t.

Record single_inv (s : col_state) : Prop := {
  single_ok : Forall tile_ok (group_x s);
  single_block : image_count s = 0 -> group_x s <> [] -> 1 <= blk_idx s;
  single_part : image_count s = 0 -> group_x s <> [] ->
      forall x, e <= x < Z.min (min_x s + c) (W - e) -> covers (group_x s) x;
  single_all : 1 <= image_count s -> forall x, e <= x < W - e -> covers (group_x s) x
}.

End Columns.

Section Rows.
Variable p : FastKernelParams.
Local Abbreviation c := (cell_size p).
Local Abbreviation e := (edge_clip p).
Local Abbreviation o := (overlap p).
Local Abbreviation R := (image_rows p).

(** the tile that starts at row [e + j c], when it is kept *)
Definition row_tile (j : Z) : list (Z * Z) :=
  if R - e - o <=? e + j * c then []
  else [(e + j * c, Z.min (e + j * c + c + o) (R - e))].

End Rows.

End PartitionerNotions.

(** ** Notions used in the statements about the detector *)

Module DetectorNotions.

(** the pixel at position [k] of the 16-point circle around offset [p], in
    the order of the bits of [m0] and [m1]: bit [idx] is [img[ofs]], bit
    [8 + idx] is [img[-ofs]] *)
Definition circle_offsets (step : Z) : list Z :=
  [3; - step + 3; - step * 2 + 2; - step * 3 + 1;
   - step * 3; - step * 3 - 1; - step * 2 - 2; - step - 3].

Definition circle (src : image) (p step : Z) (k : Z) : Z :=
  if k <? 8 then src (p + nth (Z.to_nat k) (circle_offsets step) 0)
  else src (p - nth (Z.to_nat (k - 8)) (circle_offsets step) 0).

(** the nine contiguous positions from [j] on all satisfy [P] *)
Definition arc_all (P : Z -> Prop) (j : Z) : Prop :=
  forall i, 0 <= i <= 8 -> P ((j + i) mod 16).

(** the segment test: nine contiguous pixels of the circle are all darker
    than [v - threshold] or all brighter than [v + threshold] *)
Definition segment_test (src : image) (p step threshold : Z) : Prop :=
  exists j, 0 <= j < 16 /\
    (arc_all (fun k => circle src p step k < src p - threshold) j \/
     arc_all (fun k => circle src p step k > src p + threshold) j).

(** the masks of the detector as functions of sixteen comparisons *)
Definition mask_stage (bs : list bool) (idxs : list Z) (m : Z) : Z :=
  fold_left
    (fun m idx =>
       Z.lor m (Z.lor (Z.shiftl (Z.b2z (nth (Z.to_nat idx) bs false)) idx)
                      (Z.shiftl (Z.b2z (nth (Z.to_nat (8 + idx)) bs false)) (8 + idx))))
    idxs m.

Definition mask1 (bs : list bool) : Z := mask_stage bs [0] 0.
Definition mask2 (bs : list bool) : Z := mask_stage bs [2; 4; 6] (mask1 bs).
Definition mask3 (bs : list bool) : Z := mask_stage bs [1; 3; 5; 7] (mask2 bs).

Definition doubled (m : Z) : Z := Z.lor m (Z.shiftl m 16).

(** the staged decision of [fast_pixel] on the comparisons with [t0] and
    with [t1] *)
Definition staged (l g : list bool) : bool :=
  if Z.lor (mask1 l) (mask1 g) =? 0 then false
  else if negb (CornerDetector.pairs_set (mask2 l) CornerDetector.EVEN_MASK)
          && negb (CornerDetector.pairs_set (mask2 g) CornerDetector.EVEN_MASK) then false
  else if negb (CornerDetector.pairs_set (mask3 l) 255)
          && negb (CornerDetector.pairs_set (mask3 g) 255) then false
  else negb (CornerDetector.sum_checks (doubled (mask3 l))
             + CornerDetector.sum_checks (doubled (mask3 g)) =? 0).

(** nine contiguous comparisons hold, the circle being closed *)
Definition segb (bs : list bool) : bool :=
  existsb (fun j => forallb (fun b : bool => b) (take 9 (drop j (bs ++ bs)))) (seq 0 16).

Fixpoint all_bools (n : nat) : list (list bool) :=
  match n with
  | O => [[]]
  | S n' => flat_map (fun l => [true :: l; false :: l]) (all_bools n')
  end.

(** the sixteen comparisons of a pixel with a bound *)
Definition comparisons (src : image) (p step : Z) (test : Z -> bool) : list bool :=
  map (fun k => test (circle src p step k)) (seqZ 0 16).

End DetectorNotions.

Module ScanNotions.

(** the pixel [(x, y)] is not masked out and passes the detector *)
Definition candidate (p : FastKernelParams) (threshold : Z) (key : Z * Z) : bool :=
  let step := i32 (image_steps p) in
  let pos := snd key * step + fst key in
  negb (mask_check p && (mask_image_ptr p pos =? 0))
  && CornerDetector.fast_pixel (src_image_ptr p) pos step threshold.

(** the pixels that the work-items of a work-group look at in the tile
    [(min_x, max_x) x (min_y, max_y)] *)
Definition scanned (p : FastKernelParams) (min_x max_x min_y max_y : Z) (key : Z * Z) : Prop :=
  min_x + 3 <= fst key < max_x - 3 /\
  fst key - (min_x + 3) < fst (TilePartitioner.getLocalRange p) /\
  min_y + 3 <= snd key < max_y - 3 /\
  snd key - (min_y + 3) < ROWS_PER_THREAD * snd (TilePartitioner.getLocalRange p).

End ScanNotions.

(** ** Notions used in the statements about the suppressor *)

Module SuppressorNotions.
Import Suppressor.

(** The rule that [nmsOps] applies to the candidate [key] of the work-group
    whose column pair is [gpx] and row pair is [gpy]; [gpx_at_y] is the
    entry of the column table at the index of the row ([group_y]), from
    which the code takes the row offset.  A neighbour in direction
    [(dx, dy)] is skipped when the candidate is within four pixels of the
    tile side in that direction; otherwise the candidate has to beat its
    score. *)
Definition nms_rule (p : FastKernelParams) (gpx gpy gpx_at_y : Z * Z) (key : Z * Z) : Prop :=
  let step := image_steps p in
  let img := u32 (snd key * step) + fst key in
  let x := fst key - fst gpx in
  let y := snd key - fst gpx_at_y in
  let cols := snd gpx - fst gpx in
  let rows := snd gpy - fst gpy in
  let s := cornerScore (src_image_ptr p) img (i32 step) in
  forall dx dy, - 1 <= dx <= 1 -> - 1 <= dy <= 1 -> (dx, dy) <> (0, 0) ->
    (dx = - 1 /\ x < 4) \/ (dx = 1 /\ cols - 4 <= x) \/
    (dy = - 1 /\ y < 4) \/ (dy = 1 /\ rows - 4 <= y) \/
    cornerScore (src_image_ptr p) (img + dy * step + dx) (i32 step) < s.

End SuppressorNotions.

(** ** Notions used in the statements about the second kernel *)

Module OrderNotions.
Section OrderNotions.
Context {FO : FloatOps}.
Import Descriptor.

(** the position of the descriptor of work-item [idx] fits [int], and its
    record and its 32 bytes exist *)
Definition in_bounds (p : OrbDescriptorKernelParams) (st : orb_state) (idx : Z) : Prop :=
  idx < num_keypoints p ->
  idx * DESCRIPTOR_SIZE <= INT_MAX /\
  idx < Z.of_nat (length (keypoints_ptr st)) /\
  idx * DESCRIPTOR_SIZE + DESCRIPTOR_SIZE <= Z.of_nat (length (descriptors_ptr st)).

(** two work-items one after the other *)
Definition then_item (p : OrbDescriptorKernelParams) (i j : Z) (st : orb_state)
    : option orb_state :=
  match orb_item p i st with Some s => orb_item p j s | None => None end.

End OrderNotions.
End OrderNotions.

Module MomentNotions.
Section MomentNotions.
Context {FO : FloatOps}.
Import Descriptor.

(** the pixel of the patch at column [u] and row [r] from the centre *)
Definition patch (p : OrbDescriptorKernelParams) (center u r : Z) : Z :=
  src_image_ptr p (center + (u + r * image_steps p)).

(** the positions that [computeOrientation] reads: row 0 over
    [-15 .. 15], rows [v] and [-v] over [-u_max[v] .. u_max[v]] *)
Definition in_patch (p : OrbDescriptorKernelParams) (u r : Z) : Prop :=
  - HALF_PATCH_SIZE <= r <= HALF_PATCH_SIZE /\
  Z.abs u <= (if r =? 0 then HALF_PATCH_SIZE else u_max_ptr p (Z.abs r)).

(** the patch reads the same from the left and from the right *)
Definition mirror_lr (p : OrbDescriptorKernelParams) (center : Z) : Prop :=
  forall u r, in_patch p u r -> patch p center (- u) r = patch p center u r.

(** the patch reads the same from the top and from the bottom *)
Definition mirror_ud (p : OrbDescriptorKernelParams) (center : Z) : Prop :=
  forall u r, in_patch p u r -> patch p center u (- r) = patch p center u r.

End MomentNotions.
End MomentNotions.

(** ** Notions used in the statements about a run without edge clip *)

Module SpillNotions.
Import TilePartitioner.

(** the column pair that starts at the right edge of the image *)
Definition spill_tile (p : FastKernelParams) : Z * Z :=
  (image_cols p, Z.min (image_cols p + cell_size p + overlap p) (2 * image_cols p)).

(** the column loop without edge clip: still in the image, just past it, or
    with the pair past the right edge in the list *)
Definition spill_inv (p : FastKernelParams) (s : col_state) : Prop :=
  image_count s = 0 \/
  (image_count s = 1 /\ blk_idx s = 0) \/
  In (spill_tile p) (group_x s).

End SpillNotions.

(** ** Notions used in the statements about the keypoint buffer *)

Module AppendNotions.
Section AppendNotions.
Context {FO : FloatOps}.

(** from [st] to [st'] the counter did not decrease, the buffer kept its
    length, and the records below the old counter are untouched *)
Record appended (st st' : device_state) : Prop := {
  appended_count : keypoints_count st <= keypoints_count st';
  appended_length : length (keypoints_ptr st') = length (keypoints_ptr st);
  appended_old : forall i : nat, Z.of_nat i < keypoints_count st ->
      keypoints_ptr st' !! i = keypoints_ptr st !! i
}.

End AppendNotions.
End AppendNotions.

(** ** Notions used in the statements about single precision *)

Module FloatNotions.

(** the record of a shift holds no bit shifted out *)
Definition exactb (mrs : shr_record) : bool := negb (shr_r mrs) && negb (shr_s mrs).

(** [2 ^ e] and [m * 2 ^ e] as rationals *)
Definition Q2 (e : Z) : Q := (2 ^ e)%Q.
Definition val (m e : Z) : Q := (inject_Z m * Q2 e)%Q.

(** mantissa and exponent of a binary32 number *)
Definition canon (m : positive) (e : Z) : Prop := bounded 24 128 m e = true.

(** [r] has sign [s] and is zero or a number of magnitude at most
    [mB * 2 ^ eB] *)
Definition fin_le (s : bool) (r : spec_float) (mB : positive) (eB : Z) : Prop :=
  r = S754_zero s \/
  exists m e, r = S754_finite s m e /\ canon m e /\ (val (Zpos m) e <= val (Zpos mB) eB)%Q.

(** [r] has sign [s] and is infinite or a number of magnitude at least
    [mB * 2 ^ eB] *)
Definition fin_ge (s : bool) (r : spec_float) (mB : positive) (eB : Z) : Prop :=
  r = S754_infinity s \/
  exists m e, r = S754_finite s m e /\ canon m e /\ (val (Zpos mB) eB <= val (Zpos m) e)%Q.

(** the rational that a finite float denotes *)
Definition SF2Q (x : spec_float) : Q :=
  match x with
  | S754_finite s m e => val (cond_Zopp s (Zpos m)) e
  | _ => 0%Q
  end.

Definition fin (x : spec_float) : Prop :=
  match x with
  | S754_zero _ => True
  | S754_finite _ m e => canon m e
  | _ => False
  end.

(** [lo <= 0 <= hi], both finite *)
Definition brackets (lo hi : spec_float) : Prop :=
  fin lo /\ fin hi /\ (SF2Q lo <= 0)%Q /\ (0 <= SF2Q hi)%Q.

Definition between (lo hi x : spec_float) : Prop :=
  fin x /\ (SF2Q lo <= SF2Q x <= SF2Q hi)%Q.

Definition signed (s : bool) (p : Q) : Prop := if s then (p < 0)%Q else (0 < p)%Q.

(** the constants of [fastAtan2] in binary32 *)
Definition F0 : spec_float := S754_zero false.
Definition eps32 : spec_float := Eval vm_compute in @Descriptor._DBL_EPSILON binary32.
Definition p1 : spec_float := Eval vm_compute in @Descriptor.atan2_p1 binary32.
Definition p3 : spec_float := Eval vm_compute in @Descriptor.atan2_p3 binary32.
Definition p5 : spec_float := Eval vm_compute in @Descriptor.atan2_p5 binary32.
Definition p7 : spec_float := Eval vm_compute in @Descriptor.atan2_p7 binary32.
Definition one : spec_float := Eval vm_compute in Binary32.of_Q 1.
Definition c90 : spec_float := Eval vm_compute in Binary32.of_Q 90.
Definition c180 : spec_float := Eval vm_compute in Binary32.of_Q 180.
Definition c360 : spec_float := Eval vm_compute in Binary32.of_Q 360.

(** [atan2_poly] in binary32 *)
Definition poly32 (c : spec_float) : spec_float :=
  let c2 := SFmul 24 128 c c in
  SFmul 24 128
    (SFadd 24 128
       (SFmul 24 128
          (SFadd 24 128 (SFmul 24 128 (SFadd 24 128 (SFmul 24 128 p7 c2) p5) c2) p3) c2)
       p1) c.

End FloatNotions.

(** ** Example inputs *)

(** an image that is [bg] everywhere but at the listed offsets *)
Fixpoint dotted_image (bg : Z) (dots : list (Z * Z)) : image :=
  fun i =>
    match dots with
    | [] => bg
    | (o, v) :: dots' => if i =? o then v else dotted_image bg dots' i
    end.

(** a 7x7 patch, centre 110 at offset 24, where exactly the circle points
    1..8 are darker by 10 *)
Definition arc8_patch : image :=
  dotted_image 110
    [(20, 100); (12, 100); (4, 100); (3, 100); (2, 100); (8, 100); (14, 100); (21, 100)].

(** a 76x76 image with two adjacent bright pixels, at columns 23 and 24 of
    row 29, on a flat background *)
Definition two_corners : image :=
  dotted_image 100 [(29 * 76 + 23, 255); (29 * 76 + 24, 200)].

(** the detection parameters of the tests (thresholds 20 and 7, edge clip 19,
    overlap 6, cells of 32) on [two_corners], with the tables that
    [UpdateGroupPosition] computes for it *)
Definition two_corner_params (nms : bool) : FastKernelParams :=
  {| src_image_ptr := two_corners; mask_image_ptr := fun _ => 0;
     group_pos_x_ptr := [(19, 57); (51, 57)]; group_pos_y_ptr := [(19, 57)];
     image_cols := 76; image_rows := 76; image_steps := 76;
     ini_threshold := 20; min_threshold := 7;
     edge_clip := 19; overlap := 6; cell_size := 32; num_images := 1;
     mask_check := false; nms_required := nms |}.

(** a 76x76 image with one pixel, at column 30 of row 30, brighter by 10
    than its flat background: a corner for the threshold 7, not for 20 *)
Definition faint_corner : image := dotted_image 100 [(30 * 76 + 30, 110)].

Definition faint_corner_params (nms : bool) : FastKernelParams :=
  {| src_image_ptr := faint_corner; mask_image_ptr := fun _ => 0;
     group_pos_x_ptr := [(19, 57); (51, 57)]; group_pos_y_ptr := [(19, 57)];
     image_cols := 76; image_rows := 76; image_steps := 76;
     ini_threshold := 20; min_threshold := 7;
     edge_clip := 19; overlap := 6; cell_size := 32; num_images := 1;
     mask_check := false; nms_required := nms |}.

(** a keypoint buffer of four stale records *)
Definition stale_key : @PartKey fixed_floats := @Build_PartKey fixed_floats 0 0 (7 * fx_one) 0.

Definition stale_state : @device_state fixed_floats :=
  {| keypoints_ptr := replicate 4 stale_key; keypoints_count := 0; fast_calls := [] |}.

Definition after_nms : option (unit * @device_state fixed_floats) :=
  Eval vm_compute in Kernel.run_group (two_corner_params true) 0 0 stale_state.

Definition after_raw : option (unit * @device_state fixed_floats) :=
  Eval vm_compute in Kernel.run_group (two_corner_params false) 0 0 stale_state.

Definition faint_nms : option (unit * @device_state fixed_floats) :=
  Eval vm_compute in Kernel.run_group (faint_corner_params true) 0 0 stale_state.


Definition final_state (r : option (unit * @device_state fixed_floats))
    : @device_state fixed_floats :=
  match r with Some (_, st) => st | None => stale_state end.

(** a 10x10 image with [edge_clip = 20], and bounds tables left in
    [dev_group_x] and [dev_group_y] by an earlier call *)
Definition clip_beyond_params : FastKernelParams :=
  {| src_image_ptr := fun _ => 100; mask_image_ptr := fun _ => 0;
     group_pos_x_ptr := [(19, 57)]; group_pos_y_ptr := [(19, 57)];
     image_cols := 10; image_rows := 10; image_steps := 10;
     ini_threshold := 20; min_threshold := 7;
     edge_clip := 20; overlap := 6; cell_size := 32; num_images := 1;
     mask_check := false; nms_required := true |}.

Definition clip_beyond_args : @Kernel.fast_args fixed_floats :=
  {| Kernel.in_params := clip_beyond_params; Kernel.mask_cols := 0; Kernel.mask_rows := 0;
     Kernel.dev_keypoints_tmp := replicate 4 stale_key |}.

(** one keypoint at (30, 30) of a 76-pixel-wide textured image, followed by
    a record and by descriptor bytes that belong to nobody *)
Definition orb_example_params : @Descriptor.OrbDescriptorKernelParams fixed_floats :=
  {| Descriptor.src_image_ptr := fun i => (i * 53) mod 256;
     Descriptor.gaussian_image_ptr := fun i => (i * 37) mod 251;
     Descriptor.u_max_ptr :=
       fun v => nth (Z.to_nat v) [15; 15; 15; 15; 14; 14; 14; 13; 13; 12; 11; 10; 9; 8; 6; 3] 0;
     Descriptor.pattern_ptr := fun i => @f_of_int fixed_floats ((i * 7) mod 27 - 13);
     Descriptor.image_steps := 76;
     Descriptor.num_keypoints := 1 |}.

Definition orb_example_state : @Descriptor.orb_state fixed_floats :=
  {| Descriptor.keypoints_ptr :=
       [@Build_PartKey fixed_floats 30 30 (7 * fx_one) (- fx_one); stale_key];
     Descriptor.descriptors_ptr := replicate 40 255 |}.

Definition orb_example_after : @Descriptor.orb_state fixed_floats :=
  Eval vm_compute in
    match Descriptor.orb_kernel orb_example_params orb_example_state with
    | Some st => st
    | None => orb_example_state
    end.

(** the parameters of the tests on an 848x480 image, on a strip of 44
    rows, and on a 10x10 image *)
Definition partition_params (cols rows : Z) : FastKernelParams :=
  {| src_image_ptr := fun _ => 0; mask_image_ptr := fun _ => 0;
     group_pos_x_ptr := []; group_pos_y_ptr := [];
     image_cols := cols; image_rows := rows; image_steps := cols;
     ini_threshold := 20; min_threshold := 7;
     edge_clip := 19; overlap := 6; cell_size := 32; num_images := 1;
     mask_check := false; nms_required := true |}.

(** the states that the column loop visits for [clip_beyond_params] *)
Definition stuck (s : TilePartitioner.col_state) : Prop :=
  TilePartitioner.image_count s = 0 /\ TilePartitioner.current_width s = 10 /\
  (u32 (TilePartitioner.min_x s) mod 32 = 0 \/ u32 (TilePartitioner.min_x s) mod 32 = 20).


(** a 64x108 image with one bright pixel at column 30 of row 60, and the
    tables that [UpdateGroupPosition] computes for it: one column pair, two
    row pairs *)
Definition tall_params : FastKernelParams :=
  {| src_image_ptr := dotted_image 100 [(60 * 64 + 30, 255)]; mask_image_ptr := fun _ => 0;
     group_pos_x_ptr := [(19, 45)]; group_pos_y_ptr := [(19, 57); (51, 89)];
     image_cols := 64; image_rows := 108; image_steps := 64;
     ini_threshold := 20; min_threshold := 7;
     edge_clip := 19; overlap := 6; cell_size := 32; num_images := 1;
     mask_check := false; nms_required := true |}.

(** a 109x109 image with cells of 65, so that [cell_size + overlap = 71],
    with bright pixels at (40, 50) and, in the last row of the window of
    the tile, at (30, 86) *)
Definition wide_cell_params : FastKernelParams :=
  {| src_image_ptr := dotted_image 100 [(86 * 109 + 30, 255); (50 * 109 + 40, 255)];
     mask_image_ptr := fun _ => 0;
     group_pos_x_ptr := [(19, 90); (84, 90)]; group_pos_y_ptr := [(19, 90)];
     image_cols := 109; image_rows := 109; image_steps := 109;
     ini_threshold := 20; min_threshold := 7;
     edge_clip := 19; overlap := 6; cell_size := 65; num_images := 1;
     mask_check := false; nms_required := true |}.

(** a 100x100 image processed without edge clip *)
Definition unclipped_params : FastKernelParams :=
  {| src_image_ptr := fun _ => 0; mask_image_ptr := fun _ => 0;
     group_pos_x_ptr := []; group_pos_y_ptr := [];
     image_cols := 100; image_rows := 100; image_steps := 100;
     ini_threshold := 20; min_threshold := 7;
     edge_clip := 0; overlap := 6; cell_size := 32; num_images := 1;
     mask_check := false; nms_required := true |}.

(** the arguments of a first call of [fastExtImpl] on an 848x480 image *)
Definition partition_args : @Kernel.fast_args fixed_floats :=
  {| Kernel.in_params := partition_params 848 480; Kernel.mask_cols := 0;
     Kernel.mask_rows := 0; Kernel.dev_keypoints_tmp := replicate 4 stale_key |}.

(** a flat patch *)
Definition flat_orb_params : @Descriptor.OrbDescriptorKernelParams fixed_floats :=
  {| Descriptor.src_image_ptr := fun _ => 100;
     Descriptor.gaussian_image_ptr := fun _ => 100;
     Descriptor.u_max_ptr :=
       fun v => nth (Z.to_nat v) [15; 15; 15; 15; 14; 14; 14; 13; 13; 12; 11; 10; 9; 8; 6; 3] 0;
     Descriptor.pattern_ptr := fun i => @f_of_int fixed_floats 0;
     Descriptor.image_steps := 76;
     Descriptor.num_keypoints := 1 |}.


(** * Properties *)

(** ** Machine integers *)

Lemma u32_small z : 0 <= z < 2 ^ 32 -> u32 z = z.
Proof. intros H. unfold u32. apply Z.mod_small. exact H. Qed.

Lemma i32_small z : - 2 ^ 31 <= z < 2 ^ 31 -> i32 z = z.
Proof. intros H. unfold i32. rewrite Z.mod_small; lia. Qed.

Lemma i32_u32 z : i32 (u32 z) = i32 z.
Proof.
  unfold i32, u32.
  rewrite <- (Zplus_mod_idemp_l z (2 ^ 31) (2 ^ 32)). reflexivity.
Qed.

Lemma i16_small z : - 2 ^ 15 <= z < 2 ^ 15 -> i16 z = z.
Proof. intros H. unfold i16. rewrite Z.mod_small; lia. Qed.

(** [align] where nothing wraps *)
Lemma align_small bits total grain :
  0 < grain -> 0 <= total -> total + grain - 1 < 2 ^ bits ->
  align bits total grain = (total + grain - 1) / grain * grain.
Proof.
  intros Hg Ht Hs. unfold align, divUp, wrap.
  rewrite (Z.mod_small (total + grain - 1)) by lia.
  assert (H1 : 0 <= (total + grain - 1) / grain) by (apply Z.div_pos; lia).
  assert (H2 : (total + grain - 1) / grain * grain <= total + grain - 1).
  { pose proof (Z.mul_div_le (total + grain - 1) grain Hg). lia. }
  assert (H3 : (total + grain - 1) / grain <= (total + grain - 1) / grain * grain).
  { apply (Z.le_trans _ ((total + grain - 1) / grain * 1)); [lia|].
    apply Z.mul_le_mono_nonneg_l; lia. }
  rewrite (Z.mod_small ((total + grain - 1) / grain)) by lia.
  apply Z.mod_small. lia.
Qed.

Lemma dotted_image_byte bg dots :
  0 <= bg <= 255 -> Forall (fun d => 0 <= snd d <= 255) dots ->
  byte_image (dotted_image bg dots).
Proof.
  intros Hbg Hd i. induction Hd as [|[o v] dots Hv _ IH]; simpl.
  - exact Hbg.
  - destruct (i =? o); [exact Hv | exact IH].
Qed.

(** ** Corner score *)

Module SuppressorFacts.
Import Suppressor.

Lemma le_max_list t l : forall x, t <= max_list x l <-> t <= x \/ Exists (fun y => t <= y) l.
Proof.
  unfold max_list. induction l as [|y l IH]; intros x; simpl.
  - rewrite Exists_nil. tauto.
  - rewrite IH, Exists_cons, Z.max_le_iff. tauto.
Qed.

Lemma le_min_list t l : forall x, t <= min_list x l <-> t <= x /\ Forall (fun y => t <= y) l.
Proof.
  unfold min_list. induction l as [|y l IH]; intros x; simpl.
  - rewrite Forall_nil. tauto.
  - rewrite IH, Forall_cons, Z.min_glb_iff. tauto.
Qed.

Lemma min_list_le t l : forall x, min_list x l <= t <-> x <= t \/ Exists (fun y => y <= t) l.
Proof.
  unfold min_list. induction l as [|y l IH]; intros x; simpl.
  - rewrite Exists_nil. tauto.
  - rewrite IH, Exists_cons, Z.min_le_iff. tauto.
Qed.

Lemma max_list_le t l : forall x, max_list x l <= t <-> x <= t /\ Forall (fun y => y <= t) l.
Proof.
  unfold max_list. induction l as [|y l IH]; intros x; simpl.
  - rewrite Forall_nil. tauto.
  - rewrite IH, Forall_cons, Z.max_lub_iff. tauto.
Qed.

(** every point of the arc is at least [t] (resp. at most [t]) *)
Definition all_ge (t : Z) (arc : list Z) : Prop := Forall (fun y => t <= y) arc.
Definition all_le (t : Z) (arc : list Z) : Prop := Forall (fun y => y <= t) arc.

Lemma le_arc_min_cons t x l : t <= arc_min (x :: l) <-> all_ge t (x :: l).
Proof. unfold all_ge, arc_min. rewrite le_min_list, Forall_cons. reflexivity. Qed.

Lemma arc_max_le_cons t x l : arc_max (x :: l) <= t <-> all_le t (x :: l).
Proof. unfold all_le, arc_max. rewrite max_list_le, Forall_cons. reflexivity. Qed.

Lemma le_arc_min t d j : t <= arc_min (arc9 d j) <-> all_ge t (arc9 d j).
Proof. unfold arc9. cbn [map]. apply le_arc_min_cons. Qed.

Lemma arc_max_le t d j : arc_max (arc9 d j) <= t <-> all_le t (arc9 d j).
Proof. unfold arc9. cbn [map]. apply arc_max_le_cons. Qed.

(** the arc of [k] shifted by one point, as the loop bodies index it *)
Definition arc9_next (d : list Z) (k : Z) : list Z :=
  map (fun i => dget d (Z.land (k + i) 15)) [1; 2; 3; 4; 5; 6; 7; 8; 9].

Lemma dark_fold_le t d ks : forall a0,
  t <= fold_left (dark_body d) ks a0 <->
  t <= a0 \/ Exists (fun k => all_ge t (arc9 d k) \/ all_ge t (arc9_next d k)) ks.
Proof.
  induction ks as [|k ks IH]; intros a0; simpl.
  - rewrite Exists_nil. tauto.
  - rewrite IH, Exists_cons. unfold dark_body, all_ge, arc9, arc9_next. simpl map.
    rewrite !Forall_cons, Forall_nil, !Z.max_le_iff, !Z.min_glb_iff, Z.add_0_r. tauto.
Qed.

Lemma bright_fold_le t d ks :
  Forall (fun k => Z.land k 15 = k) ks -> forall b0,
  fold_left (bright_body d) ks b0 <= t <->
  b0 <= t \/ Exists (fun k => all_le t (arc9 d k) \/ all_le t (arc9_next d k)) ks.
Proof.
  induction 1 as [|k ks Hk Hks IH]; intros b0; simpl.
  - rewrite Exists_nil. tauto.
  - rewrite IH, Exists_cons. unfold bright_body, all_le, arc9, arc9_next. simpl map.
    rewrite !Forall_cons, Forall_nil, !Z.min_le_iff, !Z.max_lub_iff, Z.add_0_r, Hk. tauto.
Qed.

Lemma rotations_masked : Forall (fun k => Z.land k 15 = k) rotations.
Proof. unfold rotations. repeat constructor. Qed.

(** the two arcs visited at each even [k] are the sixteen arcs *)
Lemma rotations_cover (P : list Z -> Prop) d :
  Exists (fun k => P (arc9 d k) \/ P (arc9_next d k)) rotations <->
  Exists (fun j => P (arc9 d j)) starts16.
Proof.
  unfold rotations, starts16. rewrite !Exists_cons, !Exists_nil.
  unfold arc9, arc9_next. simpl map. tauto.
Qed.

Lemma eq_by_lower a b : (forall t, t <= a <-> t <= b) -> a = b.
Proof. intros H. apply Z.le_antisymm; [apply H | apply H]; lia. Qed.

Lemma eq_by_upper a b : (forall t, a <= t <-> b <= t) -> a = b.
Proof. intros H. apply Z.le_antisymm; [apply H | apply H]; lia. Qed.

Lemma dark_loop_arc9 d :
  fold_left (dark_body d) rotations 0
  = max_list 0 (map (fun j => arc_min (arc9 d j)) starts16).
Proof.
  apply eq_by_lower. intros t.
  rewrite dark_fold_le, le_max_list, Exists_map, (rotations_cover (all_ge t)).
  setoid_rewrite le_arc_min. reflexivity.
Qed.

Lemma bright_loop_arc9 d b0 :
  fold_left (bright_body d) rotations b0
  = min_list b0 (map (fun j => arc_max (arc9 d j)) starts16).
Proof.
  apply eq_by_upper. intros t.
  rewrite (bright_fold_le _ _ _ rotations_masked), min_list_le, Exists_map,
    (rotations_cover (all_le t)).
  setoid_rewrite arc_max_le. reflexivity.
Qed.

Lemma score_of_circle_arc9 d : score_of_circle d = arc9_score_of_circle d.
Proof.
  unfold score_of_circle, arc9_score_of_circle.
  rewrite dark_loop_arc9, bright_loop_arc9. reflexivity.
Qed.

(** the array filled by the eight [LOAD2] *)
Lemma load_circle_eq src p step :
  load_circle src p step
  = map i16 (circle_differences src p step).
Proof. reflexivity. Qed.

Lemma load_circle_byte src p step :
  byte_image src -> load_circle src p step = circle_differences src p step.
Proof.
  intros Hb. rewrite load_circle_eq.
  unfold circle_differences. cbv zeta.
  rewrite map_app, !map_map.
  f_equal; apply map_ext; intros o; apply i16_small;
    pose proof (Hb p); pose proof (Hb (p + o)); pose proof (Hb (p - o)); lia.
Qed.

End SuppressorFacts.

(** C4 (as amended).  On an 8-bit image the score returned by [cornerScore]
    is the formula over the sixteen differences [d[k] = center - circle[k]]
    in which every arc has nine points: the maximum, seeded with 0, over the
    sixteen contiguous 9-point arcs of the minimum over the arc; the minimum,
    seeded with the negated dark result, over the same arcs of the maximum
    over the arc; the score is minus that minimum, minus one. *)
Theorem cornerScore_nine_point_arcs (src : image) (p step : Z) :
  byte_image src ->
  Suppressor.cornerScore src p step
  = Suppressor.arc9_score_of_circle (Suppressor.circle_differences src p step).
Proof.
  intros Hb. unfold Suppressor.cornerScore.
  rewrite SuppressorFacts.load_circle_byte by exact Hb.
  apply SuppressorFacts.score_of_circle_arc9.
Qed.

Lemma arc8_patch_byte : byte_image arc8_patch.
Proof. apply dotted_image_byte; [lia | repeat constructor; simpl; lia]. Qed.

Lemma cornerScore_nine_point_arcs_witness :
  byte_image arc8_patch /\
  Suppressor.cornerScore arc8_patch 24 7
  = Suppressor.arc9_score_of_circle (Suppressor.circle_differences arc8_patch 24 7).
Proof.
  split; [exact arc8_patch_byte |].
  apply (cornerScore_nine_point_arcs arc8_patch 24 7 arc8_patch_byte).
Defined.

(** C4 (as stated) fails: with 8-point arcs the patch [arc8_patch] would
    score 9, the code returns -1. *)
Lemma cornerScore_not_eight_point_arcs :
  Suppressor.cornerScore arc8_patch 24 7 = -1 /\
  Suppressor.spec_cornerScore arc8_patch 24 7 = 9 /\
  Suppressor.cornerScore arc8_patch 24 7 <> Suppressor.spec_cornerScore arc8_patch 24 7.
Proof. repeat split; try reflexivity. vm_compute. discriminate. Qed.

(** ** The detection kernel *)

Module KernelFacts.
Section KernelFacts.
Context {FO : FloatOps}.
Import CornerDetector Kernel Notions.

Lemma u64_small z : 0 <= z < 2 ^ 64 -> u64 z = z.
Proof. intros H. unfold u64. apply Z.mod_small. exact H. Qed.

Lemma u32_range z : 0 <= u32 z < 2 ^ 32.
Proof. unfold u32. apply Z.mod_pos_bound. lia. Qed.

Lemma In_seqZ x m n : In x (seqZ m n) <-> m <= x < m + n.
Proof. rewrite <- list_elem_of_In. apply elem_of_seqZ. Qed.


Lemma getLocalRange_bound p :
  0 <= fst (TilePartitioner.getLocalRange p) < 2 ^ 32 /\
  0 <= snd (TilePartitioner.getLocalRange p) < 2 ^ 32.
Proof.
  unfold TilePartitioner.getLocalRange, TilePartitioner.align32. simpl.
  split; apply u32_range.
Qed.



Lemma nms_accept_score p gx gy key b s :
  NMS.nms_accept p gx gy key = Some (b, s) -> s = key_score p key.
Proof.
  unfold NMS.nms_accept, key_score.
  destruct (group_pos_x_ptr p !! Z.to_nat gx); [|discriminate].
  destruct (group_pos_y_ptr p !! Z.to_nat gy); [|discriminate].
  destruct (group_pos_x_ptr p !! Z.to_nat gy); [|discriminate].
  cbv zeta. destruct (negb _); intros H; injection H; intros; subst; reflexivity.
Qed.

Lemma survivors_cons p gx gy key keys :
  survivors p gx gy (key :: keys)
  = if accepted p gx gy key then key :: survivors p gx gy keys else survivors p gx gy keys.
Proof.
  unfold survivors. rewrite filter_cons.
  destruct (accepted p gx gy key); [rewrite decide_True | rewrite decide_False]; auto.
Qed.

Lemma wrote_nil st store : wrote st st [] store.
Proof.
  split; simpl; try lia; auto.
  intros j key H. rewrite lookup_nil in H. discriminate.
Qed.

Lemma wrote_cons st st2 st' key keys store old :
  0 <= keypoints_count st ->
  keypoints_ptr st !! Z.to_nat (keypoints_count st) = Some old ->
  keypoints_ptr st2 = <[Z.to_nat (keypoints_count st) := store key old]> (keypoints_ptr st) ->
  keypoints_count st2 = keypoints_count st + 1 ->
  wrote st2 st' keys store ->
  wrote st st' (key :: keys) store.
Proof.
  intros Hc Hold Hk2 Hc2 [W1 W3 W4 W5].
  assert (Hlt : (Z.to_nat (keypoints_count st) < length (keypoints_ptr st))%nat)
    by (eapply lookup_lt_Some; eauto).
  split.
  - rewrite W1, Hc2. simpl length. lia.
  - rewrite W3, Hk2. apply length_insert.
  - intros i Hi. simpl length in Hi. rewrite W4 by lia.
    rewrite Hk2. apply list_lookup_insert_ne. lia.
  - intros [|j] k Hj; simpl in Hj.
    + injection Hj as <-. exists old. rewrite Z.add_0_r. split; [exact Hold|].
      rewrite W4 by lia. rewrite Hk2. apply list_lookup_insert_eq. exact Hlt.
    + destruct (W5 j k Hj) as [o [Ho1 Ho2]]. exists o.
      replace (keypoints_count st + Z.of_nat (S j))
        with (keypoints_count st2 + Z.of_nat j) by lia.
      split; [|exact Ho2].
      rewrite Hk2 in Ho1. rewrite list_lookup_insert_ne in Ho1 by lia. exact Ho1.
Qed.

Lemma wrote_ext st1 st2 st' keys store :
  keypoints_ptr st1 = keypoints_ptr st2 -> keypoints_count st1 = keypoints_count st2 ->
  wrote st1 st' keys store -> wrote st2 st' keys store.
Proof.
  intros Hk Hc [W1 W3 W4 W5]. split; rewrite <- ?Hk, <- ?Hc; auto.
Qed.

Lemma wrote_nil_eq st st' store :
  wrote st st' [] store ->
  keypoints_ptr st' = keypoints_ptr st /\ keypoints_count st' = keypoints_count st.
Proof.
  intros [W1 W3 W4 W5]. simpl in *. split; [|lia].
  apply list_eq. intros i. apply W4.
  destruct (Z_lt_le_dec (Z.of_nat i) (keypoints_count st)); [left|right]; lia.
Qed.

Lemma buffer_ok_ext st1 st2 :
  keypoints_ptr st1 = keypoints_ptr st2 -> keypoints_count st1 = keypoints_count st2 ->
  buffer_ok st2 -> buffer_ok st1.
Proof. unfold buffer_ok. intros -> ->. auto. Qed.

(** a successful store at the slot returned by the counter, followed by [k] *)
Lemma slot_store {A} (st st' : device_state) (conv : Z -> Z) f (k : dev A) r :
  buffer_ok st ->
  (forall z, 0 <= z < 2 ^ 31 -> conv z = z) ->
  (forall z, 2 ^ 31 <= z < 2 ^ 32 -> conv z < 0 \/ 2 ^ 31 <= conv z) ->
  dbind next_slot (fun global_idx => dbind (update_key (conv global_idx) f) (fun _ => k)) st
    = Some (r, st') ->
  exists old st2,
    keypoints_ptr st !! Z.to_nat (keypoints_count st) = Some old /\
    keypoints_ptr st2 = <[Z.to_nat (keypoints_count st) := f old]> (keypoints_ptr st) /\
    keypoints_count st2 = keypoints_count st + 1 /\
    fast_calls st2 = fast_calls st /\ buffer_ok st2 /\ k st2 = Some (r, st').
Proof.
  intros [Hc Hl] Hconv Hneg. unfold dbind, next_slot, update_key.
  cbn [keypoints_ptr keypoints_count fast_calls].
  destruct (Z_lt_le_dec (keypoints_count st) (2 ^ 31)) as [Hs|Hs].
  - rewrite Hconv by lia.
    destruct (Z.ltb_spec (keypoints_count st) 0); [lia|].
    destruct (keypoints_ptr st !! Z.to_nat (keypoints_count st)) as [old|] eqn:Hold;
      [|discriminate].
    intros Heq. exists old.
    exists {| keypoints_ptr := <[Z.to_nat (keypoints_count st) := f old]> (keypoints_ptr st);
              keypoints_count := u32 (keypoints_count st + 1);
              fast_calls := fast_calls st |}.
    unfold buffer_ok. cbn [keypoints_ptr keypoints_count fast_calls].
    repeat split; auto.
    all: assert (Hi : (Z.to_nat (keypoints_count st) < length (keypoints_ptr st))%nat)
      by (eapply lookup_lt_Some; eauto).
    all: rewrite ?length_insert, ?u32_small; lia.
  - destruct (Hneg (keypoints_count st)) as [Hn|Hn]; try lia.
    + destruct (Z.ltb_spec (conv (keypoints_count st)) 0); [discriminate|lia].
    + destruct (Z.ltb_spec (conv (keypoints_count st)) 0); [discriminate|].
      destruct (keypoints_ptr st !! Z.to_nat (conv (keypoints_count st))) as [old|] eqn:Hold;
        [|discriminate].
      apply lookup_lt_Some in Hold. lia.
Qed.

Lemma i32_negative z : 2 ^ 31 <= z < 2 ^ 32 -> i32 z < 0 \/ 2 ^ 31 <= i32 z.
Proof.
  intros H. left. unfold i32.
  replace (z + 2 ^ 31) with ((z - 2 ^ 31) + 1 * 2 ^ 32) by lia.
  rewrite Z_mod_plus_full, Z.mod_small; lia.
Qed.

Lemma write_raw_spec p keys : forall st st',
  buffer_ok st ->
  write_raw p keys st = Some (tt, st') ->
  wrote st st' keys (fun key => store_raw p (fst key) (snd key))
  /\ buffer_ok st'.
Proof.
  induction keys as [|key keys IH]; intros st st' Hok; simpl.
  - unfold dret. intros H. injection H as <-. auto using wrote_nil.
  - intros H.
    apply (slot_store st st' (fun z => z)) in H; auto; [|intros; lia].
    destruct H as (old & st2 & Hold & Hk & Hc & Hf & Hok2 & Hrest).
    destruct (IH _ _ Hok2 Hrest) as (W & Hok').
    split; [|exact Hok'].
    eapply wrote_cons; eauto. destruct Hok; lia.
Qed.

Lemma nmsOps_spec p gx gy keys : forall st st' n,
  buffer_ok st ->
  nmsOps p gx gy keys st = Some (n, st') ->
  wrote st st' (survivors p gx gy keys)
        (fun key => store_nms p (fst key) (snd key) (key_score p key)) /\
  buffer_ok st'.
Proof.
  induction keys as [|key keys IH]; intros st st' n Hok; simpl.
  - unfold dret. intros H. injection H as <- <-. auto using wrote_nil.
  - rewrite survivors_cons. unfold nms_item, accepted.
    unfold dbind at 1 2. unfold dlift.
    destruct (NMS.nms_accept p gx gy key) as [[b s]|] eqn:Hacc; [|discriminate].
    pose proof (nms_accept_score _ _ _ _ _ _ Hacc) as Hs. cbn [fst snd].
    destruct b.
    + intros H.
      assert (H' : dbind next_slot (fun global_idx =>
                 dbind (update_key (i32 global_idx) (store_nms p (fst key) (snd key) s))
                   (fun _ => dbind (nmsOps p gx gy keys) (fun n0 => dret (Z.b2z true + n0)))) st
                 = Some (n, st')).
      { revert H. unfold dbind, dret.
        destruct (next_slot st) as [[g st1]|]; [|discriminate].
        destruct (update_key (i32 g) _ st1) as [[[] st2]|]; [|discriminate]. auto. }
      apply (slot_store st st' i32) in H'; auto using i32_negative;
        [|intros; apply i32_small; lia].
      destruct H' as (old & st2 & Hold & Hk & Hc & Hf & Hok2 & Hrest).
      unfold dbind in Hrest.
      destruct (nmsOps p gx gy keys st2) as [[n0 st3]|] eqn:Hn; [|discriminate].
      unfold dret in Hrest. injection Hrest as <- <-.
      destruct (IH _ _ _ Hok2 Hn) as (W & Hok').
      split; [|exact Hok'].
      eapply wrote_cons; eauto; [destruct Hok; lia | subst s; exact Hk].
    + unfold dret, dbind.
      destruct (nmsOps p gx gy keys st) as [[n0 st3]|] eqn:Hn; [|discriminate].
      intros H. injection H as <- <-.
      destruct (IH _ _ _ Hok Hn) as (W & Hok').
      auto.
Qed.

(** the detector history is touched by [fastOps] only, and the count
    returned by [nmsOps] is the number of survivors *)
Lemma update_key_calls idx f st st' :
  update_key idx f st = Some (tt, st') -> fast_calls st' = fast_calls st.
Proof.
  unfold update_key. destruct (idx <? 0); [discriminate|].
  destruct (keypoints_ptr st !! Z.to_nat idx); [|discriminate].
  intros H. injection H as <-. reflexivity.
Qed.

Lemma write_raw_calls p keys : forall st st',
  write_raw p keys st = Some (tt, st') -> fast_calls st' = fast_calls st.
Proof.
  induction keys as [|key keys IH]; intros st st'; simpl.
  - unfold dret. intros H. injection H as <-. reflexivity.
  - unfold dbind, next_slot.
    destruct (update_key _ _ _) as [[[] st2]|] eqn:Hu; [|discriminate].
    intros H. apply IH in H. apply update_key_calls in Hu. rewrite H, Hu. reflexivity.
Qed.

Lemma nmsOps_count p gx gy keys : forall st st' n,
  nmsOps p gx gy keys st = Some (n, st') ->
  n = Z.of_nat (length (survivors p gx gy keys)) /\ fast_calls st' = fast_calls st.
Proof.
  induction keys as [|key keys IH]; intros st st' n; simpl.
  - unfold dret. intros H. injection H as <- <-. auto.
  - rewrite survivors_cons. unfold nms_item, accepted.
    unfold dbind at 1 2. unfold dlift.
    destruct (NMS.nms_accept p gx gy key) as [[b s]|]; [|discriminate].
    cbn [fst snd]. destruct b.
    + unfold dbind, next_slot, dret.
      destruct (update_key _ _ _) as [[[] st2]|] eqn:Hu; [|discriminate].
      apply update_key_calls in Hu. cbn [fast_calls] in Hu.
      destruct (nmsOps p gx gy keys st2) as [[n0 st3]|] eqn:Hn; [|discriminate].
      intros H. injection H as <- <-.
      destruct (IH _ _ _ Hn) as (-> & Hf).
      split; [simpl length; cbn; lia | congruence].
    + unfold dbind, dret.
      destruct (nmsOps p gx gy keys st) as [[n0 st3]|] eqn:Hn; [|discriminate].
      intros H. injection H as <- <-. destruct (IH _ _ _ Hn) as (-> & Hf). auto.
Qed.

Lemma fastOps_spec p gx gy t st keys st1 :
  fastOps p gx gy t st = Some (keys, st1) ->
  detect p gx gy t = Some keys /\
  keypoints_ptr st1 = keypoints_ptr st /\ keypoints_count st1 = keypoints_count st /\
  fast_calls st1 = fast_calls st ++ [t].
Proof.
  unfold fastOps. destruct (detect p gx gy t); [|discriminate].
  intros H. injection H as <- <-. auto.
Qed.

(** the calls of the detector made by one work-group *)
Lemma fastExt_group_calls p gx gy st st' :
  fastExt_group p gx gy st = Some (tt, st') ->
  exists keys0,
    detect p gx gy (ini_threshold p) = Some keys0 /\
    fast_calls st'
    = fast_calls st ++ ini_threshold p
        :: (if tile_count p gx gy keys0 =? 0 then [min_threshold p] else []).
Proof.
  unfold fastExt_group, tile_count. unfold dbind at 1.
  destruct (fastOps p gx gy (ini_threshold p) st) as [[keys0 st1]|] eqn:H1; [|discriminate].
  apply fastOps_spec in H1. destruct H1 as (Hd0 & _ & _ & Hf1).
  exists keys0. split; [exact Hd0|].
  destruct (nms_required p).
  - revert H. unfold dbind at 1.
    destruct (nmsOps p gx gy keys0 st1) as [[n st2]|] eqn:H2; [|discriminate].
    apply nmsOps_count in H2. destruct H2 as (-> & Hf2).
    destruct (Z.of_nat (length (survivors p gx gy keys0)) =? 0).
    + unfold dbind at 1.
      destruct (fastOps p gx gy (min_threshold p) st2) as [[keys st3]|] eqn:H3; [|discriminate].
      apply fastOps_spec in H3. destruct H3 as (_ & _ & _ & Hf3).
      unfold dbind, dret.
      destruct (nmsOps p gx gy keys st3) as [[n st4]|] eqn:H4; [|discriminate].
      apply nmsOps_count in H4. destruct H4 as (_ & Hf4).
      intros H. injection H as <-.
      rewrite Hf4, Hf3, Hf2, Hf1, <- app_assoc. reflexivity.
    + unfold dret. intros H. injection H as <-. rewrite Hf2, Hf1. reflexivity.
  - revert H. destruct (Z.of_nat (length keys0) =? 0).
    + unfold dbind.
      destruct (fastOps p gx gy (min_threshold p) st1) as [[keys st3]|] eqn:H3; [|discriminate].
      apply fastOps_spec in H3. destruct H3 as (_ & _ & _ & Hf3).
      intros H. apply write_raw_calls in H.
      rewrite H, Hf3, Hf1, <- app_assoc. reflexivity.
    + unfold dbind, dret. intros H. apply write_raw_calls in H.
      rewrite H, Hf1. reflexivity.
Qed.

(** the passes of one work-group and what the last one writes *)
Lemma fastExt_group_passes p gx gy st st' :
  buffer_ok st ->
  fastExt_group p gx gy st = Some (tt, st') ->
  exists keys0 keys,
    detect p gx gy (ini_threshold p) = Some keys0 /\
    (if tile_count p gx gy keys0 =? 0
     then detect p gx gy (min_threshold p) = Some keys else keys = keys0) /\
    wrote st st' (written p gx gy keys) (stored p).
Proof.
  intros Hok. unfold fastExt_group, written, tile_count, stored.
  unfold dbind at 1.
  destruct (fastOps p gx gy (ini_threshold p) st) as [[keys0 st1]|] eqn:H1; [|discriminate].
  apply fastOps_spec in H1. destruct H1 as (Hd0 & Hk1 & Hc1 & Hf1).
  assert (Hok1 : buffer_ok st1) by (eapply buffer_ok_ext; eauto).
  destruct (nms_required p).
  - unfold dbind at 1.
    destruct (nmsOps p gx gy keys0 st1) as [[n st2]|] eqn:H2; [|discriminate].
    pose proof (nmsOps_count _ _ _ _ _ _ _ H2) as (-> & _).
    apply nmsOps_spec in H2; [|exact Hok1]. destruct H2 as (W2 & Hok2).
    destruct (Z.of_nat (length (survivors p gx gy keys0)) =? 0) eqn:Hz.
    + unfold dbind at 1.
      destruct (fastOps p gx gy (min_threshold p) st2) as [[keys st3]|] eqn:H3; [|discriminate].
      apply fastOps_spec in H3. destruct H3 as (Hd3 & Hk3 & Hc3 & Hf3).
      unfold dbind, dret.
      destruct (nmsOps p gx gy keys st3) as [[n st4]|] eqn:H4; [|discriminate].
      intros H. injection H as <-.
      apply nmsOps_spec in H4; [|eapply buffer_ok_ext; eauto].
      destruct H4 as (W4 & Hok4).
      exists keys0, keys. rewrite Hz. split; [exact Hd0|]. split; [exact Hd3|].
      apply Z.eqb_eq in Hz.
      destruct (survivors p gx gy keys0); [|simpl in Hz; lia].
      apply wrote_nil_eq in W2. destruct W2 as [Hk2 Hc2].
      eapply wrote_ext; [| |exact W4]; congruence.
    + unfold dret. intros H. injection H as <-.
      exists keys0, keys0. rewrite Hz. split; [exact Hd0|]. split; [reflexivity|].
      eapply wrote_ext; [| |exact W2]; congruence.
  - destruct (Z.of_nat (length keys0) =? 0) eqn:Hz.
    + unfold dbind.
      destruct (fastOps p gx gy (min_threshold p) st1) as [[keys st3]|] eqn:H3; [|discriminate].
      apply fastOps_spec in H3. destruct H3 as (Hd3 & Hk3 & Hc3 & Hf3).
      intros H. apply write_raw_spec in H; [|eapply buffer_ok_ext; eauto].
      destruct H as (W & Hok').
      exists keys0, keys. rewrite Hz. split; [exact Hd0|]. split; [exact Hd3|].
      eapply wrote_ext; [| |exact W]; congruence.
    + unfold dbind, dret.
      intros H. apply write_raw_spec in H; [|exact Hok1].
      destruct H as (W & Hok').
      exists keys0, keys0. rewrite Hz. split; [exact Hd0|]. split; [reflexivity|].
      eapply wrote_ext; [| |exact W]; congruence.
Qed.

(** what one work-group writes *)
Lemma fastExt_group_writes p gx gy st st' :
  buffer_ok st ->
  fastExt_group p gx gy st = Some (tt, st') ->
  exists keys,
    (detect p gx gy (ini_threshold p) = Some keys
     \/ detect p gx gy (min_threshold p) = Some keys) /\
    wrote st st' (written p gx gy keys)
      (fun key old =>
         if nms_required p then store_nms p (fst key) (snd key) (key_score p key) old
         else store_raw p (fst key) (snd key) old).
Proof.
  intros Hok. unfold fastExt_group, written.
  unfold dbind at 1.
  destruct (fastOps p gx gy (ini_threshold p) st) as [[keys0 st1]|] eqn:H1; [|discriminate].
  apply fastOps_spec in H1. destruct H1 as (Hd0 & Hk1 & Hc1 & Hf1).
  assert (Hok1 : buffer_ok st1) by (eapply buffer_ok_ext; eauto).
  destruct (nms_required p).
  - unfold dbind at 1.
    destruct (nmsOps p gx gy keys0 st1) as [[n st2]|] eqn:H2; [|discriminate].
    pose proof (nmsOps_count _ _ _ _ _ _ _ H2) as (-> & _).
    apply nmsOps_spec in H2; [|exact Hok1]. destruct H2 as (W2 & Hok2).
    destruct (Z.of_nat (length (survivors p gx gy keys0)) =? 0) eqn:Hz.
    + unfold dbind at 1.
      destruct (fastOps p gx gy (min_threshold p) st2) as [[keys st3]|] eqn:H3; [|discriminate].
      apply fastOps_spec in H3. destruct H3 as (Hd3 & Hk3 & Hc3 & Hf3).
      unfold dbind, dret.
      destruct (nmsOps p gx gy keys st3) as [[n st4]|] eqn:H4; [|discriminate].
      intros H. injection H as <-.
      apply nmsOps_spec in H4; [|eapply buffer_ok_ext; eauto].
      destruct H4 as (W4 & Hok4).
      exists keys. split; [right; exact Hd3|].
      apply Z.eqb_eq in Hz.
      destruct (survivors p gx gy keys0); [|simpl in Hz; lia].
      apply wrote_nil_eq in W2. destruct W2 as [Hk2 Hc2].
      eapply wrote_ext; [| |exact W4]; congruence.
    + unfold dret. intros H. injection H as <-.
      exists keys0. split; [left; exact Hd0|].
      eapply wrote_ext; [| |exact W2]; congruence.
  - destruct (Z.of_nat (length keys0) =? 0) eqn:Hz.
    + unfold dbind.
      destruct (fastOps p gx gy (min_threshold p) st1) as [[keys st3]|] eqn:H3; [|discriminate].
      apply fastOps_spec in H3. destruct H3 as (Hd3 & Hk3 & Hc3 & Hf3).
      intros H. apply write_raw_spec in H; [|eapply buffer_ok_ext; eauto].
      destruct H as (W & Hok').
      exists keys. split; [right; exact Hd3|].
      eapply wrote_ext; [| |exact W]; congruence.
    + unfold dbind, dret.
      intros H. apply write_raw_spec in H; [|exact Hok1].
      destruct H as (W & Hok').
      exists keys0. split; [left; exact Hd0|].
      eapply wrote_ext; [| |exact W]; congruence.
Qed.

End KernelFacts.
End KernelFacts.

(** C3.  A work-group runs the detection phase at [ini_threshold].  It
    runs it again, at [min_threshold], exactly when the count of the first
    pass (survivors of the suppression when NMS is on, raw candidates when
    it is off) is zero, and there is no third pass.  When the count is not
    zero the keypoints it leaves are those of the first pass.  When it is
    zero they are those of the second pass: the candidates found at
    [min_threshold], suppressed again when NMS is on, are written to the
    slots from the counter on. *)
Theorem threshold_escalation {FO : FloatOps} (p : FastKernelParams) (gx gy : Z)
    (st st' : device_state) :
  Notions.buffer_ok st ->
  Kernel.run_group p gx gy st = Some (tt, st') ->
  exists keys0,
    CornerDetector.detect p gx gy (ini_threshold p) = Some keys0 /\
    fast_calls st'
    = ini_threshold p
        :: (if Notions.tile_count p gx gy keys0 =? 0 then [min_threshold p] else []) /\
    (length (fast_calls st') = 2%nat <-> Notions.tile_count p gx gy keys0 = 0) /\
    (length (fast_calls st') <= 2)%nat /\
    (Notions.tile_count p gx gy keys0 <> 0 ->
     Notions.wrote st st' (Notions.written p gx gy keys0) (Notions.stored p)) /\
    (Notions.tile_count p gx gy keys0 = 0 ->
     exists keys1,
       CornerDetector.detect p gx gy (min_threshold p) = Some keys1 /\
       Notions.wrote st st' (Notions.written p gx gy keys1) (Notions.stored p)).
Proof.
  intros Hok. unfold Kernel.run_group. intros H.
  pose proof (KernelFacts.fastExt_group_calls _ _ _ _ _ H) as (keys0 & Hd & Hf).
  apply KernelFacts.fastExt_group_passes in H; [|exact Hok].
  destruct H as (keys0' & keys & Hd' & Hlast & W).
  assert (keys0' = keys0) by congruence. subst keys0'.
  cbn [fast_calls app] in Hf.
  assert (W' : Notions.wrote st st' (Notions.written p gx gy keys) (Notions.stored p)).
  { destruct W as [W1 W2 W3 W4]. split; assumption. }
  exists keys0. split; [exact Hd|]. split; [exact Hf|].
  rewrite Hf. destruct (Z.eqb_spec (Notions.tile_count p gx gy keys0) 0) as [E|E]; simpl.
  - split; [tauto|]. split; [lia|]. split; [intros E'; contradiction|].
    intros _. exists keys. split; [exact Hlast | exact W'].
  - split; [split; [discriminate | intros; contradiction]|]. split; [lia|].
    split; [|intros E'; contradiction].
    intros _. subst keys. exact W'.
Qed.

Lemma threshold_escalation_witness :
  exists keys0,
    CornerDetector.detect (faint_corner_params true) 0 0 20 = Some keys0 /\
    fast_calls (final_state faint_nms)
    = 20 :: (if Notions.tile_count (faint_corner_params true) 0 0 keys0 =? 0 then [7] else []) /\
    (length (fast_calls (final_state faint_nms)) = 2%nat
     <-> Notions.tile_count (faint_corner_params true) 0 0 keys0 = 0) /\
    (length (fast_calls (final_state faint_nms)) <= 2)%nat /\
    (Notions.tile_count (faint_corner_params true) 0 0 keys0 <> 0 ->
     Notions.wrote stale_state (final_state faint_nms)
       (Notions.written (faint_corner_params true) 0 0 keys0)
       (Notions.stored (faint_corner_params true))) /\
    (Notions.tile_count (faint_corner_params true) 0 0 keys0 = 0 ->
     exists keys1,
       CornerDetector.detect (faint_corner_params true) 0 0 7 = Some keys1 /\
       Notions.wrote stale_state (final_state faint_nms)
         (Notions.written (faint_corner_params true) 0 0 keys1)
         (Notions.stored (faint_corner_params true))).
Proof.
  apply (threshold_escalation (faint_corner_params true) 0 0 stale_state
           (final_state faint_nms)).
  - unfold Notions.buffer_ok. simpl. lia.
  - reflexivity.
Defined.


Lemma stale_state_ok : Notions.buffer_ok stale_state.
Proof. unfold Notions.buffer_ok. simpl. lia. Qed.


(** ** The check of the clipped region *)

(** X6.  As long as [edge_clip] does not exceed the image, [getGlobalRange]
    throws exactly when the clipped interior is empty on one axis. *)
Lemma getGlobalRange_throws_iff (p : FastKernelParams) :
  0 <= edge_clip p <= image_cols p -> image_cols p < 2 ^ 32 ->
  edge_clip p <= image_rows p -> image_rows p < 2 ^ 32 ->
  (TilePartitioner.getGlobalRange p = Throw TilePartitioner.unsupported_scale_factor
   <-> image_cols p < 2 * edge_clip p \/ image_rows p < 2 * edge_clip p).
Proof.
  intros Hc Hc' Hr Hr'. unfold TilePartitioner.getGlobalRange. cbv zeta.
  rewrite !u32_small by lia.
  destruct (Z.gtb_spec (edge_clip p) (image_cols p - edge_clip p));
    destruct (Z.gtb_spec (edge_clip p) (image_rows p - edge_clip p)); simpl;
    split; intros H'; try reflexivity; try discriminate; lia.
Qed.

Lemma getGlobalRange_throws_iff_witness :
  TilePartitioner.getGlobalRange (partition_params 848 480) = Throw TilePartitioner.unsupported_scale_factor
  <-> 848 < 2 * 19 \/ 480 < 2 * 19.
Proof.
  apply (getGlobalRange_throws_iff (partition_params 848 480)); simpl; lia.
Defined.

(** X7.  When [edge_clip] exceeds both dimensions of the image, the
    unsigned subtractions of [getGlobalRange] wrap and nothing is thrown,
    although the clipped interior is empty. *)
Lemma getGlobalRange_wraps (p : FastKernelParams) :
  image_cols p < edge_clip p -> image_rows p < edge_clip p ->
  0 <= image_cols p -> 0 <= image_rows p -> 2 * edge_clip p <= 2 ^ 32 ->
  exists range, TilePartitioner.getGlobalRange p = Ok range.
Proof.
  intros Hc Hr Hc0 Hr0 He. unfold TilePartitioner.getGlobalRange. cbv zeta.
  assert (Hx : u32 (image_cols p - edge_clip p) = image_cols p - edge_clip p + 2 ^ 32).
  { unfold u32. symmetry. apply (Z.mod_unique _ _ (-1)); lia. }
  assert (Hy : u32 (image_rows p - edge_clip p) = image_rows p - edge_clip p + 2 ^ 32).
  { unfold u32. symmetry. apply (Z.mod_unique _ _ (-1)); lia. }
  rewrite Hx, Hy.
  destruct (Z.gtb_spec (edge_clip p) (image_cols p - edge_clip p + 2 ^ 32)); [lia|].
  destruct (Z.gtb_spec (edge_clip p) (image_rows p - edge_clip p + 2 ^ 32)); [lia|].
  simpl. eauto.
Qed.

Lemma getGlobalRange_wraps_witness :
  exists range, TilePartitioner.getGlobalRange clip_beyond_params = Ok range.
Proof.
  apply (getGlobalRange_wraps clip_beyond_params); simpl; lia.
Defined.

(** C6 (the code at the failing input).  For a 10x10 image and
    [edge_clip = 20] the clipped interior is empty on both axes, yet
    [getGlobalRange] returns a range and [fastExtImpl] submits the kernel. *)
Theorem degenerate_region_not_rejected :
  2 * edge_clip clip_beyond_params > image_cols clip_beyond_params /\
  2 * edge_clip clip_beyond_params > image_rows clip_beyond_params /\
  TilePartitioner.getGlobalRange clip_beyond_params = Ok (64, 8) /\
  exists after,
    Kernel.fastExtImpl 0 clip_beyond_args = Done (Ok (Kernel.Submitted (64, 8) (64, 8) after)).
Proof.
  split; [reflexivity|]. split; [reflexivity|]. split; [reflexivity|].
  eexists. reflexivity.
Qed.

(** ** Orientation and descriptor kernel *)

Module DescriptorFacts.
Section DescriptorFacts.
Context {FO : FloatOps}.
Import Descriptor DescriptorNotions.

Lemma GET_VALUE_sample p center pat cosa sina idx k :
  pat + idx * 2 = 2 * k ->
  GET_VALUE p center pat cosa sina idx = rotated_sample p center cosa sina k.
Proof.
  intros H. unfold GET_VALUE, rotated_sample. cbv zeta.
  replace (pat + (idx * 2 + 1)) with (2 * k + 1) by lia. rewrite H. reflexivity.
Qed.

Lemma pack8_bits c0 c1 c2 c3 c4 c5 c6 c7 :
  let v := u8 (pack8 c0 c1 c2 c3 c4 c5 c6 c7) in
  Z.testbit v 0 = c0 /\ Z.testbit v 1 = c1 /\ Z.testbit v 2 = c2 /\ Z.testbit v 3 = c3 /\
  Z.testbit v 4 = c4 /\ Z.testbit v 5 = c5 /\ Z.testbit v 6 = c6 /\ Z.testbit v 7 = c7.
Proof.
  destruct c0, c1, c2, c3, c4, c5, c6, c7; vm_compute; repeat split.
Qed.

Lemma descriptor_byte_pack p center pat cosa sina :
  descriptor_byte p center pat cosa sina
  = let get := GET_VALUE p center pat cosa sina in
    pack8 (get 0 <? get 1) (get 2 <? get 3) (get 4 <? get 5) (get 6 <? get 7)
          (get 8 <? get 9) (get 10 <? get 11) (get 12 <? get 13) (get 14 <? get 15).
Proof. reflexivity. Qed.

Lemma descriptor_byte_bit p center cosa sina i b :
  0 <= b < 8 ->
  Z.testbit (u8 (descriptor_byte p center (32 * i) cosa sina)) b
  = pair_bit p center cosa sina (8 * i + b).
Proof.
  intros Hb. rewrite descriptor_byte_pack. cbv zeta.
  match goal with
  | |- Z.testbit (u8 (pack8 ?c0 ?c1 ?c2 ?c3 ?c4 ?c5 ?c6 ?c7)) _ = _ =>
      destruct (pack8_bits c0 c1 c2 c3 c4 c5 c6 c7)
        as (H0 & H1 & H2 & H3 & H4 & H5 & H6 & H7)
  end.
  unfold pair_bit.
  assert (Hc : b = 0 \/ b = 1 \/ b = 2 \/ b = 3 \/ b = 4 \/ b = 5 \/ b = 6 \/ b = 7) by lia.
  destruct Hc as [->|[->|[->|[->|[->|[->|[->| ->]]]]]]];
    [rewrite H0 | rewrite H1 | rewrite H2 | rewrite H3
     | rewrite H4 | rewrite H5 | rewrite H6 | rewrite H7];
    f_equal; apply GET_VALUE_sample; lia.
Qed.

Lemma byte_loop_from p center desc cosa sina : forall (n : nat) m pat ds,
  0 <= desc + m -> desc + m + Z.of_nat n <= Z.of_nat (length ds) ->
  let r := fold_left
    (fun (acc : Z * list Z) i =>
       let val := descriptor_byte p center (fst acc) cosa sina in
       (fst acc + 16 * 2, <[Z.to_nat (desc + i) := u8 val]> (snd acc)))
    (seqZ m (Z.of_nat n)) (pat, ds) in
  length (snd r) = length ds /\
  (forall j : nat, Z.of_nat j < desc + m \/ desc + m + Z.of_nat n <= Z.of_nat j ->
                   snd r !! j = ds !! j) /\
  (forall i, m <= i < m + Z.of_nat n ->
     snd r !! Z.to_nat (desc + i)
     = Some (u8 (descriptor_byte p center (pat + 32 * (i - m)) cosa sina))).
Proof.
  induction n as [|n IH]; intros m pat ds Hm Hlen.
  - simpl. repeat split; auto. intros i Hi. lia.
  - rewrite seqZ_cons by lia. cbn [fold_left fst snd].
    replace (Z.pred (Z.of_nat (S n))) with (Z.of_nat n) by lia.
    replace (Z.succ m) with (m + 1) by lia.
    specialize (IH (m + 1) (pat + 16 * 2)
                  (<[Z.to_nat (desc + m) := u8 (descriptor_byte p center pat cosa sina)]> ds)).
    rewrite length_insert in IH.
    destruct IH as (L & F & C); [lia | lia |].
    cbv zeta. split; [exact L|]. split.
    + intros j Hj. rewrite F by lia. apply list_lookup_insert_ne. lia.
    + intros i Hi. destruct (Z.eq_dec i m) as [->|Hne].
      * rewrite F by lia. rewrite list_lookup_insert_eq by lia.
        do 3 f_equal. lia.
      * rewrite C by lia. do 3 f_equal. lia.
Qed.

Lemma byte_loop_spec p center desc cosa sina ds :
  0 <= desc -> desc + DESCRIPTOR_SIZE <= Z.of_nat (length ds) ->
  let r := snd (byte_loop p center desc cosa sina ds) in
  length r = length ds /\
  (forall j : nat, Z.of_nat j < desc \/ desc + DESCRIPTOR_SIZE <= Z.of_nat j ->
                   r !! j = ds !! j) /\
  (forall i, 0 <= i < DESCRIPTOR_SIZE ->
     r !! Z.to_nat (desc + i) = Some (u8 (descriptor_byte p center (32 * i) cosa sina))).
Proof.
  intros Hd Hl. unfold byte_loop, DESCRIPTOR_SIZE in *.
  pose proof (byte_loop_from p center desc cosa sina 32 0 0 ds) as H.
  change (Z.of_nat 32) with 32 in H.
  destruct H as (L & F & C); [lia | lia |].
  cbv zeta. split; [exact L|]. split.
  - intros j Hj. apply F. lia.
  - intros i Hi. rewrite C by lia. do 3 f_equal. lia.
Qed.

Lemma orb_item_padding p idx st :
  num_keypoints p <= idx -> orb_item p idx st = Some st.
Proof.
  intros H. unfold orb_item, orientationOps, descriptorOps.
  destruct (Z.ltb_spec idx (num_keypoints p)); [lia|]. reflexivity.
Qed.

Lemma Some_eq_inv {A} (x y : A) : Some x = Some y -> x = y.
Proof. intros H. injection H. auto. Qed.

Lemma orb_item_effect p idx st st' :
  0 <= idx < num_keypoints p ->
  orb_item p idx st = Some st' ->
  exists kpt,
    keypoints_ptr st !! Z.to_nat idx = Some kpt /\
    keypoints_ptr st' = <[Z.to_nat idx := oriented p kpt]> (keypoints_ptr st) /\
    idx * DESCRIPTOR_SIZE + DESCRIPTOR_SIZE <= Z.of_nat (length (descriptors_ptr st)) /\
    descriptors_ptr st'
    = snd (byte_loop p (key_center p (oriented p kpt)) (idx * DESCRIPTOR_SIZE)
             (key_cos (oriented p kpt)) (key_sin (oriented p kpt)) (descriptors_ptr st)).
Proof.
  intros Hi. unfold orb_item, orientationOps, descriptorOps.
  destruct (Z.ltb_spec idx (num_keypoints p)); [|lia].
  destruct (keypoints_ptr st !! Z.to_nat idx) as [kpt|] eqn:Hk; [|discriminate].
  cbn [keypoints_ptr descriptors_ptr].
  rewrite list_lookup_insert_eq by (eapply lookup_lt_Some; eauto).
  fold (oriented p kpt).
  destruct (fits_int (idx * DESCRIPTOR_SIZE)); [|discriminate]. cbn [andb].
  destruct (Z.leb_spec 0 (idx * DESCRIPTOR_SIZE)); [|discriminate]. cbn [andb].
  destruct (Z.leb_spec (idx * DESCRIPTOR_SIZE + DESCRIPTOR_SIZE)
              (Z.of_nat (length (descriptors_ptr st)))); [|discriminate].
  intros Heq. apply Some_eq_inv in Heq. subst st'. exists kpt.
  cbn [keypoints_ptr descriptors_ptr].
  split; [reflexivity|]. split; [reflexivity|]. split; [assumption|]. reflexivity.
Qed.

(** a work-item that writes a descriptor has computed its position in [int] *)
Lemma orb_item_fits p idx st st' :
  0 <= idx < num_keypoints p ->
  orb_item p idx st = Some st' -> idx * DESCRIPTOR_SIZE <= INT_MAX.
Proof.
  intros Hi. unfold orb_item, orientationOps, descriptorOps.
  destruct (Z.ltb_spec idx (num_keypoints p)); [|lia].
  destruct (keypoints_ptr st !! Z.to_nat idx) as [kpt|] eqn:Hk; [|discriminate].
  cbn [keypoints_ptr descriptors_ptr].
  rewrite list_lookup_insert_eq by (eapply lookup_lt_Some; eauto).
  destruct (fits_int (idx * DESCRIPTOR_SIZE)) eqn:Hf; [|discriminate].
  intros _. unfold fits_int in Hf. apply andb_prop in Hf. destruct Hf as [_ Hf].
  apply Z.leb_le in Hf. exact Hf.
Qed.

(** effect of one work-item on the record and the bytes of another index *)
Lemma orb_item_other p idx' idx st st' :
  0 <= idx' -> 0 <= idx -> idx' <> idx ->
  orb_item p idx' st = Some st' ->
  length (keypoints_ptr st') = length (keypoints_ptr st) /\
  length (descriptors_ptr st') = length (descriptors_ptr st) /\
  keypoints_ptr st' !! Z.to_nat idx = keypoints_ptr st !! Z.to_nat idx /\
  (forall j : nat, idx * DESCRIPTOR_SIZE <= Z.of_nat j < idx * DESCRIPTOR_SIZE + DESCRIPTOR_SIZE ->
     descriptors_ptr st' !! j = descriptors_ptr st !! j).
Proof.
  intros H0 H1 Hne Hrun.
  destruct (Z_lt_le_dec idx' (num_keypoints p)) as [Hlt|Hge].
  - apply orb_item_effect in Hrun; [|lia].
    destruct Hrun as (kpt & Hk & Hkp & Hlen & Hd).
    destruct (byte_loop_spec p (key_center p (oriented p kpt)) (idx' * DESCRIPTOR_SIZE)
                (key_cos (oriented p kpt)) (key_sin (oriented p kpt)) (descriptors_ptr st))
      as (L & F & _); [unfold DESCRIPTOR_SIZE; lia | exact Hlen |].
    rewrite Hkp, Hd, length_insert. repeat split; auto.
    + apply list_lookup_insert_ne. lia.
    + intros j Hj. apply F. unfold DESCRIPTOR_SIZE in *. lia.
  - rewrite orb_item_padding in Hrun by exact Hge. injection Hrun as <-. auto.
Qed.

Lemma run_items_other p idx : forall ids st st',
  0 <= idx -> Forall (fun i => 0 <= i /\ i <> idx) ids ->
  run_items p ids st = Some st' ->
  length (keypoints_ptr st') = length (keypoints_ptr st) /\
  length (descriptors_ptr st') = length (descriptors_ptr st) /\
  keypoints_ptr st' !! Z.to_nat idx = keypoints_ptr st !! Z.to_nat idx /\
  (forall j : nat, idx * DESCRIPTOR_SIZE <= Z.of_nat j < idx * DESCRIPTOR_SIZE + DESCRIPTOR_SIZE ->
     descriptors_ptr st' !! j = descriptors_ptr st !! j).
Proof.
  induction ids as [|i ids IH]; intros st st' H0 Hall; simpl.
  - intros H. injection H as <-. auto.
  - apply Forall_cons in Hall. destruct Hall as [[Hi Hne] Hall].
    destruct (orb_item p i st) as [st1|] eqn:H1; [|discriminate].
    intros H. apply IH in H; auto.
    apply (orb_item_other p i idx) in H1; auto.
    destruct H as (A1 & A2 & A3 & A4), H1 as (B1 & B2 & B3 & B4).
    repeat split; try congruence.
    intros j Hj. rewrite A4, B4; auto.
Qed.

Lemma run_items_app p l1 : forall l2 st,
  run_items p (l1 ++ l2) st
  = match run_items p l1 st with Some s => run_items p l2 s | None => None end.
Proof.
  induction l1 as [|i l1 IH]; intros l2 st; simpl; [reflexivity|].
  destruct (orb_item p i st); [apply IH | reflexivity].
Qed.

Lemma aligned_width_ge n : n <= aligned_width n.
Proof.
  unfold aligned_width.
  pose proof (Z.mul_succ_div_gt (n + 16 - 1) 16). lia.
Qed.

(** the state of keypoint [idx] and its 32 bytes when the kernel is done *)
Lemma orb_kernel_at p st st' idx :
  0 <= idx < num_keypoints p ->
  orb_kernel p st = Some st' ->
  exists kpt,
    keypoints_ptr st !! Z.to_nat idx = Some kpt /\
    keypoints_ptr st' !! Z.to_nat idx = Some (oriented p kpt) /\
    forall i, 0 <= i < DESCRIPTOR_SIZE ->
      descriptors_ptr st' !! Z.to_nat (idx * DESCRIPTOR_SIZE + i)
      = Some (u8 (descriptor_byte p (key_center p (oriented p kpt)) (32 * i)
                    (key_cos (oriented p kpt)) (key_sin (oriented p kpt)))).
Proof.
  intros Hi. unfold orb_kernel.
  pose proof (aligned_width_ge (num_keypoints p)) as Hw.
  replace (aligned_width (num_keypoints p))
    with (idx + (aligned_width (num_keypoints p) - idx)) by lia.
  rewrite seqZ_app by lia.
  rewrite (seqZ_cons (0 + idx)) by lia.
  rewrite run_items_app.
  destruct (run_items p (seqZ 0 idx) st) as [s1|] eqn:H1; [|discriminate].
  simpl run_items.
  destruct (orb_item p (0 + idx) s1) as [s2|] eqn:H2; [|discriminate].
  intros H3. rewrite Z.add_0_l in H2.
  apply (run_items_other p idx) in H1; [|lia|].
  2:{ apply Forall_forall. intros x Hx. apply elem_of_seqZ in Hx. lia. }
  apply (run_items_other p idx) in H3; [|lia|].
  2:{ apply Forall_forall. intros x Hx. apply elem_of_seqZ in Hx. lia. }
  apply orb_item_effect in H2; [|lia].
  destruct H1 as (A1 & A2 & A3 & A4), H3 as (C1 & C2 & C3 & C4).
  destruct H2 as (kpt & Hk & Hkp & Hlen & Hd).
  exists kpt. split; [congruence|]. split.
  - rewrite C3, Hkp. apply list_lookup_insert_eq. eapply lookup_lt_Some; eauto.
  - intros i Hi'.
    destruct (byte_loop_spec p (key_center p (oriented p kpt)) (idx * DESCRIPTOR_SIZE)
                (key_cos (oriented p kpt)) (key_sin (oriented p kpt)) (descriptors_ptr s1))
      as (L & F & C); [unfold DESCRIPTOR_SIZE; lia | exact Hlen |].
    rewrite C4 by (unfold DESCRIPTOR_SIZE in *; lia).
    rewrite Hd. apply C. exact Hi'.
Qed.

Lemma frame_refl p st : frame p st st.
Proof. split; auto. intros i k H. exists k. auto. Qed.

Lemma frame_trans p st1 st2 st3 : frame p st1 st2 -> frame p st2 st3 -> frame p st1 st3.
Proof.
  intros [A1 A2 A3 A4 A5] [B1 B2 B3 B4 B5]. split; try congruence.
  - intros i k Hk. destruct (A3 i k Hk) as (k' & Hk' & E1 & E2 & E3).
    destruct (B3 i k' Hk') as (k'' & Hk'' & F1 & F2 & F3).
    exists k''. repeat split; congruence.
  - intros i Hi. rewrite B4, A4; auto.
  - intros j Hj. rewrite B5, A5; auto.
Qed.

Lemma orb_item_frame p idx st st' :
  0 <= idx -> orb_item p idx st = Some st' -> frame p st st'.
Proof.
  intros H0 Hrun.
  destruct (Z_lt_le_dec idx (num_keypoints p)) as [Hlt|Hge].
  - apply orb_item_effect in Hrun; [|lia].
    destruct Hrun as (kpt & Hk & Hkp & Hlen & Hd).
    destruct (byte_loop_spec p (key_center p (oriented p kpt)) (idx * DESCRIPTOR_SIZE)
                (key_cos (oriented p kpt)) (key_sin (oriented p kpt)) (descriptors_ptr st))
      as (L & F & _); [unfold DESCRIPTOR_SIZE; lia | exact Hlen |].
    split.
    + rewrite Hkp. apply length_insert.
    + rewrite Hd. exact L.
    + intros i k Hik. rewrite Hkp.
      destruct (Nat.eq_dec i (Z.to_nat idx)) as [->|Hne].
      * rewrite list_lookup_insert_eq by (eapply lookup_lt_Some; eauto).
        exists (oriented p kpt). rewrite Hk in Hik. injection Hik as <-. auto.
      * rewrite list_lookup_insert_ne by auto. exists k. auto.
    + intros i Hi. rewrite Hkp. apply list_lookup_insert_ne. lia.
    + intros j Hj. rewrite Hd. apply F. unfold DESCRIPTOR_SIZE in *. lia.
  - rewrite orb_item_padding in Hrun by exact Hge. injection Hrun as <-. apply frame_refl.
Qed.

Lemma run_items_frame p : forall ids st st',
  Forall (fun i => 0 <= i) ids -> run_items p ids st = Some st' -> frame p st st'.
Proof.
  induction ids as [|i ids IH]; intros st st' Hall; simpl.
  - intros H. injection H as <-. apply frame_refl.
  - apply Forall_cons in Hall. destruct Hall as [Hi Hall].
    destruct (orb_item p i st) as [st1|] eqn:H1; [|discriminate].
    intros H. eapply frame_trans; [eapply orb_item_frame; eauto | eapply IH; eauto].
Qed.

End DescriptorFacts.
End DescriptorFacts.


(** C10.  When the second kernel has run over its padded range, all that
    differs from before is the angle of the first [num_keypoints] keypoint
    records and the first [32 * num_keypoints] descriptor bytes: the buffers
    keep their sizes, every record keeps its x, y and response, the records
    and bytes beyond are what they were; and a work-item whose global index
    is [num_keypoints] or more leaves any state as it found it. *)
Theorem padding_items_write_nothing {FO : FloatOps}
    (p : Descriptor.OrbDescriptorKernelParams) (st st' : Descriptor.orb_state) :
  Descriptor.orb_kernel p st = Some st' ->
  DescriptorNotions.frame p st st' /\
  (forall idx st0, Descriptor.num_keypoints p <= idx -> Descriptor.orb_item p idx st0 = Some st0).
Proof.
  intros H. split.
  - eapply DescriptorFacts.run_items_frame; [|exact H].
    apply Forall_forall. intros x Hx. apply elem_of_seqZ in Hx. lia.
  - intros idx st0 Hi. apply DescriptorFacts.orb_item_padding. exact Hi.
Qed.

Lemma padding_items_write_nothing_witness :
  DescriptorNotions.frame orb_example_params orb_example_state orb_example_after /\
  (forall idx st0, Descriptor.num_keypoints orb_example_params <= idx ->
                   Descriptor.orb_item orb_example_params idx st0 = Some st0).
Proof.
  apply (padding_items_write_nothing orb_example_params orb_example_state orb_example_after).
  reflexivity.
Defined.

(** C8.  When the second kernel is done, byte [i] (0 <= i < 32) of the
    descriptor of keypoint [idx] has bit [b] (0 <= b < 8) set exactly when
    the intensity at the first offset of pattern pair [8 i + b], rotated by
    the keypoint's cosine and sine and rounded, is strictly less than the
    intensity at the second offset of that pair, rotated and rounded alike;
    the byte sits at position [32 idx + i] and has no bit beyond the eighth. *)
Theorem descriptor_bit_encoding {FO : FloatOps}
    (p : Descriptor.OrbDescriptorKernelParams) (st st' : Descriptor.orb_state) (idx : Z) :
  Descriptor.orb_kernel p st = Some st' ->
  0 <= idx < Descriptor.num_keypoints p ->
  exists kpt,
    Descriptor.keypoints_ptr st' !! Z.to_nat idx = Some kpt /\
    forall i, 0 <= i < 32 ->
      exists byte,
        Descriptor.descriptors_ptr st' !! Z.to_nat (idx * 32 + i) = Some byte /\
        0 <= byte < 256 /\
        forall b, 0 <= b < 8 ->
          Z.testbit byte b
          = DescriptorNotions.pair_bit p (DescriptorNotions.key_center p kpt)
              (DescriptorNotions.key_cos kpt) (DescriptorNotions.key_sin kpt) (8 * i + b).
Proof.
  intros H Hi.
  destruct (DescriptorFacts.orb_kernel_at p st st' idx Hi H) as (kpt & Hk & Hk' & Hb).
  exists (DescriptorNotions.oriented p kpt). split; [exact Hk'|].
  intros i Hi'. eexists. split; [apply Hb; exact Hi'|]. split.
  - unfold u8. apply Z.mod_pos_bound. lia.
  - intros b Hb'. apply DescriptorFacts.descriptor_byte_bit. exact Hb'.
Qed.

Lemma descriptor_bit_encoding_witness :
  exists kpt,
    Descriptor.keypoints_ptr orb_example_after !! Z.to_nat 0 = Some kpt /\
    forall i, 0 <= i < 32 ->
      exists byte,
        Descriptor.descriptors_ptr orb_example_after !! Z.to_nat (0 * 32 + i) = Some byte /\
        0 <= byte < 256 /\
        forall b, 0 <= b < 8 ->
          Z.testbit byte b
          = DescriptorNotions.pair_bit orb_example_params
              (DescriptorNotions.key_center orb_example_params kpt)
              (DescriptorNotions.key_cos kpt) (DescriptorNotions.key_sin kpt) (8 * i + b).
Proof.
  apply (descriptor_bit_encoding orb_example_params orb_example_state orb_example_after 0).
  - reflexivity.
  - simpl. lia.
Defined.

(** ** The tile tables *)

Module PartitionerFacts.
Import TilePartitioner.

Section ColumnLoop.
Variable p : FastKernelParams.
Variable mono : Z.
Local Abbreviation c := (cell_size p).
Local Abbreviation e := (edge_clip p).
Local Abbreviation o := (overlap p).
Local Abbreviation W := (image_cols p).
Local Abbreviation col_inv := (PartitionerNotions.col_inv p mono).
Local Abbreviation next_min := (PartitionerNotions.next_min p mono).
Local Abbreviation clamp_max := (PartitionerNotions.clamp_max p).
Local Abbreviation tile_state := (PartitionerNotions.tile_state p mono).
Local Abbreviation wrap_state := (PartitionerNotions.wrap_state mono).
Local Abbreviation has_room := (PartitionerNotions.has_room p).
Local Abbreviation first_flag := PartitionerNotions.first_flag.
Local Abbreviation col_measure := (PartitionerNotions.col_measure p mono).
Local Abbreviation ordered_inv := PartitionerNotions.ordered_inv.
Local Abbreviation tile_ok := (PartitionerNotions.tile_ok p).
Local Abbreviation covers := PartitionerNotions.covers.
Local Abbreviation single_inv := (PartitionerNotions.single_inv p).

Hypothesis Hc : 1 <= c.
Hypothesis Hmono : 1 <= mono <= W.
Hypothesis He : 0 <= e <= W.
Hypothesis Ho : 0 <= o.
Hypothesis Hsmall : 4 * W + 2 * c + o < 2 ^ 31.

Lemma next_min_range s : col_inv s -> 0 <= next_min s <= W + c + e /\
  (1 <= blk_idx s -> next_min s = min_x s + c).
Proof.
  intros [I1 I2 I3 I4 I5 I6 I7 I8 I9]. unfold PartitionerNotions.next_min.
  destruct (Z_lt_le_dec (blk_idx s) 1) as [Hb|Hb].
  - assert (blk_idx s = 0) by lia. rewrite H. split; [nia | lia].
  - specialize (I5 Hb). split; [nia | nia].
Qed.

Lemma blk_bound s : col_inv s -> blk_idx s <= W + 1.
Proof.
  intros [I1 I2 I3 I4 I5 I6 I7 I8 I9].
  destruct (Z_lt_le_dec (blk_idx s) 1) as [Hb|Hb]; [lia|].
  specialize (I5 Hb). nia.
Qed.

Lemma u32_wrap z : - 2 ^ 32 <= z < 0 -> u32 z = z + 2 ^ 32.
Proof. intros H. unfold u32. symmetry. apply (Z.mod_unique _ _ (-1)); lia. Qed.

Lemma fits_int_true z : - 2 ^ 31 <= z < 2 ^ 31 -> fits_int z = true.
Proof.
  intros H. unfold fits_int, INT_MAX.
  destruct (Z.leb_spec (- 2 ^ 31) z); destruct (Z.leb_spec z (2 ^ 31 - 1)); simpl; lia.
Qed.

Lemma has_room_dec s : {has_room s} + {e <= current_width s /\ current_width s - e <= min_x s + c}.
Proof.
  unfold PartitionerNotions.has_room.
  destruct (Z_lt_le_dec (current_width s) e); [left; lia|].
  destruct (Z_lt_le_dec (min_x s + c) (current_width s - e)); [left; lia | right; lia].
Qed.

Lemma width_pos s : col_inv s -> 1 <= current_width s.
Proof. intros [I1 I2 I3 I4 I5 I6 I7 I8 I9]. rewrite I3. nia. Qed.

Lemma col_step_tile s :
  col_inv s -> has_room s ->
  col_step p mono W s
  = if next_min s >? W - e
    then Break (removelast (group_x (tile_state s)))
    else Continue (tile_state s).
Proof.
  intros I Hroom. pose proof (next_min_range s I) as [Hv _].
  pose proof (blk_bound s I) as Hb. pose proof (width_pos s I) as Hw.
  destruct I as [I1 I2 I3 I4 I5 I6 I7 I8 I9].
  unfold col_step.
  rewrite (u32_small (min_x s + c)) by lia.
  assert (Hcond : (min_x s + c <? u32 (current_width s - e)) = true).
  { apply Z.ltb_lt. destruct Hroom as [Hr|Hr].
    - rewrite u32_wrap by lia. lia.
    - rewrite u32_small by lia. lia. }
  rewrite Hcond.
  rewrite (fits_int_true (blk_idx s + 1)) by lia.
  rewrite (fits_int_true (mono * image_count s)) by nia.
  cbn [negb orb]. cbv zeta.
  fold (next_min s).
  rewrite ?(u32_small (next_min s)) by lia.
  rewrite ?(i32_small (next_min s)) by lia.
  rewrite ?(u32_small (next_min s)) by lia.
  rewrite ?(u32_small (next_min s + c + o)) by lia.
  rewrite ?(i32_small (next_min s + c + o)) by lia.
  rewrite ?(u32_small (next_min s + c + o)) by lia.
  rewrite (u32_small (W - e)) by lia.
  assert (Hclamp :
    (if next_min s + c + o >? u32 (current_width s - e)
     then i32 (u32 (current_width s - e)) else next_min s + c + o)
    = clamp_max s (next_min s)).
  { unfold PartitionerNotions.clamp_max. destruct (Z.leb_spec e (current_width s)); cbn [andb].
    - rewrite (u32_small (current_width s - e)) by lia.
      rewrite (i32_small (current_width s - e)) by lia. reflexivity.
    - rewrite (u32_wrap (current_width s - e)) by lia.
      destruct (Z.gtb_spec (next_min s + c + o) (current_width s - e + 2 ^ 32)); [lia|].
      reflexivity. }
  rewrite Hclamp. reflexivity.
Qed.

Lemma col_step_wrap s :
  col_inv s -> ~ has_room s ->
  col_step p mono W s = Continue (wrap_state s).
Proof.
  intros I Hroom. pose proof (width_pos s I) as Hw.
  destruct (has_room_dec s) as [|[Hr1 Hr2]]; [contradiction|].
  destruct I as [I1 I2 I3 I4 I5 I6 I7 I8 I9].
  unfold col_step.
  rewrite (u32_small (min_x s + c)) by lia.
  rewrite (u32_small (current_width s - e)) by lia.
  destruct (Z.ltb_spec (min_x s + c) (current_width s - e)); [lia|].
  rewrite (fits_int_true (image_count s + 1)) by nia.
  rewrite (fits_int_true (current_width s + mono)) by lia.
  reflexivity.
Qed.

Lemma tile_state_inv s :
  col_inv s -> has_room s -> next_min s <= W - e -> col_inv (tile_state s).
Proof.
  intros I Hroom Hle. pose proof (next_min_range s I) as [Hv Hv'].
  destruct I as [I1 I2 I3 I4 I5 I6 I7 I8 I9].
  split; cbn [PartitionerNotions.tile_state blk_idx image_count min_x max_x current_width group_x]; try lia.
  - intros _. unfold PartitionerNotions.next_min. lia.
  - intros Hew _. destruct (Z_lt_le_dec (blk_idx s) 1) as [Hb|Hb].
    + unfold PartitionerNotions.next_min. assert (blk_idx s = 0) as -> by lia. lia.
    + rewrite Hv' by lia. destruct Hroom; lia.
  - intros H. destruct (group_x s); discriminate.
Qed.

Lemma wrap_state_inv s :
  col_inv s -> ~ has_room s -> col_inv (wrap_state s).
Proof.
  intros I Hroom.
  destruct (has_room_dec s) as [|[Hr1 Hr2]]; [contradiction|].
  destruct I as [I1 I2 I3 I4 I5 I6 I7 I8 I9].
  split; cbn [PartitionerNotions.wrap_state blk_idx image_count min_x max_x current_width group_x]; try lia.
  - intros _ Hne. specialize (I7 Hr1 Hne). lia.
  - intros _ Hne. specialize (I7 Hr1 Hne). lia.
  - intros Hnil. destruct (I9 Hnil). lia.
Qed.

Lemma first_flag_range s : 0 <= PartitionerNotions.first_flag s <= 1.
Proof. unfold PartitionerNotions.first_flag. destruct (group_x s); lia. Qed.

Lemma measure_drop (a a' b k k' : Z) :
  0 < b -> a' + 1 <= a -> k' <= k -> a' * b + k' < a * b + k.
Proof.
  intros Hb Ha Hk.
  assert (H : a' * b <= (a - 1) * b) by (apply Z.mul_le_mono_nonneg_r; lia).
  rewrite Z.mul_sub_distr_r in H. lia.
Qed.

Lemma col_measure_nonneg s : col_inv s -> 0 <= col_measure s.
Proof.
  intros [I1 I2 I3 I4 I5 I6 I7 I8 I9]. unfold PartitionerNotions.col_measure.
  pose proof (first_flag_range s) as Hf.
  assert (0 <= (W - e - min_x s + 1 + PartitionerNotions.first_flag s) * (W + c + mono + 1))
    by (apply Z.mul_nonneg_nonneg; lia).
  lia.
Qed.

Lemma tile_state_measure s :
  col_inv s -> has_room s -> col_measure (tile_state s) < col_measure s.
Proof.
  intros I Hroom. pose proof (next_min_range s I) as [Hv Hv'].
  destruct I as [I1 I2 I3 I4 I5 I6 I7 I8 I9].
  unfold PartitionerNotions.col_measure, PartitionerNotions.first_flag.
  cbn [PartitionerNotions.tile_state blk_idx image_count min_x max_x current_width group_x].
  assert (Hstep : next_min s >= min_x s + 1 - match group_x s with [] => 1 | _ => 0 end).
  { destruct (group_x s) as [|t l] eqn:Hg.
    - destruct (I9 eq_refl). lia.
    - destruct (Z_lt_le_dec (blk_idx s) 1) as [Hb|Hb].
      + assert (Hb0 : blk_idx s = 0) by lia.
        assert (Hne : t :: l <> []) by discriminate.
        specialize (I8 Hb0 Hne). unfold PartitionerNotions.next_min. rewrite Hb0. lia.
      + rewrite Hv' by lia. lia. }
  apply measure_drop; [lia| |lia].
  destruct (group_x s ++ [(next_min s, clamp_max s (next_min s))]) eqn:Happ.
  - destruct (group_x s); discriminate.
  - destruct (group_x s); lia.
Qed.

Lemma wrap_state_measure s :
  col_inv s -> ~ has_room s -> col_measure (wrap_state s) < col_measure s.
Proof.
  intros I Hroom. unfold PartitionerNotions.col_measure, PartitionerNotions.first_flag.
  cbn [PartitionerNotions.wrap_state blk_idx image_count min_x max_x current_width group_x]. lia.
Qed.

Lemma col_loop_terminates_from : forall (n : nat) s,
  col_inv s -> col_measure s < Z.of_nat n ->
  exists fuel g, col_loop fuel p mono W s = Done g.
Proof.
  induction n as [|n IH]; intros s I Hm.
  - pose proof (col_measure_nonneg s I). lia.
  - destruct (has_room_dec s) as [Hroom|Hno].
    + pose proof (col_step_tile s I Hroom) as Hstep.
      destruct (Z.gtb_spec (next_min s) (W - e)) as [Hgt|Hle].
      * exists 1%nat. eexists. simpl. rewrite Hstep. reflexivity.
      * destruct (IH (tile_state s)) as (fuel & g & Hrun).
        { apply tile_state_inv; auto. }
        { pose proof (tile_state_measure s I Hroom). lia. }
        exists (S fuel), g. simpl. rewrite Hstep. exact Hrun.
    + assert (Hno' : ~ has_room s) by (unfold PartitionerNotions.has_room; lia).
      pose proof (col_step_wrap s I Hno') as Hstep.
      destruct (IH (wrap_state s)) as (fuel & g & Hrun).
      { apply wrap_state_inv; auto. }
      { pose proof (wrap_state_measure s I Hno'). lia. }
      exists (S fuel), g. simpl. rewrite Hstep. exact Hrun.
Qed.

(** *** The starts of the tiles increase *)

Lemma next_min_gt s :
  col_inv s -> group_x s <> [] -> min_x s < next_min s.
Proof.
  intros I Hne. pose proof (next_min_range s I) as [Hv Hv'].
  destruct I as [I1 I2 I3 I4 I5 I6 I7 I8 I9].
  destruct (Z_lt_le_dec (blk_idx s) 1) as [Hb|Hb].
  - assert (Hb0 : blk_idx s = 0) by lia.
    specialize (I8 Hb0 Hne). unfold PartitionerNotions.next_min. rewrite Hb0. lia.
  - rewrite Hv' by lia. lia.
Qed.

Lemma StronglySorted_snoc (l : list Z) x :
  StronglySorted Z.lt l -> Forall (fun a => a < x) l -> StronglySorted Z.lt (l ++ [x]).
Proof.
  induction 1 as [|a l Hs IH Ha]; intros Hx; simpl.
  - repeat constructor.
  - apply Forall_cons in Hx. destruct Hx as [Hax Hx].
    constructor; [apply IH; exact Hx|].
    apply Forall_app. split; [exact Ha | repeat constructor; exact Hax].
Qed.

Lemma tile_state_ordered s :
  col_inv s -> ordered_inv s -> ordered_inv (tile_state s).
Proof.
  intros I [O1 O2]. unfold PartitionerNotions.ordered_inv.
  cbn [PartitionerNotions.tile_state blk_idx image_count min_x max_x current_width group_x].
  assert (Hlt : Forall (fun t : Z * Z => fst t < next_min s) (group_x s)).
  { destruct (group_x s) as [|t l] eqn:Hg; [constructor|].
    assert (Hne : group_x s <> []) by (rewrite Hg; discriminate).
    pose proof (next_min_gt s I Hne) as Hgt. rewrite Hg in Hne.
    eapply Forall_impl; [exact O2|]. simpl. intros a Ha. lia. }
  split.
  - rewrite map_app. apply StronglySorted_snoc; [exact O1|].
    apply Forall_map. exact Hlt.
  - apply Forall_app. split.
    + eapply Forall_impl; [exact Hlt|]. simpl. intros a Ha. lia.
    + repeat constructor. simpl. lia.
Qed.

Lemma col_loop_ordered : forall fuel s g,
  col_inv s -> ordered_inv s ->
  col_loop fuel p mono W s = Done g ->
  StronglySorted Z.lt (map fst g) /\ Forall (fun t => fst t <= W - e) g.
Proof.
  induction fuel as [|fuel IH]; intros s g I O; simpl; [discriminate|].
  destruct (has_room_dec s) as [Hroom|Hno].
  - rewrite (col_step_tile s I Hroom).
    destruct (Z.gtb_spec (next_min s) (W - e)) as [Hgt|Hle].
    + intros Hd. injection Hd as <-. cbn [PartitionerNotions.tile_state group_x].
      rewrite removelast_last. destruct O as [O1 O2]. split; [exact O1|].
      eapply Forall_impl; [exact O2|]. simpl. intros a Ha. destruct I. lia.
    + apply IH; [apply tile_state_inv; auto | apply tile_state_ordered; auto].
  - assert (Hno' : ~ has_room s) by (unfold PartitionerNotions.has_room; lia).
    rewrite (col_step_wrap s I Hno').
    apply IH; [apply wrap_state_inv; auto | exact O].
Qed.

(** *** The tiles of a single image *)

Hypothesis Hsingle : mono = W.
Hypothesis He1 : 1 <= e.
Hypothesis He2 : 2 * e < W.
Hypothesis Hfirst : c < W - e.

Lemma covers_app_l tiles t x : covers tiles x -> covers (tiles ++ [t]) x.
Proof. intros (t' & Hin & Hx). exists t'. split; [apply in_or_app; auto | exact Hx]. Qed.

Lemma covers_last tiles t x : fst t <= x < snd t -> covers (tiles ++ [t]) x.
Proof. intros Hx. exists t. split; [apply in_or_app; right; left; reflexivity | exact Hx]. Qed.

Lemma tile_state_single s :
  col_inv s -> single_inv s -> has_room s -> image_count s = 0 ->
  single_inv (tile_state s) /\ next_min s <= W - e.
Proof.
  intros I [S1 S2 S3 S4] Hroom Hic.
  pose proof (next_min_range s I) as [Hv Hv'].
  destruct I as [I1 I2 I3 I4 I5 I6 I7 I8 I9].
  assert (Hcw : current_width s = W) by (rewrite I3, Hic, Hsingle; lia).
  assert (Hroom' : min_x s + c < W - e) by (destruct Hroom; lia).
  assert (Hnext : next_min s = match group_x s with [] => e | _ => min_x s + c end).
  { destruct (group_x s) as [|t l] eqn:Hg.
    - destruct (I9 eq_refl) as [_ Hb]. unfold PartitionerNotions.next_min. rewrite Hb, Hic. lia.
    - apply Hv'. apply S2; [exact Hic | discriminate]. }
  assert (Hlt : e <= next_min s < W - e).
  { rewrite Hnext. destruct (group_x s) as [|t l] eqn:Hg; [lia|].
    assert (Hb : 1 <= blk_idx s) by (apply S2; [exact Hic | discriminate]).
    specialize (I5 Hb). nia. }
  assert (Hclamp : clamp_max s (next_min s) = Z.min (next_min s + c + o) (W - e)).
  { unfold PartitionerNotions.clamp_max. rewrite Hcw.
    destruct (Z.leb_spec e W); [|lia]. cbn [andb].
    destruct (Z.gtb_spec (next_min s + c + o) (W - e)); lia. }
  split; [|lia].
  split; cbn [PartitionerNotions.tile_state blk_idx image_count min_x max_x current_width group_x].
  - apply Forall_app. split; [exact S1|]. constructor; [|constructor].
    unfold PartitionerNotions.tile_ok. cbn [fst snd]. rewrite Hclamp. lia.
  - intros _ _. lia.
  - intros _ _ x Hx.
    destruct (Z_lt_le_dec x (next_min s)) as [Hxl|Hxl].
    + apply covers_app_l. destruct (group_x s) as [|t l] eqn:Hg.
      * rewrite Hnext in Hxl. lia.
      * apply S3; [exact Hic | discriminate |]. rewrite Hnext in Hxl. lia.
    + apply covers_last. cbn [fst snd]. rewrite Hclamp. lia.
  - intros Hic'. lia.
Qed.

Lemma wrap_state_single s :
  col_inv s -> single_inv s -> ~ has_room s -> single_inv (wrap_state s).
Proof.
  intros I [S1 S2 S3 S4] Hroom.
  destruct (has_room_dec s) as [|[Hr1 Hr2]]; [contradiction|].
  destruct I as [I1 I2 I3 I4 I5 I6 I7 I8 I9].
  split; cbn [PartitionerNotions.wrap_state blk_idx image_count min_x max_x current_width group_x]; try lia.
  - exact S1.
  - intros _ x Hx.
    destruct (Z_lt_le_dec (image_count s) 1) as [Hic|Hic]; [|apply S4; lia].
    assert (Hic0 : image_count s = 0) by lia.
    assert (Hcw : current_width s = W) by (rewrite I3, Hic0, Hsingle; lia).
    destruct (group_x s) as [|t l] eqn:Hg.
    + destruct (I9 eq_refl). lia.
    + apply S3; [exact Hic0 | discriminate | lia].
Qed.

Lemma col_loop_single : forall fuel s g,
  col_inv s -> single_inv s ->
  col_loop fuel p mono W s = Done g ->
  Forall tile_ok g /\ forall x, e <= x < W - e -> covers g x.
Proof.
  induction fuel as [|fuel IH]; intros s g I S; simpl; [discriminate|].
  destruct (has_room_dec s) as [Hroom|Hno].
  - rewrite (col_step_tile s I Hroom).
    destruct (Z_lt_le_dec (image_count s) 1) as [Hic|Hic].
    + assert (Hic0 : image_count s = 0) by (destruct I; lia).
      destruct (tile_state_single s I S Hroom Hic0) as [S' Hle].
      destruct (Z.gtb_spec (next_min s) (W - e)); [lia|].
      apply IH; [apply tile_state_inv; auto | exact S'].
    + destruct (Z.gtb_spec (next_min s) (W - e)) as [Hgt|Hle].
      * intros H. injection H as <-.
        cbn [PartitionerNotions.tile_state group_x]. rewrite removelast_last.
        destruct S as [S1 S2 S3 S4]. split; [exact S1 | apply S4; lia].
      * exfalso. destruct I as [I1 I2 I3 I4 I5 I6 I7 I8 I9].
        unfold PartitionerNotions.next_min in Hle. nia.
  - assert (Hno' : ~ has_room s) by (unfold PartitionerNotions.has_room; lia).
    rewrite (col_step_wrap s I Hno').
    apply IH; [apply wrap_state_inv; auto | apply wrap_state_single; auto].
Qed.

End ColumnLoop.

Section Rows.
Variable p : FastKernelParams.
Local Abbreviation c := (cell_size p).
Local Abbreviation e := (edge_clip p).
Local Abbreviation o := (overlap p).
Local Abbreviation R := (image_rows p).
Local Abbreviation row_tile := (PartitionerNotions.row_tile p).

Hypothesis Hc : 1 <= c.
Hypothesis He : 0 <= e.
Hypothesis Ho : 0 <= o.
Hypothesis Hroom : o + e <= R.
Hypothesis Hsmall : R + e + c + o < 2 ^ 31.

Lemma row_body_tile j acc :
  0 <= j <= R / c -> row_body p acc j = acc ++ row_tile j.
Proof.
  intros Hj. unfold row_body, PartitionerNotions.row_tile. cbv zeta.
  assert (Hjc : 0 <= j * c <= R).
  { pose proof (Z.mul_div_le R c ltac:(lia)). nia. }
  rewrite (u32_small (R - e)) by lia.
  rewrite (u32_small (e + j * c)) by lia.
  rewrite (u32_small (R - e - o)) by lia.
  destruct (Z.leb_spec (R - e - o) (e + j * c)); [rewrite app_nil_r; reflexivity|].
  rewrite (u32_small (e + j * c + c + o)) by lia.
  rewrite (i32_small (e + j * c)) by lia.
  f_equal. f_equal. f_equal.
  destruct (Z.ltb_spec (R - e) (e + j * c + c + o)); rewrite i32_small; lia.
Qed.

Lemma fold_row_body l : forall acc,
  Forall (fun j => 0 <= j <= R / c) l ->
  fold_left (row_body p) l acc = acc ++ flat_map row_tile l.
Proof.
  induction l as [|j l IH]; intros acc Hl; simpl.
  - rewrite app_nil_r. reflexivity.
  - apply Forall_cons in Hl. destruct Hl as [Hj Hl].
    rewrite row_body_tile by exact Hj. rewrite IH by exact Hl.
    rewrite <- app_assoc. reflexivity.
Qed.

Lemma row_bounds_tiles : row_bounds p = flat_map row_tile (seqZ 0 (R / c + 1)).
Proof.
  unfold row_bounds, num_rows. rewrite fold_row_body; [reflexivity|].
  apply Forall_forall. intros j Hj. apply elem_of_seqZ in Hj. lia.
Qed.

Lemma In_row_bounds t :
  In t (row_bounds p) <->
  exists j, 0 <= j <= R / c /\ e + j * c < R - e - o
            /\ t = (e + j * c, Z.min (e + j * c + c + o) (R - e)).
Proof.
  rewrite row_bounds_tiles, in_flat_map. split.
  - intros (j & Hj & Ht). apply list_elem_of_In, elem_of_seqZ in Hj.
    unfold PartitionerNotions.row_tile in Ht. destruct (Z.leb_spec (R - e - o) (e + j * c)); [contradiction|].
    destruct Ht as [<-|[]]. exists j. repeat split; lia.
  - intros (j & Hj & Hk & ->). exists j. split.
    + apply list_elem_of_In, elem_of_seqZ. lia.
    + unfold PartitionerNotions.row_tile. destruct (Z.leb_spec (R - e - o) (e + j * c)); [lia|]. left; reflexivity.
Qed.

Lemma row_bounds_ok t :
  In t (row_bounds p) -> e <= fst t /\ fst t < snd t <= R - e.
Proof.
  rewrite In_row_bounds. intros (j & Hj & Hk & ->). cbn [fst snd]. nia.
Qed.

Lemma row_bounds_cover y :
  o + 2 * e < R -> e <= y < R - e ->
  exists t, In t (row_bounds p) /\ fst t <= y < snd t.
Proof.
  intros Hfit Hy.
  set (n := R - 2 * e - o - 1).
  pose proof (Z.mul_div_le (y - e) c ltac:(lia)) as A1.
  pose proof (Z.mul_succ_div_gt (y - e) c ltac:(lia)) as A2.
  pose proof (Z.mul_div_le n c ltac:(lia)) as B1.
  pose proof (Z.mul_succ_div_gt n c ltac:(lia)) as B2.
  pose proof (Z.div_pos (y - e) c ltac:(lia) ltac:(lia)) as A0.
  pose proof (Z.div_pos n c ltac:(unfold n; lia) ltac:(lia)) as B0.
  assert (Hn : n / c <= R / c) by (apply Z.div_le_mono; unfold n; lia).
  destruct (Z_le_gt_dec ((y - e) / c) (n / c)) as [Hle|Hgt].
  - exists (e + (y - e) / c * c, Z.min (e + (y - e) / c * c + c + o) (R - e)).
    split.
    + apply In_row_bounds. exists ((y - e) / c). unfold n in *. repeat split; nia.
    + cbn [fst snd]. nia.
  - exists (e + n / c * c, Z.min (e + n / c * c + c + o) (R - e)).
    split.
    + apply In_row_bounds. exists (n / c). unfold n in *. repeat split; nia.
    + cbn [fst snd]. unfold n in *. nia.
Qed.

End Rows.


Lemma u32_mod32 z : u32 z mod 32 = z mod 32.
Proof. unfold u32. apply Z.mod_mod_divide. exists (2 ^ 27). reflexivity. Qed.

Lemma u32_i32 z : u32 (i32 z) = u32 z.
Proof.
  unfold u32, i32.
  rewrite Zminus_mod, Zmod_mod.
  rewrite <- Zminus_mod.
  replace (z + 2 ^ 31 - 2 ^ 31) with z by lia. reflexivity.
Qed.

Lemma stuck_step s :
  stuck s ->
  col_step clip_beyond_params 10 10 s = Overflow \/
  exists s', col_step clip_beyond_params 10 10 s = Continue s' /\ stuck s'.
Proof.
  intros (Hic & Hcw & Hm). unfold col_step. cbn [cell_size edge_clip overlap clip_beyond_params].
  rewrite Hic, Hcw.
  assert (Hcond : (u32 (min_x s + 32) <? u32 (10 - 20)) = true).
  { apply Z.ltb_lt. change (u32 (10 - 20)) with (2 ^ 32 - 10).
    pose proof (u32_mod32 (min_x s + 32)) as H1.
    pose proof (u32_mod32 (min_x s)) as H2.
    assert (H3 : u32 (min_x s + 32) mod 32 = u32 (min_x s) mod 32).
    { rewrite H1, H2. replace (min_x s + 32) with (min_x s + 1 * 32) by lia.
      apply Z_mod_plus_full. }
    assert (H4 : 0 <= u32 (min_x s + 32) < 2 ^ 32) by (apply Z.mod_pos_bound; lia).
    pose proof (Z.div_mod (u32 (min_x s + 32)) 32 ltac:(lia)) as H5.
    lia. }
  rewrite Hcond.
  destruct (negb (fits_int (blk_idx s + 1)) || negb (fits_int (10 * 0))); [left; reflexivity|].
  right. cbv zeta.
  set (v := i32 (u32 (blk_idx s * 32 + 10 * 0 + 20))).
  assert (Hv : u32 v mod 32 = 20).
  { unfold v. rewrite u32_i32, !u32_mod32.
    replace (blk_idx s * 32 + 10 * 0 + 20) with (20 + blk_idx s * 32) by lia.
    rewrite Z_mod_plus_full. reflexivity. }
  assert (Hbreak : (u32 v >? u32 (10 - 20)) = false).
  { change (u32 (10 - 20)) with (2 ^ 32 - 10).
    destruct (Z.gtb_spec (u32 v) (2 ^ 32 - 10)); [|reflexivity].
    assert (H4 : 0 <= u32 v < 2 ^ 32) by (apply Z.mod_pos_bound; lia).
    pose proof (Z.div_mod (u32 v) 32 ltac:(lia)) as H5. lia. }
  rewrite Hbreak. eexists. split; [reflexivity|].
  unfold stuck. cbn [image_count current_width min_x]. auto.
Qed.

Lemma stuck_forever : forall fuel s tiles,
  stuck s -> col_loop fuel clip_beyond_params 10 10 s <> Done tiles.
Proof.
  induction fuel as [|fuel IH]; intros s tiles Hs; simpl; [discriminate|].
  destruct (stuck_step s Hs) as [-> | (s' & -> & Hs')]; [discriminate|].
  apply IH. exact Hs'.
Qed.

End PartitionerFacts.

(** X1.  For every configuration with a cell of at least one pixel, images
    of at least one column, an edge clip within the buffer width and sizes
    far from the limits of [int], the [while (1)] loop of
    [UpdateGroupPosition] reaches its [break]; the column pairs it leaves
    start at strictly increasing positions, none beyond
    [image_cols - edge_clip]. *)
Theorem column_loop_terminates (p : FastKernelParams) :
  1 <= cell_size p ->
  1 <= num_images p ->
  1 <= image_cols p / num_images p ->
  0 <= edge_clip p <= image_cols p ->
  0 <= overlap p ->
  4 * image_cols p + 2 * cell_size p + overlap p < 2 ^ 31 ->
  exists fuel tiles,
    TilePartitioner.col_bounds fuel p = Done tiles /\
    StronglySorted Z.lt (map fst tiles) /\
    Forall (fun t => fst t <= image_cols p - edge_clip p) tiles.
Proof.
  intros Hc Hn Hmono He Ho Hsmall.
  assert (Hm : image_cols p / num_images p <= image_cols p).
  { apply Z.div_le_upper_bound; nia. }
  unfold TilePartitioner.col_bounds.
  rewrite (i32_small (image_cols p / num_images p)) by lia.
  rewrite (i32_small (image_cols p)) by lia.
  assert (I : PartitionerNotions.col_inv p (image_cols p / num_images p)
                (TilePartitioner.col_init p)).
  { unfold TilePartitioner.col_init.
    rewrite (i32_small (image_cols p / num_images p)) by lia.
    split; cbn; try lia. intros _ H. contradiction. }
  destruct (PartitionerFacts.col_loop_terminates_from p (image_cols p / num_images p))
    with (n := S (Z.to_nat (PartitionerNotions.col_measure p (image_cols p / num_images p)
                              (TilePartitioner.col_init p))))
         (s := TilePartitioner.col_init p)
    as (fuel & tiles & Hrun); try assumption; try lia.
  exists fuel, tiles. split; [exact Hrun|].
  eapply (PartitionerFacts.col_loop_ordered p (image_cols p / num_images p));
    try eassumption; try lia.
  unfold PartitionerNotions.ordered_inv, TilePartitioner.col_init. cbn.
  split; constructor.
Qed.

Lemma column_loop_terminates_witness :
  exists fuel tiles,
    TilePartitioner.col_bounds fuel (partition_params 848 480) = Done tiles /\
    StronglySorted Z.lt (map fst tiles) /\
    Forall (fun t => fst t <= 848 - 19) tiles.
Proof.
  apply (column_loop_terminates (partition_params 848 480)); simpl; try lia.
  vm_compute. discriminate.
Defined.

(** X2.  For a single image whose clipped width exceeds [cell_size] and whose
    clipped height exceeds [overlap] (edge clip at least 1, sizes far from
    the limits of [int]), [UpdateGroupPosition] returns tables such that
    every tile (a column pair with a row pair) is a non-empty rectangle
    inside the clipped interior, and every pixel of the clipped interior
    lies in some tile. *)
Theorem single_image_tiling (p : FastKernelParams) :
  num_images p = 1 ->
  1 <= cell_size p ->
  1 <= edge_clip p ->
  0 <= overlap p ->
  2 * edge_clip p < image_cols p ->
  cell_size p < image_cols p - edge_clip p ->
  overlap p + 2 * edge_clip p < image_rows p ->
  4 * image_cols p + 2 * cell_size p + overlap p < 2 ^ 31 ->
  image_rows p + edge_clip p + cell_size p + overlap p < 2 ^ 31 ->
  exists fuel group_x group_y,
    TilePartitioner.UpdateGroupPosition fuel p = Done (group_x, group_y) /\
    (forall tx ty, In tx group_x -> In ty group_y -> PartitionerNotions.tile_inside p tx ty) /\
    (forall x y, PartitionerNotions.in_interior p x y ->
       exists tx ty, In tx group_x /\ In ty group_y /\ PartitionerNotions.tile_holds tx ty x y).
Proof.
  intros Hn Hc He Ho Hw Hfirst Hh Hsmall Hsmall'.
  assert (Hmono : image_cols p / num_images p = image_cols p)
    by (rewrite Hn; apply Z.div_1_r).
  assert (I : PartitionerNotions.col_inv p (image_cols p) (TilePartitioner.col_init p)).
  { unfold TilePartitioner.col_init. rewrite Hmono.
    rewrite (i32_small (image_cols p)) by lia.
    split; cbn; try lia; try (intros _ H; contradiction). }
  destruct (PartitionerFacts.col_loop_terminates_from p (image_cols p))
    with (n := S (Z.to_nat (PartitionerNotions.col_measure p (image_cols p)
                              (TilePartitioner.col_init p))))
         (s := TilePartitioner.col_init p)
    as (fuel & gx & Hrun); try assumption; try lia.
  destruct (PartitionerFacts.col_loop_single p (image_cols p)) with (fuel := fuel)
    (s := TilePartitioner.col_init p) (g := gx) as (Hok & Hcov);
    try assumption; try lia; try reflexivity.
  { unfold TilePartitioner.col_init. split; cbn; try lia; try contradiction.
    constructor. }
  exists fuel, gx, (TilePartitioner.row_bounds p).
  split.
  - unfold TilePartitioner.UpdateGroupPosition, TilePartitioner.col_bounds.
    destruct (Z.eqb_spec (num_images p) 0); [lia|].
    destruct (Z.eqb_spec (cell_size p) 0); [lia|]. cbn [orb].
    rewrite Hmono, (i32_small (image_cols p)) by lia.
    rewrite Hrun. reflexivity.
  - split.
    + intros tx ty Hx Hy. unfold PartitionerNotions.tile_inside.
      rewrite Forall_forall in Hok.
      specialize (Hok tx (proj2 (list_elem_of_In _ _) Hx)).
      unfold PartitionerNotions.tile_ok in Hok.
      pose proof (PartitionerFacts.row_bounds_ok p ltac:(lia) ltac:(lia) ltac:(lia)
                    ltac:(lia) ltac:(lia) ty Hy).
      lia.
    + intros x y [Hx Hy].
      destruct (Hcov x Hx) as (tx & Htx & Hhx).
      destruct (PartitionerFacts.row_bounds_cover p ltac:(lia) ltac:(lia) ltac:(lia)
                  ltac:(lia) ltac:(lia) y ltac:(lia) Hy) as (ty & Hty & Hhy).
      exists tx, ty. unfold PartitionerNotions.tile_holds. auto.
Qed.

Lemma single_image_tiling_witness :
  exists fuel group_x group_y,
    TilePartitioner.UpdateGroupPosition fuel (partition_params 848 480)
    = Done (group_x, group_y) /\
    (forall tx ty, In tx group_x -> In ty group_y ->
       PartitionerNotions.tile_inside (partition_params 848 480) tx ty) /\
    (forall x y, PartitionerNotions.in_interior (partition_params 848 480) x y ->
       exists tx ty, In tx group_x /\ In ty group_y /\ PartitionerNotions.tile_holds tx ty x y).
Proof.
  apply (single_image_tiling (partition_params 848 480)); simpl; lia.
Defined.

(** X3.  When [edge_clip + overlap] fits in the image height, the row table
    holds exactly the windows [(e + j c, min (e + j c + c + o, rows - e))],
    [j >= 0], that start before [rows - e - o]. *)
Theorem row_bounds_members (p : FastKernelParams) (t : Z * Z) :
  1 <= cell_size p ->
  0 <= edge_clip p ->
  0 <= overlap p ->
  overlap p + edge_clip p <= image_rows p ->
  image_rows p + edge_clip p + cell_size p + overlap p < 2 ^ 31 ->
  (In t (TilePartitioner.row_bounds p) <->
   exists j, 0 <= j /\
     edge_clip p + j * cell_size p < image_rows p - edge_clip p - overlap p /\
     t = (edge_clip p + j * cell_size p,
          Z.min (edge_clip p + j * cell_size p + cell_size p + overlap p)
                (image_rows p - edge_clip p))).
Proof.
  intros Hc He Ho Hroom Hsmall.
  rewrite (PartitionerFacts.In_row_bounds p Hc He Ho Hroom Hsmall t).
  split; intros (j & Hj & Hk); exists j.
  - split; [lia | exact Hk].
  - split; [|exact Hk]. split; [lia|].
    apply Z.div_le_lower_bound; nia.
Qed.

Lemma row_bounds_members_witness :
  In (435, 461) (TilePartitioner.row_bounds (partition_params 848 480)) <->
  exists j, 0 <= j /\
    19 + j * 32 < 480 - 19 - 6 /\
    (435, 461) = (19 + j * 32, Z.min (19 + j * 32 + 32 + 6) (480 - 19)).
Proof.
  apply (row_bounds_members (partition_params 848 480) (435, 461)); simpl; lia.
Defined.

(** X4.  Under the same bounds the row table is empty exactly when the
    clipped height [rows - 2 e] does not exceed [overlap]: no tile is then
    generated although the clipped interior may have up to [overlap] rows. *)
Theorem row_bounds_empty_iff (p : FastKernelParams) :
  1 <= cell_size p ->
  0 <= edge_clip p ->
  0 <= overlap p ->
  overlap p + edge_clip p <= image_rows p ->
  image_rows p + edge_clip p + cell_size p + overlap p < 2 ^ 31 ->
  (TilePartitioner.row_bounds p = [] <-> image_rows p - 2 * edge_clip p <= overlap p).
Proof.
  intros Hc He Ho Hroom Hsmall. split.
  - intros Hnil.
    destruct (Z_le_gt_dec (image_rows p - 2 * edge_clip p) (overlap p)) as [|Hgt]; [assumption|].
    exfalso.
    assert (Hin : In (edge_clip p + 0 * cell_size p,
                      Z.min (edge_clip p + 0 * cell_size p + cell_size p + overlap p)
                            (image_rows p - edge_clip p))
                     (TilePartitioner.row_bounds p)).
    { apply (PartitionerFacts.In_row_bounds p Hc He Ho Hroom Hsmall). exists 0.
      split; [split; [lia | apply Z.div_pos; lia]|]. split; [lia | reflexivity]. }
    rewrite Hnil in Hin. contradiction.
  - intros Hle. destruct (TilePartitioner.row_bounds p) as [|t l] eqn:Hr; [reflexivity|].
    exfalso.
    assert (Hin : In t (TilePartitioner.row_bounds p)) by (rewrite Hr; left; reflexivity).
    apply (PartitionerFacts.In_row_bounds p Hc He Ho Hroom Hsmall) in Hin.
    destruct Hin as (j & Hj & Hk & _).
    assert (0 <= j * cell_size p) by (apply Z.mul_nonneg_nonneg; lia).
    lia.
Qed.

Lemma row_bounds_empty_iff_witness :
  TilePartitioner.row_bounds (partition_params 848 44) = [] <-> 44 - 2 * 19 <= 6.
Proof.
  apply (row_bounds_empty_iff (partition_params 848 44)); simpl; lia.
Defined.

(** ** The detector *)

Module DetectorFacts.
Import CornerDetector DetectorNotions.

Lemma in_all_bools (l : list bool) : In l (all_bools (length l)).
Proof.
  induction l as [|b l IH]; simpl; [auto|].
  apply in_flat_map. exists l. split; [exact IH|].
  destruct b; simpl; auto.
Qed.

Lemma exits_sound_all :
  forallb
    (fun bs =>
       (0 <=? sum_checks (doubled (mask3 bs)))
       && Bool.eqb (sum_checks (doubled (mask3 bs)) =? 0) (negb (segb bs))
       && implb (segb bs)
            (pairs_set (mask3 bs) 255 && pairs_set (mask2 bs) EVEN_MASK
             && negb (mask1 bs =? 0)))
    (all_bools 16) = true.
Proof. vm_cast_no_check (eq_refl true). Qed.

Lemma exits_sound_facts (bs : list bool) :
  length bs = 16%nat ->
  0 <= sum_checks (doubled (mask3 bs)) /\
  (sum_checks (doubled (mask3 bs)) =? 0) = negb (segb bs) /\
  (segb bs = true ->
   pairs_set (mask3 bs) 255 = true /\ pairs_set (mask2 bs) EVEN_MASK = true /\ mask1 bs <> 0).
Proof.
  intros Hl. pose proof (in_all_bools bs) as Hin. rewrite Hl in Hin.
  pose proof (proj1 (forallb_forall _ _) exits_sound_all bs Hin) as E.
  apply andb_prop in E as [E E3]. apply andb_prop in E as [E1 E2].
  split; [apply Z.leb_le; exact E1|].
  split; [apply Bool.eqb_prop; exact E2|].
  intros Hs. rewrite Hs in E3.
  apply andb_prop in E3 as [E3 E5]. apply andb_prop in E3 as [E3 E4].
  split; [exact E3|]. split; [exact E4|].
  apply negb_true_iff, Z.eqb_neq in E5. exact E5.
Qed.

Lemma staged_segb (l g : list bool) :
  length l = 16%nat -> length g = 16%nat -> staged l g = segb l || segb g.
Proof.
  intros Hl Hg.
  destruct (exits_sound_facts l Hl) as (Nl & Zl & Pl).
  destruct (exits_sound_facts g Hg) as (Ng & Zg & Pg).
  unfold staged.
  destruct (segb l) eqn:Sl.
  - destruct (Pl eq_refl) as (P3 & P2 & P1).
    apply Z.eqb_neq in Zl.
    destruct (Z.eqb_spec (Z.lor (mask1 l) (mask1 g)) 0) as [E|_];
      [apply Z.lor_eq_0_iff in E; lia|].
    rewrite P2, P3. cbn [negb andb orb].
    destruct (Z.eqb_spec (sum_checks (doubled (mask3 l)) + sum_checks (doubled (mask3 g))) 0);
      [lia | reflexivity].
  - destruct (segb g) eqn:Sg.
    + destruct (Pg eq_refl) as (P3 & P2 & P1).
      apply Z.eqb_neq in Zg.
      destruct (Z.eqb_spec (Z.lor (mask1 l) (mask1 g)) 0) as [E|_];
        [apply Z.lor_eq_0_iff in E; lia|].
      rewrite P2, P3. rewrite !andb_false_r. cbn [negb andb orb].
      destruct (Z.eqb_spec (sum_checks (doubled (mask3 l)) + sum_checks (doubled (mask3 g))) 0);
        [lia | reflexivity].
    + apply Z.eqb_eq in Zl, Zg. rewrite Zl, Zg. cbn [Z.add Z.eqb negb orb].
      destruct (Z.lor (mask1 l) (mask1 g) =? 0); [reflexivity|].
      destruct (_ && _); [reflexivity|]. destruct (_ && _); reflexivity.
Qed.

Lemma fast_pixel_staged src p step th :
  fast_pixel src p step th
  = staged (comparisons src p step (fun c => c <? i32 (u32 (src p - th))))
           (comparisons src p step (fun c => c >? i32 (u32 (src p + th)))).
Proof. reflexivity. Qed.

End DetectorFacts.

Module SegmentFacts.
Import CornerDetector DetectorNotions DetectorFacts.

Lemma lookup_doubled (bs : list bool) (n : nat) :
  length bs = 16%nat -> (n < 32)%nat -> (bs ++ bs) !! n = bs !! (n mod 16)%nat.
Proof.
  intros Hl Hn. destruct (Nat.lt_ge_cases n 16) as [H|H].
  - rewrite lookup_app_l by lia. rewrite Nat.mod_small by lia. reflexivity.
  - rewrite lookup_app_r by lia. rewrite Hl.
    replace (n mod 16)%nat with (n - 16)%nat; [reflexivity|].
    replace n with ((n - 16) + 1 * 16)%nat at 2 by lia.
    rewrite Nat.Div0.mod_add. rewrite Nat.mod_small by lia. reflexivity.
Qed.

Lemma arc_index (j k : nat) :
  Z.to_nat ((Z.of_nat j + Z.of_nat k) mod 16) = ((j + k) mod 16)%nat.
Proof.
  rewrite <- Nat2Z.inj_add. change 16 with (Z.of_nat 16).
  rewrite <- Nat2Z.inj_mod. apply Nat2Z.id.
Qed.

Lemma segb_spec (bs : list bool) :
  length bs = 16%nat ->
  (segb bs = true <->
   exists j, 0 <= j < 16 /\
     forall i, 0 <= i <= 8 -> nth (Z.to_nat ((j + i) mod 16)) bs false = true).
Proof.
  intros Hl. unfold segb. rewrite existsb_exists. split.
  - intros (j & Hj & Hall). apply in_seq in Hj. exists (Z.of_nat j). split; [lia|].
    intros i Hi. rewrite forallb_forall in Hall.
    rewrite <- (Z2Nat.id i) by lia. rewrite arc_index, nth_lookup.
    assert (Hlk : take 9 (drop j (bs ++ bs)) !! Z.to_nat i
                  = bs !! ((j + Z.to_nat i) mod 16)%nat).
    { rewrite lookup_take_lt by lia. rewrite lookup_drop. apply lookup_doubled; [exact Hl|lia]. }
    destruct (bs !! ((j + Z.to_nat i) mod 16)%nat) as [b|] eqn:Hb.
    + simpl. apply Hall. apply list_elem_of_In, list_elem_of_lookup. eauto.
    + apply lookup_ge_None in Hb. rewrite Hl in Hb.
      pose proof (Nat.mod_upper_bound (j + Z.to_nat i) 16). lia.
  - intros (j & Hj & Hall). exists (Z.to_nat j). split; [apply in_seq; lia|].
    apply forallb_forall. intros b Hb.
    apply list_elem_of_In, list_elem_of_lookup in Hb as [k Hk].
    apply lookup_take_Some in Hk as [Hk Hk9].
    rewrite lookup_drop, lookup_doubled in Hk by (try exact Hl; lia).
    specialize (Hall (Z.of_nat k) ltac:(lia)).
    rewrite <- (Z2Nat.id j) in Hall by lia.
    rewrite arc_index, nth_lookup, Hk in Hall. exact Hall.
Qed.

Lemma length_comparisons src p step test : length (comparisons src p step test) = 16%nat.
Proof. reflexivity. Qed.

Lemma nth_comparisons src p step test k :
  0 <= k < 16 ->
  nth (Z.to_nat k) (comparisons src p step test) false = test (circle src p step k).
Proof.
  intros Hk. unfold comparisons. rewrite nth_lookup, list_lookup_fmap.
  rewrite lookup_seqZ_lt by lia. simpl. rewrite Z2Nat.id by lia. reflexivity.
Qed.

Lemma segb_comparisons src p step test :
  segb (comparisons src p step test) = true <->
  exists j, 0 <= j < 16 /\ arc_all (fun k => test (circle src p step k) = true) j.
Proof.
  rewrite (segb_spec _ (length_comparisons src p step test)).
  split; intros (j & Hj & Hall); exists j; (split; [exact Hj|]); intros i Hi.
  - rewrite <- nth_comparisons by (apply Z.mod_pos_bound; lia). apply Hall. exact Hi.
  - rewrite nth_comparisons by (apply Z.mod_pos_bound; lia). apply Hall. exact Hi.
Qed.

(** the pixel passes the detector exactly when it passes the segment test *)
Lemma fast_pixel_segment src p step th :
  - 2 ^ 31 <= src p - th -> src p + th < 2 ^ 31 -> 0 <= th ->
  (fast_pixel src p step th = true <-> segment_test src p step th).
Proof.
  intros H0 H1 Hth.
  rewrite fast_pixel_staged, staged_segb by apply length_comparisons.
  rewrite !i32_u32, !i32_small by lia.
  rewrite orb_true_iff, !segb_comparisons. unfold segment_test.
  split.
  - intros [(j & Hj & Hall)|(j & Hj & Hall)]; exists j; (split; [exact Hj|]);
      [left|right]; intros i Hi; specialize (Hall i Hi); cbv beta in *; lia.
  - intros (j & Hj & [Hall|Hall]); [left|right]; exists j; (split; [exact Hj|]);
      intros i Hi; specialize (Hall i Hi); cbv beta in *; lia.
Qed.

End SegmentFacts.

Module ScoreFacts.
Import Suppressor SuppressorFacts CornerDetector DetectorNotions DetectorFacts SegmentFacts.

Lemma dget_circle src p step k :
  0 <= k < 16 -> dget (circle_differences src p step) k = src p - circle src p step k.
Proof.
  intros Hk.
  assert (H : k = 0 \/ k = 1 \/ k = 2 \/ k = 3 \/ k = 4 \/ k = 5 \/ k = 6 \/ k = 7 \/
              k = 8 \/ k = 9 \/ k = 10 \/ k = 11 \/ k = 12 \/ k = 13 \/ k = 14 \/ k = 15) by lia.
  repeat destruct H as [->|H]; try subst k; reflexivity.
Qed.

Lemma Forall_arc9 (P : Z -> Prop) d j :
  Forall P (arc9 d j) <-> forall i, 0 <= i <= 8 -> P (dget d ((j + i) mod 16)).
Proof.
  unfold arc9. cbn [map]. rewrite !Forall_cons, Forall_nil.
  change 15 with (Z.ones 4). rewrite !Z.land_ones by lia. change (2 ^ 4) with 16.
  split.
  - intros H i Hi.
    assert (Hc : i = 0 \/ i = 1 \/ i = 2 \/ i = 3 \/ i = 4 \/ i = 5 \/ i = 6 \/ i = 7 \/ i = 8)
      by lia.
    repeat destruct Hc as [->|Hc]; try subst i; tauto.
  - intros H. repeat split; apply H; lia.
Qed.

Lemma Exists_starts16 (P : Z -> Prop) (f : Z -> Z) :
  Exists P (map f starts16) <-> exists j, 0 <= j < 16 /\ P (f j).
Proof.
  rewrite Exists_exists. split.
  - intros (y & Hin & Hy). apply list_elem_of_In, in_map_iff in Hin as (j & <- & Hj).
    exists j. split; [|exact Hy]. unfold starts16 in Hj. simpl in Hj. lia.
  - intros (j & Hj & Hy). exists (f j). split; [|exact Hy].
    apply list_elem_of_In, in_map. unfold starts16. simpl. lia.
Qed.

Lemma arc9_score_ge d th :
  0 <= th ->
  (th <= arc9_score_of_circle d <->
   exists j, 0 <= j < 16 /\
     ((forall i, 0 <= i <= 8 -> th < dget d ((j + i) mod 16)) \/
      (forall i, 0 <= i <= 8 -> dget d ((j + i) mod 16) < - th))).
Proof.
  intros Hth. unfold arc9_score_of_circle. cbv zeta.
  set (dark := max_list 0 _).
  assert (Hdark : th + 1 <= dark <->
            exists j, 0 <= j < 16 /\ forall i, 0 <= i <= 8 -> th < dget d ((j + i) mod 16)).
  { unfold dark. rewrite le_max_list, Exists_starts16.
    split.
    - intros [H|(j & Hj & H)]; [lia|]. exists j. split; [exact Hj|].
      apply le_arc_min in H. unfold all_ge in H. rewrite Forall_arc9 in H.
      intros i Hi. specialize (H i Hi). lia.
    - intros (j & Hj & H). right. exists j. split; [exact Hj|].
      apply le_arc_min. unfold all_ge. rewrite Forall_arc9.
      intros i Hi. specialize (H i Hi). lia. }
  assert (Hb : min_list (- dark) (map (fun j => arc_max (arc9 d j)) starts16) <= - th - 1 <->
            th + 1 <= dark \/
            exists j, 0 <= j < 16 /\ forall i, 0 <= i <= 8 -> dget d ((j + i) mod 16) < - th).
  { rewrite min_list_le, Exists_starts16.
    split.
    - intros [H|(j & Hj & H)]; [left; lia|]. right. exists j. split; [exact Hj|].
      apply arc_max_le in H. unfold all_le in H. rewrite Forall_arc9 in H.
      intros i Hi. specialize (H i Hi). lia.
    - intros [H|(j & Hj & H)]; [left; lia|]. right. exists j. split; [exact Hj|].
      apply arc_max_le. unfold all_le. rewrite Forall_arc9.
      intros i Hi. specialize (H i Hi). lia. }
  split.
  - intros H. assert (H' : min_list (- dark) (map (fun j => arc_max (arc9 d j)) starts16)
                           <= - th - 1) by lia.
    apply Hb in H'. destruct H' as [H'|(j & Hj & H')].
    + apply Hdark in H' as (j & Hj & H'). eauto.
    + eauto.
  - intros (j & Hj & [H|H]).
    + assert (H' : th + 1 <= dark) by (apply Hdark; eauto).
      assert (min_list (- dark) (map (fun j => arc_max (arc9 d j)) starts16) <= - th - 1)
        by (apply Hb; left; exact H').
      lia.
    + assert (min_list (- dark) (map (fun j => arc_max (arc9 d j)) starts16) <= - th - 1)
        by (apply Hb; right; eauto).
      lia.
Qed.

Lemma cornerScore_ge src p step th :
  byte_image src -> 0 <= th ->
  (th <= cornerScore src p step <-> segment_test src p step th).
Proof.
  intros Hb Hth. unfold cornerScore.
  rewrite score_of_circle_arc9, load_circle_byte by exact Hb.
  rewrite arc9_score_ge by exact Hth. unfold segment_test, arc_all.
  split; intros (j & Hj & [H|H]); exists j; (split; [exact Hj|]); [left|right|left|right];
    intros i Hi; specialize (H i Hi);
    rewrite dget_circle in * by (apply Z.mod_pos_bound; lia); lia.
Qed.

Lemma arc9_score_range d :
  (forall k, 0 <= k < 16 -> - 255 <= dget d k <= 255) ->
  - 1 <= arc9_score_of_circle d <= 254.
Proof.
  intros Hd. split.
  - destruct (arc9_score_ge d 0 ltac:(lia)) as [_ H].
    unfold arc9_score_of_circle. cbv zeta.
    set (dark := max_list 0 _).
    assert (0 <= dark) by (unfold dark; apply le_max_list; left; lia).
    assert (min_list (- dark) (map (fun j => arc_max (arc9 d j)) starts16) <= - dark)
      by (apply min_list_le; left; lia).
    lia.
  - destruct (Z_le_gt_dec (arc9_score_of_circle d) 254) as [|Hgt]; [assumption|].
    assert (H : 255 <= arc9_score_of_circle d) by lia.
    apply arc9_score_ge in H; [|lia]. destruct H as (j & Hj & [H|H]);
      specialize (H 0 ltac:(lia));
      pose proof (Hd ((j + 0) mod 16) ltac:(apply Z.mod_pos_bound; lia)); lia.
Qed.

End ScoreFacts.

Module DetectFacts.
Import CornerDetector DetectorNotions ScanNotions KernelFacts.

Lemma In_work_items local l :
  In l (work_items local) <-> 0 <= fst l < fst local /\ 0 <= snd l < snd local.
Proof.
  unfold work_items. rewrite in_flat_map. split.
  - intros (lx & Hx & Hl). rewrite in_map_iff in Hl. destruct Hl as (ly & <- & Hy).
    rewrite In_seqZ in Hx, Hy. simpl. lia.
  - intros [Hx Hy]. exists (fst l). rewrite In_seqZ. split; [lia|].
    apply in_map_iff. exists (snd l). rewrite In_seqZ. split; [|lia].
    destruct l; reflexivity.
Qed.

Lemma fast_item_spec p t min_x max_x min_y max_y l_x l_y key :
  0 <= min_x < 2 ^ 31 -> 3 <= max_x < 2 ^ 31 ->
  0 <= min_y < 2 ^ 31 -> 3 <= max_y < 2 ^ 31 ->
  0 <= l_x < 2 ^ 32 -> 0 <= l_y < 2 ^ 32 ->
  (In key (fast_item p t min_x max_x min_y max_y l_x l_y) <->
   fst key = l_x + min_x + 3 /\
   (exists i, 0 <= i < 8 /\ snd key = l_y * 8 + min_y + 3 + i) /\
   fst key < max_x - 3 /\ snd key < max_y - 3 /\
   candidate p t key = true).
Proof.
  intros Hx0 Hx1 Hy0 Hy1 Hlx Hly. unfold fast_item, candidate. cbv zeta.
  rewrite in_flat_map. unfold ROWS_PER_THREAD.
  rewrite (u64_small (l_x + min_x + 3)) by lia.
  rewrite (u64_small (l_y * 8 + min_y + 3)) by lia.
  rewrite (u64_small (max_x - 3)), (u64_small (max_y - 3)) by lia.
  split.
  - intros (i & Hi & Hk). rewrite In_seqZ in Hi.
    rewrite (u64_small (l_y * 8 + min_y + 3 + i)) in Hk by lia.
    destruct (Z.ltb_spec (l_x + min_x + 3) (max_x - 3)); simpl in Hk; [|contradiction].
    destruct (Z.ltb_spec (l_y * 8 + min_y + 3 + i) (max_y - 3)); simpl in Hk; [|contradiction].
    destruct (mask_check p && _) eqn:Hm; [contradiction|].
    destruct (fast_pixel _ _ _ _) eqn:Hf; [|contradiction].
    destruct Hk as [<-|[]]. cbn [fst snd].
    rewrite (i32_small (l_x + min_x + 3)), (i32_small (l_y * 8 + min_y + 3 + i)) by lia.
    split; [reflexivity|]. split; [exists i; split; [lia|reflexivity]|].
    split; [lia|]. split; [lia|].
    rewrite Hm, Hf. reflexivity.
  - intros (Hx & (i & Hi & Hy) & Hxm & Hym & Hc).
    exists i. rewrite In_seqZ. split; [lia|].
    rewrite (u64_small (l_y * 8 + min_y + 3 + i)) by lia.
    destruct (Z.ltb_spec (l_x + min_x + 3) (max_x - 3)); [|lia].
    destruct (Z.ltb_spec (l_y * 8 + min_y + 3 + i) (max_y - 3)); [|lia].
    cbn [andb]. rewrite (i32_small (l_x + min_x + 3)), (i32_small (l_y * 8 + min_y + 3 + i)) by lia.
    destruct key as [x y]. cbn [fst snd] in *. subst x y.
    apply andb_prop in Hc as [Hm Hf]. apply negb_true_iff in Hm.
    rewrite Hm, Hf. left. reflexivity.
Qed.

(** what the detector leaves in [local_key] *)
Lemma detect_spec p gx gy t keys min_x max_x min_y max_y :
  group_pos_x_ptr p !! Z.to_nat gx = Some (min_x, max_x) ->
  group_pos_y_ptr p !! Z.to_nat gy = Some (min_y, max_y) ->
  0 <= min_x < 2 ^ 31 -> 3 <= max_x < 2 ^ 31 ->
  0 <= min_y < 2 ^ 31 -> 3 <= max_y < 2 ^ 31 ->
  detect p gx gy t = Some keys ->
  forall key, In key keys <->
    scanned p min_x max_x min_y max_y key /\ candidate p t key = true.
Proof.
  intros Hgx Hgy Hx0 Hx1 Hy0 Hy1. unfold detect. rewrite Hgx, Hgy.
  destruct (_ <=? _); [|discriminate]. intros H. injection H as <-.
  intros key. rewrite in_flat_map. pose proof (getLocalRange_bound p) as [Bx By].
  unfold scanned, ROWS_PER_THREAD. split.
  - intros (l & Hl & Hk). apply In_work_items in Hl.
    apply fast_item_spec in Hk; try lia.
    destruct Hk as (Hx & (i & Hi & Hy) & Hxm & Hym & Hc).
    split; [|exact Hc]. lia.
  - intros ((Hx & Hlx & Hy & Hly) & Hc).
    exists (fst key - (min_x + 3), (snd key - (min_y + 3)) / 8).
    pose proof (Z.div_mod (snd key - (min_y + 3)) 8 ltac:(lia)) as Hdm.
    pose proof (Z.mod_pos_bound (snd key - (min_y + 3)) 8 ltac:(lia)) as Hmb.
    split.
    + apply In_work_items. cbn [fst snd]. split; [lia|].
      split; [apply Z.div_pos; lia|]. apply Z.div_lt_upper_bound; lia.
    + cbn [fst snd].
      assert (Hq : 0 <= (snd key - (min_y + 3)) / 8 <= snd key - (min_y + 3)).
      { split; [apply Z.div_pos; lia|]. apply Z.div_le_upper_bound; lia. }
      apply (fast_item_spec p t min_x max_x min_y max_y _ _ key Hx0 Hx1 Hy0 Hy1);
        [lia | lia |].
      split; [lia|]. split; [|split; [lia|split; [lia|exact Hc]]].
      exists ((snd key - (min_y + 3)) mod 8). split; [exact Hmb|]. lia.
Qed.

(** *** The local range *)

Lemma align32_eq total grain :
  0 < grain -> 0 <= total -> total + grain - 1 < 2 ^ 32 ->
  TilePartitioner.align32 total grain = (total + grain - 1) / grain * grain.
Proof.
  intros Hg Ht Hs. unfold TilePartitioner.align32. apply align_small; assumption.
Qed.

Lemma local_range_shape p :
  0 <= cell_size p -> 0 <= overlap p -> cell_size p + overlap p + 31 < 2 ^ 32 ->
  let local := TilePartitioner.getLocalRange p in
  cell_size p + overlap p <= fst local < cell_size p + overlap p + 32 /\
  fst local mod 32 = 0 /\
  snd local mod 8 = 0 /\
  cell_size p + overlap p - 7 <= 8 * snd local /\
  (8 * snd local < cell_size p + overlap p - 6 <-> (cell_size p + overlap p) mod 64 = 7).
Proof.
  intros Hc Ho Hs. unfold TilePartitioner.getLocalRange. cbv zeta. cbn [fst snd].
  unfold optimizedLocalWidth, ROWS_PER_THREAD.
  rewrite (u32_small (cell_size p + overlap p)) by lia.
  set (n := cell_size p + overlap p) in *.
  assert (Hn8 : 0 <= n / 8 <= n).
  { split; [apply Z.div_pos; lia|]. apply Z.div_le_upper_bound; lia. }
  rewrite (align32_eq n 32), (align32_eq (n / 8) 8) by lia.
  pose proof (Z.div_mod (n + 32 - 1) 32 ltac:(lia)) as D1.
  pose proof (Z.mod_pos_bound (n + 32 - 1) 32 ltac:(lia)) as M1.
  pose proof (Z.div_mod n 8 ltac:(lia)) as D2.
  pose proof (Z.mod_pos_bound n 8 ltac:(lia)) as M2.
  pose proof (Z.div_mod (n / 8 + 8 - 1) 8 ltac:(lia)) as D3.
  pose proof (Z.mod_pos_bound (n / 8 + 8 - 1) 8 ltac:(lia)) as M3.
  pose proof (Z.div_mod n 64 ltac:(lia)) as D4.
  pose proof (Z.mod_pos_bound n 64 ltac:(lia)) as M4.
  split; [lia|]. split; [apply Z.mod_mul; lia|]. split; [apply Z.mod_mul; lia|].
  split; [lia|]. lia.
Qed.

End DetectFacts.

(** ** The suppressor *)

Module NMSFacts.
Import Suppressor NMS SuppressorNotions.

Lemma b2z_sum2 a b : (Z.b2z a + Z.b2z b =? 2) = a && b.
Proof. destruct a, b; reflexivity. Qed.

Lemma b2z_sum6 a b c d e f :
  (Z.b2z a + Z.b2z b + Z.b2z c + Z.b2z d + Z.b2z e + Z.b2z f =? 6)
  = a && b && c && d && e && f.
Proof. destruct a, b, c, d, e, f; reflexivity. Qed.

Lemma nms_accept_eq p gx gy key gpx gpy gpx_at_y :
  group_pos_x_ptr p !! Z.to_nat gx = Some gpx ->
  group_pos_y_ptr p !! Z.to_nat gy = Some gpy ->
  group_pos_x_ptr p !! Z.to_nat gy = Some gpx_at_y ->
  exists b,
    nms_accept p gx gy key
    = Some (b, cornerScore (src_image_ptr p) (u32 (snd key * image_steps p) + fst key)
                 (i32 (image_steps p))) /\
    (b = true <-> nms_rule p gpx gpy gpx_at_y key).
Proof.
  intros Hx Hy Hxy. unfold nms_accept, nms_rule. rewrite Hx, Hy, Hxy. cbv zeta.
  set (step := image_steps p).
  set (img := u32 (snd key * step) + fst key).
  set (x := fst key - fst gpx). set (y := snd key - fst gpx_at_y).
  set (cols := snd gpx - fst gpx). set (rows := snd gpy - fst gpy).
  set (sc := fun q => cornerScore (src_image_ptr p) q (i32 step)).
  change (cornerScore (src_image_ptr p) img (i32 step)) with (sc img).
  change (cornerScore (src_image_ptr p) (img - 1) (i32 step)) with (sc (img - 1)).
  change (cornerScore (src_image_ptr p) (img + 1) (i32 step)) with (sc (img + 1)).
  change (cornerScore (src_image_ptr p) (img - step) (i32 step)) with (sc (img - step)).
  change (cornerScore (src_image_ptr p) (img + step) (i32 step)) with (sc (img + step)).
  change (cornerScore (src_image_ptr p) (img - step - 1) (i32 step)) with (sc (img - step - 1)).
  change (cornerScore (src_image_ptr p) (img - step + 1) (i32 step)) with (sc (img - step + 1)).
  change (cornerScore (src_image_ptr p) (img + step - 1) (i32 step)) with (sc (img + step - 1)).
  change (cornerScore (src_image_ptr p) (img + step + 1) (i32 step)) with (sc (img + step + 1)).
  assert (Hrule :
    ((x <? 4) || (sc img >? sc (img - 1))) && ((y <? 4) || (sc img >? sc (img - step)))
    && (((x >=? cols - 4) || (sc img >? sc (img + 1)))
        && ((y >=? rows - 4) || (sc img >? sc (img + step)))
        && ((x <? 4) || (y <? 4) || (sc img >? sc (img - step - 1)))
        && ((x >=? cols - 4) || (y <? 4) || (sc img >? sc (img - step + 1)))
        && ((x <? 4) || (y >=? rows - 4) || (sc img >? sc (img + step - 1)))
        && ((x >=? cols - 4) || (y >=? rows - 4) || (sc img >? sc (img + step + 1)))) = true
    <-> forall dx dy, - 1 <= dx <= 1 -> - 1 <= dy <= 1 -> (dx, dy) <> (0, 0) ->
          (dx = - 1 /\ x < 4) \/ (dx = 1 /\ cols - 4 <= x) \/
          (dy = - 1 /\ y < 4) \/ (dy = 1 /\ rows - 4 <= y) \/
          sc (img + dy * step + dx) < sc img).
  { rewrite !andb_true_iff, !orb_true_iff, !Z.ltb_lt, !Z.geb_le, !Z.gtb_lt. split.
    - intros ((A1 & A2) & ((((A3 & A4) & A5) & A6) & A7) & A8) dx dy Hdx Hdy Hne.
      assert (Cx : dx = -1 \/ dx = 0 \/ dx = 1) by lia.
      assert (Cy : dy = -1 \/ dy = 0 \/ dy = 1) by lia.
      destruct Cx as [->|[->| ->]]; destruct Cy as [->|[->| ->]];
        try congruence;
        match goal with
        | |- context [sc ?q < _] =>
            match type of A1 with _ \/ sc ?a < _ => first
              [ replace q with a by lia; lia
              | match type of A2 with _ \/ sc ?a < _ => replace q with a by lia; lia end
              | match type of A3 with _ \/ sc ?a < _ => replace q with a by lia; lia end
              | match type of A4 with _ \/ sc ?a < _ => replace q with a by lia; lia end
              | match type of A5 with _ \/ sc ?a < _ => replace q with a by lia; lia end
              | match type of A6 with _ \/ sc ?a < _ => replace q with a by lia; lia end
              | match type of A7 with _ \/ sc ?a < _ => replace q with a by lia; lia end
              | match type of A8 with _ \/ sc ?a < _ => replace q with a by lia; lia end ]
            end
        end.
    - intros H.
      pose proof (H (-1) 0 ltac:(lia) ltac:(lia) ltac:(congruence)) as A1.
      pose proof (H 0 (-1) ltac:(lia) ltac:(lia) ltac:(congruence)) as A2.
      pose proof (H 1 0 ltac:(lia) ltac:(lia) ltac:(congruence)) as A3.
      pose proof (H 0 1 ltac:(lia) ltac:(lia) ltac:(congruence)) as A4.
      pose proof (H (-1) (-1) ltac:(lia) ltac:(lia) ltac:(congruence)) as A5.
      pose proof (H 1 (-1) ltac:(lia) ltac:(lia) ltac:(congruence)) as A6.
      pose proof (H (-1) 1 ltac:(lia) ltac:(lia) ltac:(congruence)) as A7.
      pose proof (H 1 1 ltac:(lia) ltac:(lia) ltac:(congruence)) as A8.
      replace (img + 0 * step + -1) with (img - 1) in A1 by lia.
      replace (img + -1 * step + 0) with (img - step) in A2 by lia.
      replace (img + 0 * step + 1) with (img + 1) in A3 by lia.
      replace (img + 1 * step + 0) with (img + step) in A4 by lia.
      replace (img + -1 * step + -1) with (img - step - 1) in A5 by lia.
      replace (img + -1 * step + 1) with (img - step + 1) in A6 by lia.
      replace (img + 1 * step + -1) with (img + step - 1) in A7 by lia.
      replace (img + 1 * step + 1) with (img + step + 1) in A8 by lia.
      repeat split; lia. }
  rewrite b2z_sum2, b2z_sum6.
  destruct (((x <? 4) || (sc img >? sc (img - 1))) && ((y <? 4) || (sc img >? sc (img - step))))
    eqn:Hfirst; cbn [negb].
  - eexists. split; [reflexivity|].
    etransitivity; [|exact Hrule]. rewrite andb_true_l. reflexivity.
  - exists false. split; [reflexivity|].
    etransitivity; [|exact Hrule]. rewrite andb_false_l. reflexivity.
Qed.

End NMSFacts.

(** ** The second kernel: bounds, order of the work-items, moments *)

Module OrderFacts.
Section OrderFacts.
Context {FO : FloatOps}.
Import Descriptor DescriptorNotions OrderNotions DescriptorFacts.

Lemma orb_item_Some p idx st :
  0 <= idx -> (is_Some (orb_item p idx st) <-> in_bounds p st idx).
Proof.
  intros H0. unfold in_bounds.
  destruct (Z_lt_le_dec idx (num_keypoints p)) as [Hlt|Hge].
  2:{ rewrite orb_item_padding by exact Hge. split; [intros _ H; lia | eauto]. }
  unfold orb_item, orientationOps, descriptorOps.
  destruct (Z.ltb_spec idx (num_keypoints p)); [|lia].
  destruct (keypoints_ptr st !! Z.to_nat idx) as [kpt|] eqn:Hk.
  - pose proof (lookup_lt_Some _ _ _ Hk) as Hlen.
    cbn [keypoints_ptr descriptors_ptr].
    rewrite list_lookup_insert_eq by exact Hlen.
    unfold fits_int.
    destruct (Z.leb_spec (- 2 ^ 31) (idx * DESCRIPTOR_SIZE));
      [|unfold DESCRIPTOR_SIZE in *; lia].
    destruct (Z.leb_spec (idx * DESCRIPTOR_SIZE) INT_MAX); cbn [andb].
    2:{ split; [intros [x Hx]; discriminate | intros H'; specialize (H' Hlt); lia]. }
    destruct (Z.leb_spec 0 (idx * DESCRIPTOR_SIZE)); [|unfold DESCRIPTOR_SIZE in *; lia].
    cbn [andb].
    destruct (Z.leb_spec (idx * DESCRIPTOR_SIZE + DESCRIPTOR_SIZE)
                (Z.of_nat (length (descriptors_ptr st)))).
    + split; [intros _ _; repeat split; lia | eauto].
    + split; [intros [x Hx]; discriminate | intros H'; specialize (H' Hlt); lia].
  - apply lookup_ge_None in Hk.
    split; [intros [x Hx]; discriminate | intros H'; specialize (H' Hlt); lia].
Qed.

Lemma in_bounds_frame p st st' idx :
  frame p st st' -> (in_bounds p st' idx <-> in_bounds p st idx).
Proof.
  intros [L1 L2 _ _ _]. unfold in_bounds. rewrite L1, L2. reflexivity.
Qed.

Lemma run_items_Some p : forall ids st,
  Forall (fun i => 0 <= i) ids ->
  (is_Some (run_items p ids st) <-> Forall (in_bounds p st) ids).
Proof.
  induction ids as [|i ids IH]; intros st Hall; simpl.
  - split; [constructor | eauto].
  - apply Forall_cons in Hall. destruct Hall as [Hi Hall].
    rewrite Forall_cons, <- (orb_item_Some p i st Hi).
    destruct (orb_item p i st) as [s|] eqn:Hs.
    + rewrite (IH s Hall).
      assert (Hf : frame p st s) by (eapply orb_item_frame; eauto).
      split.
      * intros H. split; [eauto|]. eapply Forall_impl; [exact H|].
        intros x Hx. apply (in_bounds_frame p st s x Hf). exact Hx.
      * intros [_ H]. eapply Forall_impl; [exact H|].
        intros x Hx. apply (in_bounds_frame p st s x Hf). exact Hx.
    + split; [intros [x Hx]; discriminate | intros [[x Hx] _]; discriminate].
Qed.

Lemma orb_kernel_Some p st :
  0 <= num_keypoints p ->
  (is_Some (orb_kernel p st) <->
   num_keypoints p <= 2 ^ 26 /\
   num_keypoints p <= Z.of_nat (length (keypoints_ptr st)) /\
   num_keypoints p * DESCRIPTOR_SIZE <= Z.of_nat (length (descriptors_ptr st))).
Proof.
  intros Hn. unfold orb_kernel.
  rewrite run_items_Some.
  2:{ apply Forall_forall. intros x Hx. apply elem_of_seqZ in Hx. lia. }
  pose proof (aligned_width_ge (num_keypoints p)) as Hw.
  rewrite Forall_forall. unfold in_bounds, DESCRIPTOR_SIZE, INT_MAX. split.
  - intros H. destruct (Z.eq_dec (num_keypoints p) 0) as [E|E]; [lia|].
    specialize (H (num_keypoints p - 1)).
    destruct H as (H0 & H1 & H2); [apply elem_of_seqZ; lia | lia | lia].
  - intros (H0 & H1 & H2) x Hx Hlt. apply elem_of_seqZ in Hx. lia.
Qed.

(** the bytes after [byte_loop] *)
Lemma byte_loop_lookup p center desc cosa sina ds (m : nat) :
  0 <= desc -> desc + DESCRIPTOR_SIZE <= Z.of_nat (length ds) ->
  snd (byte_loop p center desc cosa sina ds) !! m
  = if decide (desc <= Z.of_nat m < desc + DESCRIPTOR_SIZE)
    then Some (u8 (descriptor_byte p center (32 * (Z.of_nat m - desc)) cosa sina))
    else ds !! m.
Proof.
  intros Hd Hl.
  destruct (byte_loop_spec p center desc cosa sina ds Hd Hl) as (L & F & C).
  destruct (decide _) as [Hin|Hout].
  - specialize (C (Z.of_nat m - desc)).
    replace (Z.to_nat (desc + (Z.of_nat m - desc))) with m in C by lia.
    apply C. unfold DESCRIPTOR_SIZE in *. lia.
  - apply F. lia.
Qed.

Lemma byte_loop_length p center desc cosa sina ds :
  0 <= desc -> desc + DESCRIPTOR_SIZE <= Z.of_nat (length ds) ->
  length (snd (byte_loop p center desc cosa sina ds)) = length ds.
Proof.
  intros Hd Hl.
  destruct (byte_loop_spec p center desc cosa sina ds Hd Hl) as (L & _). exact L.
Qed.

Lemma byte_loop_commute p c1 d1 cs1 sn1 c2 d2 cs2 sn2 ds :
  0 <= d1 -> d1 + DESCRIPTOR_SIZE <= Z.of_nat (length ds) ->
  0 <= d2 -> d2 + DESCRIPTOR_SIZE <= Z.of_nat (length ds) ->
  d1 + DESCRIPTOR_SIZE <= d2 \/ d2 + DESCRIPTOR_SIZE <= d1 ->
  snd (byte_loop p c2 d2 cs2 sn2 (snd (byte_loop p c1 d1 cs1 sn1 ds)))
  = snd (byte_loop p c1 d1 cs1 sn1 (snd (byte_loop p c2 d2 cs2 sn2 ds))).
Proof.
  intros H1 L1 H2 L2 Hdis. apply list_eq. intros m.
  rewrite !byte_loop_lookup by (rewrite ?byte_loop_length; assumption).
  repeat destruct (decide _); try reflexivity; lia.
Qed.

Lemma orb_state_eq (a b : orb_state) :
  keypoints_ptr a = keypoints_ptr b -> descriptors_ptr a = descriptors_ptr b -> a = b.
Proof. destruct a, b. simpl. intros -> ->. reflexivity. Qed.

Lemma orb_item_commute p i j st :
  0 <= i -> 0 <= j -> i <> j -> then_item p i j st = then_item p j i st.
Proof.
  intros Hi Hj Hne. unfold then_item.
  destruct (Z_lt_le_dec i (num_keypoints p)) as [Hin|Hin].
  2:{ rewrite (orb_item_padding p i st) by exact Hin.
      destruct (orb_item p j st) as [s|]; [|reflexivity].
      rewrite orb_item_padding by exact Hin. reflexivity. }
  destruct (Z_lt_le_dec j (num_keypoints p)) as [Hjn|Hjn].
  2:{ rewrite (orb_item_padding p j st) by exact Hjn.
      destruct (orb_item p i st) as [s|]; [|reflexivity].
      rewrite orb_item_padding by exact Hjn. reflexivity. }
  destruct (orb_item p i st) as [si|] eqn:Ei; destruct (orb_item p j st) as [sj|] eqn:Ej.
  - pose proof (orb_item_frame p i st si Hi Ei) as Fi.
    pose proof (orb_item_frame p j st sj Hj Ej) as Fj.
    assert (Bj : is_Some (orb_item p j si)).
    { apply orb_item_Some; [exact Hj|]. apply (in_bounds_frame p st si j Fi).
      apply orb_item_Some; [exact Hj|]. rewrite Ej. eauto. }
    assert (Bi : is_Some (orb_item p i sj)).
    { apply orb_item_Some; [exact Hi|]. apply (in_bounds_frame p st sj i Fj).
      apply orb_item_Some; [exact Hi|]. rewrite Ei. eauto. }
    destruct Bj as [sij Eij], Bi as [sji Eji]. rewrite Eij, Eji. f_equal.
    apply orb_item_effect in Ei as (ki & Ki & KPi & Li & Di); [|lia].
    apply orb_item_effect in Ej as (kj & Kj & KPj & Lj & Dj); [|lia].
    apply orb_item_effect in Eij as (kj' & Kj' & KPij & Lij & Dij); [|lia].
    apply orb_item_effect in Eji as (ki' & Ki' & KPji & Lji & Dji); [|lia].
    rewrite KPi, list_lookup_insert_ne, Kj in Kj' by lia.
    rewrite KPj, list_lookup_insert_ne, Ki in Ki' by lia.
    apply Some_eq_inv in Kj', Ki'. subst kj' ki'.
    apply orb_state_eq.
    + rewrite KPij, KPji, KPi, KPj. apply list_insert_insert_ne. lia.
    + rewrite Dij, Dji, Di, Dj.
      apply byte_loop_commute; unfold DESCRIPTOR_SIZE in *; lia.
  - pose proof (orb_item_frame p i st si Hi Ei) as Fi.
    destruct (orb_item p j si) as [s|] eqn:E; [|reflexivity].
    exfalso. assert (B : is_Some (orb_item p j st)).
    { apply orb_item_Some; [exact Hj|]. apply (in_bounds_frame p st si j Fi).
      apply orb_item_Some; [exact Hj|]. rewrite E. eauto. }
    rewrite Ej in B. destruct B as [x Hx]. discriminate.
  - pose proof (orb_item_frame p j st sj Hj Ej) as Fj.
    destruct (orb_item p i sj) as [s|] eqn:E; [|reflexivity].
    exfalso. assert (B : is_Some (orb_item p i st)).
    { apply orb_item_Some; [exact Hi|]. apply (in_bounds_frame p st sj i Fj).
      apply orb_item_Some; [exact Hi|]. rewrite E. eauto. }
    rewrite Ei in B. destruct B as [x Hx]. discriminate.
  - reflexivity.
Qed.

Lemma run_items_perm p ids ids' :
  Permutation ids ids' -> Forall (fun i => 0 <= i) ids ->
  forall st, run_items p ids st = run_items p ids' st.
Proof.
  induction 1 as [|x l l' HP IH|x y l|l l' l'' HP1 IH1 HP2 IH2]; intros Hall st.
  - reflexivity.
  - apply Forall_cons in Hall. destruct Hall as [Hx Hall]. simpl.
    destruct (orb_item p x st); [apply IH; exact Hall | reflexivity].
  - apply Forall_cons in Hall. destruct Hall as [Hy Hall].
    apply Forall_cons in Hall. destruct Hall as [Hx Hall].
    destruct (Z.eq_dec x y) as [->|Hne]; [reflexivity|].
    simpl. pose proof (orb_item_commute p y x st Hy Hx ltac:(congruence)) as Hc.
    unfold then_item in Hc.
    destruct (orb_item p y st) as [sy|]; destruct (orb_item p x st) as [sx|];
      try rewrite Hc; try rewrite <- Hc; reflexivity.
  - rewrite IH1 by exact Hall. apply IH2.
    exact (Permutation_Forall HP1 Hall).
Qed.

End OrderFacts.
End OrderFacts.

Module MomentFacts.
Section MomentFacts.
Context {FO : FloatOps}.
Import Descriptor MomentNotions.

Lemma fold_left_inv {A B} (I : A -> Prop) (f : A -> B -> A) (l : list B) : forall a,
  I a -> (forall s x, In x l -> I s -> I (f s x)) -> I (fold_left f l a).
Proof.
  induction l as [|x l IH]; intros a Ha Hf; simpl; [exact Ha|].
  apply IH; [apply Hf; [left; reflexivity | exact Ha]|].
  intros s y Hy. apply Hf. right. exact Hy.
Qed.

(** a sum of [u * f u] over [-d .. d] vanishes when [f] is even *)
Lemma odd_sum (f : Z -> Z) (n : nat) : forall a,
  (forall u, 0 <= u <= Z.of_nat n -> f (- u) = f u) ->
  fold_left (fun acc u => acc + u * f u) (seqZ (- Z.of_nat n) (2 * Z.of_nat n + 1)) a = a.
Proof.
  induction n as [|n IH]; intros a Hf.
  - simpl. lia.
  - replace (2 * Z.of_nat (S n) + 1) with (1 + (2 * Z.of_nat n + 1) + 1) by lia.
    rewrite seqZ_app by lia. rewrite seqZ_app by lia.
    rewrite !fold_left_app.
    replace (- Z.of_nat (S n) + 1) with (- Z.of_nat n) by lia.
    replace (- Z.of_nat (S n) + (1 + (2 * Z.of_nat n + 1))) with (Z.of_nat (S n)) by lia.
    change (seqZ (- Z.of_nat (S n)) 1) with [- Z.of_nat (S n)].
    change (seqZ (Z.of_nat (S n)) 1) with [Z.of_nat (S n)].
    cbn [fold_left]. rewrite IH by (intros u Hu; apply Hf; lia).
    rewrite (Hf (Z.of_nat (S n))) by lia. lia.
Qed.

Lemma odd_sum_Z (f : Z -> Z) (d a : Z) :
  (forall u, 0 <= u <= d -> f (- u) = f u) ->
  fold_left (fun acc u => acc + u * f u) (seqZ (- d) (2 * d + 1)) a = a.
Proof.
  intros Hf. destruct (Z_lt_le_dec d 0) as [Hd|Hd].
  - unfold seqZ. replace (Z.to_nat (2 * d + 1)) with O by lia. reflexivity.
  - rewrite <- (Z2Nat.id d) by exact Hd. apply odd_sum.
    intros u Hu. apply Hf. lia.
Qed.

Lemma line_split (vp vm : Z -> Z) (l : list Z) : forall a b,
  fold_left (fun (acc : Z * Z) u => (fst acc + (vp u - vm u), snd acc + u * (vp u + vm u)))
            l (a, b)
  = (fold_left (fun acc u => acc + (vp u - vm u)) l a,
     fold_left (fun acc u => acc + u * (vp u + vm u)) l b).
Proof.
  induction l as [|u l IH]; intros a b; simpl; [reflexivity|]. apply IH.
Qed.

Lemma patch_row0 p center u : src_image_ptr p (center + u) = patch p center u 0.
Proof. unfold patch. f_equal. lia. Qed.

Lemma patch_plus p center u v :
  src_image_ptr p (center + (u + v * image_steps p)) = patch p center u v.
Proof. reflexivity. Qed.

Lemma patch_minus p center u v :
  src_image_ptr p (center + (u - v * image_steps p)) = patch p center u (- v).
Proof. unfold patch. f_equal. lia. Qed.

Lemma moments_m10 p center :
  mirror_lr p center -> snd (moments p center) = 0.
Proof.
  intros Hs. unfold moments.
  apply (fold_left_inv (fun m : Z * Z => snd m = 0)).
  - cbn [snd]. unfold HALF_PATCH_SIZE.
    apply (odd_sum_Z (fun u => src_image_ptr p (center + u)) 15 0).
    intros u Hu. rewrite !patch_row0. apply Hs.
    unfold in_patch, HALF_PATCH_SIZE. simpl. lia.
  - intros m v Hin Hm. cbv zeta. cbn [snd].
    apply list_elem_of_In, elem_of_seqZ in Hin. unfold HALF_PATCH_SIZE in Hin.
    rewrite (line_split (fun u => src_image_ptr p (center + (u + v * image_steps p)))
                        (fun u => src_image_ptr p (center + (u - v * image_steps p)))).
    cbn [snd]. rewrite Hm.
    apply (odd_sum_Z (fun u => src_image_ptr p (center + (u + v * image_steps p))
                               + src_image_ptr p (center + (u - v * image_steps p)))).
    intros u Hu. rewrite !patch_plus, !patch_minus.
    rewrite (Hs u v), (Hs u (- v)); [reflexivity | |];
      unfold in_patch, HALF_PATCH_SIZE;
      (split; [lia|]); [destruct (Z.eqb_spec (- v) 0) | destruct (Z.eqb_spec v 0)];
      try lia; rewrite ?Z.abs_opp, (Z.abs_eq v) by lia; lia.
Qed.

Lemma moments_m01 p center :
  mirror_ud p center -> fst (moments p center) = 0.
Proof.
  intros Hs. unfold moments.
  apply (fold_left_inv (fun m : Z * Z => fst m = 0)); [reflexivity|].
  intros m v Hin Hm. cbv zeta. cbn [fst].
  apply list_elem_of_In, elem_of_seqZ in Hin. unfold HALF_PATCH_SIZE in Hin.
  rewrite (line_split (fun u => src_image_ptr p (center + (u + v * image_steps p)))
                      (fun u => src_image_ptr p (center + (u - v * image_steps p)))).
  cbn [fst]. rewrite Hm.
  assert (Hz : fold_left
                 (fun acc u => acc + (src_image_ptr p (center + (u + v * image_steps p))
                                      - src_image_ptr p (center + (u - v * image_steps p))))
                 (seqZ (- u_max_ptr p v) (2 * u_max_ptr p v + 1)) 0 = 0).
  { apply (fold_left_inv (fun a => a = 0)); [reflexivity|].
    intros s u Hu Hs'. apply list_elem_of_In, elem_of_seqZ in Hu.
    rewrite patch_plus, patch_minus, (Hs u v), Hs'; [lia|].
    unfold in_patch, HALF_PATCH_SIZE. split; [lia|].
    destruct (Z.eqb_spec v 0); [lia|]. rewrite (Z.abs_eq v) by lia. lia. }
  rewrite Hz. lia.
Qed.

End MomentFacts.
End MomentFacts.

(** ** The host side *)

Module HostFacts.
Section HostFacts.
Context {FO : FloatOps}.
Import TilePartitioner Kernel.

Lemma col_bounds_terminates (p : FastKernelParams) :
  1 <= cell_size p -> 1 <= num_images p -> 1 <= image_cols p / num_images p ->
  0 <= edge_clip p <= image_cols p -> 0 <= overlap p ->
  4 * image_cols p + 2 * cell_size p + overlap p < 2 ^ 31 ->
  exists fuel tiles, col_bounds fuel p = Done tiles.
Proof.
  intros Hc Hn Hmono He Ho Hsmall.
  assert (Hm : image_cols p / num_images p <= image_cols p).
  { apply Z.div_le_upper_bound; [lia|].
    assert (0 <= image_cols p) by lia.
    assert (1 * image_cols p <= num_images p * image_cols p)
      by (apply Z.mul_le_mono_nonneg_r; lia).
    lia. }
  unfold col_bounds.
  rewrite (i32_small (image_cols p / num_images p)) by lia.
  rewrite (i32_small (image_cols p)) by lia.
  assert (I : PartitionerNotions.col_inv p (image_cols p / num_images p) (col_init p)).
  { unfold col_init.
    rewrite (i32_small (image_cols p / num_images p)) by lia.
    split; cbn; try lia. intros _ H. contradiction. }
  destruct (PartitionerFacts.col_loop_terminates_from p (image_cols p / num_images p))
    with (n := S (Z.to_nat (PartitionerNotions.col_measure p (image_cols p / num_images p)
                              (col_init p))))
         (s := col_init p)
    as (fuel & tiles & Hrun); try assumption; try lia.
  exists fuel, tiles. exact Hrun.
Qed.

Lemma fastExtImpl_valid (a : fast_args) :
  let p := in_params a in
  let local := getLocalRange p in
  1 <= cell_size p -> 1 <= num_images p -> 1 <= image_cols p / num_images p ->
  0 <= overlap p -> 0 <= edge_clip p ->
  2 * edge_clip p <= image_cols p -> 2 * edge_clip p <= image_rows p ->
  4 * image_cols p + 2 * cell_size p + overlap p < 2 ^ 31 ->
  1 <= image_rows p < 2 ^ 32 ->
  (mask_check p = true -> image_cols p = mask_cols a /\ image_rows p = mask_rows a) ->
  group_pos_x_ptr p = [] \/ group_pos_y_ptr p = [] ->
  exists fuel gx gy after,
    UpdateGroupPosition fuel p = Done (gx, gy) /\
    fastExtImpl fuel a
    = Done (Ok (Submitted (Z.of_nat (length gx) * fst local, Z.of_nat (length gy) * snd local)
                          local after)).
Proof.
  intros p local Hc Hn Hmono Ho He Hw Hh Hsmall Hrows Hmask Hempty.
  destruct (col_bounds_terminates p) as (fuel & gx & Hrun); try assumption; try lia.
  assert (Hupd : UpdateGroupPosition fuel p = Done (gx, row_bounds p)).
  { unfold UpdateGroupPosition.
    destruct (Z.eqb_spec (num_images p) 0); [lia|].
    destruct (Z.eqb_spec (cell_size p) 0); [lia|]. cbn [orb].
    rewrite Hrun. reflexivity. }
  exists fuel, gx, (row_bounds p). eexists. split; [exact Hupd|].
  assert (Hcols : 1 <= image_cols p).
  { destruct (Z_lt_le_dec (image_cols p) 1) as [H|H]; [|exact H].
    exfalso.
    assert (image_cols p / num_images p <= 0); [|lia].
    apply Z.div_le_upper_bound; lia. }
  unfold fastExtImpl, FastExtKernel_new. fold p.
  destruct (Z.eqb_spec (image_cols p) 0); [lia|].
  destruct (Z.eqb_spec (image_rows p) 0).
  { exfalso. lia. }
  cbn [orb].
  assert (Hm : mask_check p
               && (negb (image_cols p =? mask_cols a) || negb (image_rows p =? mask_rows a))
               = false).
  { destruct (mask_check p); [|reflexivity].
    destruct (Hmask eq_refl) as [<- <-]. rewrite !Z.eqb_refl. reflexivity. }
  rewrite Hm.
  assert (He' : (Z.of_nat (length (group_pos_x_ptr p)) =? 0)
                || (Z.of_nat (length (group_pos_y_ptr p)) =? 0) = true).
  { destruct Hempty as [-> | ->]; simpl; [reflexivity | apply orb_true_r]. }
  rewrite He', Hupd.
  unfold getGlobalRange. cbv zeta.
  cbn [edge_clip image_cols image_rows group_x_size group_y_size group_pos_x_ptr
       group_pos_y_ptr].
  rewrite (u32_small (image_cols p - edge_clip p)) by lia.
  rewrite (u32_small (image_rows p - edge_clip p)) by lia.
  destruct (Z.gtb_spec (edge_clip p) (image_cols p - edge_clip p)); [lia|].
  destruct (Z.gtb_spec (edge_clip p) (image_rows p - edge_clip p)); [lia|].
  cbn [orb]. reflexivity.
Qed.

End HostFacts.
End HostFacts.

Module AlignFacts.

Lemma align_spec bits total grain :
  0 < grain -> 0 <= total -> total + grain - 1 < 2 ^ bits ->
  total <= align bits total grain < total + grain /\
  align bits total grain mod grain = 0 /\
  (forall k, total <= k * grain -> align bits total grain <= k * grain).
Proof.
  intros Hg Ht Hs. rewrite (align_small bits total grain Hg Ht Hs).
  pose proof (Z.div_mod (total + grain - 1) grain ltac:(lia)) as D.
  pose proof (Z.mod_pos_bound (total + grain - 1) grain Hg) as M.
  split; [lia|]. split; [apply Z.mod_mul; lia|].
  intros k Hk.
  assert ((total + grain - 1) / grain - 1 < k).
  { apply (Z.mul_lt_mono_pos_r grain); lia. }
  apply Z.mul_le_mono_nonneg_r; lia.
Qed.

(** beyond that bound the sum wraps: [align(4294967294u, 32u)] is 0 *)
Lemma align_wraps_at_uint32 : align 32 4294967294 32 = 0.
Proof. reflexivity. Qed.

(** the width of the launch of the second kernel is [align] at [size_t] *)
Lemma aligned_width_size_t {FO : FloatOps} n :
  0 <= n -> n + 15 < 2 ^ 64 -> Descriptor.aligned_width n = align 64 n 16.
Proof.
  intros H0 H1. unfold Descriptor.aligned_width. symmetry. apply align_small; lia.
Qed.

End AlignFacts.

(** ** The column table without edge clip *)

Module SpillFacts.
Import TilePartitioner PartitionerNotions PartitionerFacts SpillNotions.

Section Spill.
Variable p : FastKernelParams.
Hypothesis Hc : 1 <= cell_size p < image_cols p.
Hypothesis He : edge_clip p = 0.
Hypothesis Ho : 0 <= overlap p.
Hypothesis Hsmall : 4 * image_cols p + 2 * cell_size p + overlap p < 2 ^ 31.

Local Abbreviation W := (image_cols p).

Lemma spill_step_tile s :
  col_inv p W s -> spill_inv p s -> has_room p s ->
  next_min p W s <= W - edge_clip p /\ spill_inv p (tile_state p W s) \/
  In (spill_tile p) (group_x s).
Proof.
  intros I J Hroom.
  destruct (next_min_range p W ltac:(lia) ltac:(lia) ltac:(lia) s I) as [Hv Hv'].
  destruct I as [I1 I2 I3 I4 I5 I6 I7 I8 I9].
  destruct J as [J|[[J1 J2]|J]]; [| |right; exact J]; left.
  - (* inside the image *)
    assert (Hcw : current_width s = W) by (rewrite I3, J; lia).
    split.
    + destruct (Z_lt_le_dec (blk_idx s) 1) as [Hb|Hb].
      * unfold next_min. assert (blk_idx s = 0) as -> by lia. rewrite J, He. lia.
      * rewrite Hv' by lia. destruct Hroom; lia.
    + left. cbn. exact J.
  - (* the first pair of the second round *)
    assert (Hcw : current_width s = 2 * W) by (rewrite I3, J1; lia).
    assert (Hn : next_min p W s = W) by (unfold next_min; rewrite J1, J2, He; lia).
    split; [lia|].
    right. right. cbn [tile_state group_x]. apply in_or_app. right. left.
    unfold spill_tile, clamp_max. rewrite Hn, Hcw, He.
    destruct (Z.leb_spec 0 (2 * W)); [|lia]. cbn [andb].
    destruct (Z.gtb_spec (W + cell_size p + overlap p) (2 * W - 0)); f_equal; lia.
Qed.

Lemma spill_step_wrap s :
  col_inv p W s -> spill_inv p s -> ~ has_room p s -> spill_inv p (wrap_state W s).
Proof.
  intros I J Hroom.
  destruct I as [I1 I2 I3 I4 I5 I6 I7 I8 I9].
  destruct J as [J|[[J1 J2]|J]].
  - right. left. cbn. lia.
  - exfalso. apply Hroom. unfold has_room. right. rewrite I3, J1, He. lia.
  - right. right. exact J.
Qed.

Lemma col_loop_spill : forall fuel s g,
  col_inv p W s -> spill_inv p s ->
  col_loop fuel p W W s = Done g -> In (spill_tile p) g.
Proof.
  induction fuel as [|fuel IH]; intros s g I J; simpl; [discriminate|].
  destruct (has_room_dec p s) as [Hroom|Hno].
  - rewrite (col_step_tile p W ltac:(lia) ltac:(lia) ltac:(lia) Ho Hsmall s I Hroom).
    destruct (spill_step_tile s I J Hroom) as [[Hle J']|Hin].
    + destruct (Z.gtb_spec (next_min p W s) (W - edge_clip p)); [lia|].
      apply IH; [|exact J'].
      apply (tile_state_inv p W ltac:(lia) ltac:(lia) ltac:(lia) s I Hroom Hle).
    + destruct (Z.gtb_spec (next_min p W s) (W - edge_clip p)) as [Hgt|Hle].
      * intros H. injection H as <-. cbn [tile_state group_x].
        rewrite removelast_last. exact Hin.
      * apply IH.
        -- apply (tile_state_inv p W ltac:(lia) ltac:(lia) ltac:(lia) s I Hroom Hle).
        -- right. right. cbn [tile_state group_x]. apply in_or_app. left. exact Hin.
  - assert (Hno' : ~ has_room p s) by (unfold has_room; lia).
    rewrite (col_step_wrap p W ltac:(lia) ltac:(lia) ltac:(lia) Ho Hsmall s I Hno').
    apply IH.
    + apply (wrap_state_inv p W ltac:(lia) s I Hno').
    + apply spill_step_wrap; assumption.
Qed.

End Spill.
End SpillFacts.

(** ** The keypoint buffer across work-groups *)

Module AppendFacts.
Section AppendFacts.
Context {FO : FloatOps}.
Import Kernel Notions KernelFacts AppendNotions.

Lemma wrote_appended st st' keys store :
  buffer_ok st -> wrote st st' keys store -> appended st st' /\ buffer_ok st'.
Proof.
  intros [Hc Hl] [W1 W2 W3 W4]. split.
  - split; [lia | exact W2 |]. intros i Hi. apply W3. left. exact Hi.
  - unfold buffer_ok. rewrite W1, W2. split; [|exact Hl].
    destruct keys as [|k keys] using rev_ind; [simpl; lia|].
    destruct (W4 (length keys) k) as (old & Hold & _).
    { rewrite lookup_app_r by lia. rewrite Nat.sub_diag. reflexivity. }
    apply lookup_lt_Some in Hold. rewrite length_app in *. simpl. lia.
Qed.

Lemma appended_refl st : appended st st.
Proof. split; auto. lia. Qed.

Lemma appended_trans st1 st2 st3 : appended st1 st2 -> appended st2 st3 -> appended st1 st3.
Proof.
  intros [A1 A2 A3] [B1 B2 B3]. split; [lia | congruence |].
  intros i Hi. rewrite B3 by lia. apply A3. exact Hi.
Qed.

Lemma run_group_appended p gx gy st st' :
  buffer_ok st -> run_group p gx gy st = Some (tt, st') -> appended st st' /\ buffer_ok st'.
Proof.
  intros Hok. unfold run_group. intros H.
  apply fastExt_group_writes in H; [|exact Hok].
  destruct H as (keys & _ & W).
  set (st0 := {| keypoints_ptr := keypoints_ptr st; keypoints_count := keypoints_count st;
                 fast_calls := [] |}) in *.
  assert (Hok0 : buffer_ok st0) by exact Hok.
  destruct (wrote_appended st0 st' _ _ Hok0 W) as [A Hok']. split; [|exact Hok'].
  destruct A as [A1 A2 A3]. split; assumption.
Qed.

Lemma run_groups_appended p : forall groups st st',
  buffer_ok st -> run_groups p groups st = Some (tt, st') -> appended st st' /\ buffer_ok st'.
Proof.
  induction groups as [|g groups IH]; intros st st' Hok; simpl.
  - unfold dret. intros H. injection H as <-. split; [apply appended_refl | exact Hok].
  - unfold dbind. destruct (run_group p (fst g) (snd g) st) as [[[] st1]|] eqn:H1; [|discriminate].
    intros H. destruct (run_group_appended _ _ _ _ _ Hok H1) as [A1 Hok1].
    destruct (IH _ _ Hok1 H) as [A2 Hok2]. split; [|exact Hok2].
    eapply appended_trans; eauto.
Qed.

End AppendFacts.
End AppendFacts.

Lemma two_corners_byte : byte_image two_corners.
Proof. apply dotted_image_byte; [lia | repeat constructor; simpl; lia]. Qed.

(** X5.  Without edge clip ([edge_clip = 0], one image, cells narrower than
    the image) the column table ends with a pair that starts at column
    [image_cols], one past the last column of the image. *)
Theorem edge_clip_zero_tile_past_edge (p : FastKernelParams) :
  num_images p = 1 -> edge_clip p = 0 ->
  1 <= cell_size p < image_cols p -> 0 <= overlap p ->
  4 * image_cols p + 2 * cell_size p + overlap p < 2 ^ 31 ->
  exists fuel group_x group_y,
    TilePartitioner.UpdateGroupPosition fuel p = Done (group_x, group_y) /\
    In (image_cols p, Z.min (image_cols p + cell_size p + overlap p) (2 * image_cols p))
       group_x.
Proof.
  intros Hn He Hc Ho Hsmall.
  assert (Hmono : image_cols p / num_images p = image_cols p)
    by (rewrite Hn; apply Z.div_1_r).
  assert (I : PartitionerNotions.col_inv p (image_cols p) (TilePartitioner.col_init p)).
  { unfold TilePartitioner.col_init. rewrite Hmono.
    rewrite (i32_small (image_cols p)) by lia.
    split; cbn; try lia; try (intros _ H; contradiction). }
  destruct (PartitionerFacts.col_loop_terminates_from p (image_cols p))
    with (n := S (Z.to_nat (PartitionerNotions.col_measure p (image_cols p)
                              (TilePartitioner.col_init p))))
         (s := TilePartitioner.col_init p)
    as (fuel & gx & Hrun); try assumption; try lia.
  exists fuel, gx, (TilePartitioner.row_bounds p). split.
  - unfold TilePartitioner.UpdateGroupPosition, TilePartitioner.col_bounds.
    destruct (Z.eqb_spec (num_images p) 0); [lia|].
    destruct (Z.eqb_spec (cell_size p) 0); [lia|]. cbn [orb].
    rewrite Hmono, (i32_small (image_cols p)) by lia.
    rewrite Hrun. reflexivity.
  - apply (SpillFacts.col_loop_spill p Hc He Ho Hsmall fuel (TilePartitioner.col_init p) gx I);
      [|exact Hrun].
    left. reflexivity.
Qed.

Lemma edge_clip_zero_tile_past_edge_witness :
  exists fuel group_x group_y,
    TilePartitioner.UpdateGroupPosition fuel unclipped_params = Done (group_x, group_y) /\
    In (100, Z.min (100 + 32 + 6) (2 * 100)) group_x.
Proof.
  apply (edge_clip_zero_tile_past_edge unclipped_params); simpl; lia.
Defined.

(** X8.  The local range covers the width of a tile but can fall one row
    short of its height: the first component is [cell_size + overlap]
    rounded up to a multiple of 32; the second is a multiple of 8, and eight
    rows per work-item reach at least [cell_size + overlap - 7] rows; they
    reach fewer than the [cell_size + overlap - 6] rows of the window of a
    full tile exactly when [cell_size + overlap] is 7 modulo 64. *)
Theorem getLocalRange_shape (p : FastKernelParams) :
  0 <= cell_size p -> 0 <= overlap p -> cell_size p + overlap p + 31 < 2 ^ 32 ->
  cell_size p + overlap p <= fst (TilePartitioner.getLocalRange p)
    < cell_size p + overlap p + 32 /\
  fst (TilePartitioner.getLocalRange p) mod 32 = 0 /\
  snd (TilePartitioner.getLocalRange p) mod 8 = 0 /\
  cell_size p + overlap p - 7 <= ROWS_PER_THREAD * snd (TilePartitioner.getLocalRange p) /\
  (ROWS_PER_THREAD * snd (TilePartitioner.getLocalRange p) < cell_size p + overlap p - 6
   <-> (cell_size p + overlap p) mod 64 = 7).
Proof.
  intros Hc Ho Hs. exact (DetectFacts.local_range_shape p Hc Ho Hs).
Qed.

Lemma getLocalRange_shape_witness :
  32 + 6 <= fst (TilePartitioner.getLocalRange (partition_params 848 480)) < 32 + 6 + 32 /\
  fst (TilePartitioner.getLocalRange (partition_params 848 480)) mod 32 = 0 /\
  snd (TilePartitioner.getLocalRange (partition_params 848 480)) mod 8 = 0 /\
  32 + 6 - 7 <= ROWS_PER_THREAD * snd (TilePartitioner.getLocalRange (partition_params 848 480)) /\
  (ROWS_PER_THREAD * snd (TilePartitioner.getLocalRange (partition_params 848 480)) < 32 + 6 - 6
   <-> (32 + 6) mod 64 = 7).
Proof.
  apply (getLocalRange_shape (partition_params 848 480)); simpl; lia.
Defined.

(** X9.  [align] at an unsigned type of [bits] bits rounds up to the next
    multiple of the grain as long as [total + grain - 1] fits the type (it
    wraps otherwise: [align(4294967294u, 32u)] is 0): for a positive grain
    and a non-negative total the result is then a multiple of the grain, at
    least the total, less than the total plus the grain, and no larger than
    any multiple of the grain that reaches the total. *)
Theorem align_rounds_up (bits total grain : Z) :
  0 < grain -> 0 <= total -> total + grain - 1 < 2 ^ bits ->
  total <= align bits total grain < total + grain /\
  align bits total grain mod grain = 0 /\
  (forall k, total <= k * grain -> align bits total grain <= k * grain).
Proof. intros Hg Ht Hs. exact (AlignFacts.align_spec bits total grain Hg Ht Hs). Qed.

Lemma align_rounds_up_witness :
  37 <= align 64 37 16 < 37 + 16 /\
  align 64 37 16 mod 16 = 0 /\
  (forall k, 37 <= k * 16 -> align 64 37 16 <= k * 16).
Proof. apply (align_rounds_up 64 37 16); lia. Defined.

(** X10.  A first call of [fastExtImpl] (no cached table) on an image that
    is not empty, with a mask of the same size when a mask is checked, an
    edge clip of at most half of each dimension and sizes far from the
    limits of [int], does not throw: the constructor computes the tables and
    the kernel is submitted over one work-group of the local range per pair
    of a column pair and a row pair. *)
Theorem fastExtImpl_submits {FO : FloatOps} (a : Kernel.fast_args) :
  1 <= cell_size (Kernel.in_params a) ->
  1 <= num_images (Kernel.in_params a) ->
  1 <= image_cols (Kernel.in_params a) / num_images (Kernel.in_params a) ->
  0 <= overlap (Kernel.in_params a) ->
  0 <= edge_clip (Kernel.in_params a) ->
  2 * edge_clip (Kernel.in_params a) <= image_cols (Kernel.in_params a) ->
  2 * edge_clip (Kernel.in_params a) <= image_rows (Kernel.in_params a) ->
  4 * image_cols (Kernel.in_params a) + 2 * cell_size (Kernel.in_params a)
    + overlap (Kernel.in_params a) < 2 ^ 31 ->
  1 <= image_rows (Kernel.in_params a) < 2 ^ 32 ->
  (mask_check (Kernel.in_params a) = true ->
   image_cols (Kernel.in_params a) = Kernel.mask_cols a /\
   image_rows (Kernel.in_params a) = Kernel.mask_rows a) ->
  group_pos_x_ptr (Kernel.in_params a) = [] \/ group_pos_y_ptr (Kernel.in_params a) = [] ->
  exists fuel gx gy after,
    TilePartitioner.UpdateGroupPosition fuel (Kernel.in_params a) = Done (gx, gy) /\
    Kernel.fastExtImpl fuel a
    = Done (Ok (Kernel.Submitted
                  (Z.of_nat (length gx) * fst (TilePartitioner.getLocalRange (Kernel.in_params a)),
                   Z.of_nat (length gy) * snd (TilePartitioner.getLocalRange (Kernel.in_params a)))
                  (TilePartitioner.getLocalRange (Kernel.in_params a)) after)).
Proof.
  intros. apply (HostFacts.fastExtImpl_valid a); assumption.
Qed.

Lemma fastExtImpl_submits_witness :
  exists fuel gx gy after,
    TilePartitioner.UpdateGroupPosition fuel (partition_params 848 480) = Done (gx, gy) /\
    Kernel.fastExtImpl fuel partition_args
    = Done (Ok (Kernel.Submitted
                  (Z.of_nat (length gx) * fst (TilePartitioner.getLocalRange (partition_params 848 480)),
                   Z.of_nat (length gy) * snd (TilePartitioner.getLocalRange (partition_params 848 480)))
                  (TilePartitioner.getLocalRange (partition_params 848 480)) after)).
Proof.
  apply (fastExtImpl_submits partition_args); simpl; try lia;
    try (intros H; discriminate H); try (left; reflexivity).
Defined.

(** X11.  The staged test of the detector is the segment test: a pixel
    whose value [v] and threshold [t] keep [v - t] and [v + t] within [int]
    is appended to the candidates exactly when nine contiguous pixels of
    its 16-point circle are all darker than [v - t] or all brighter than
    [v + t]; the three early exits reject no such pixel. *)
Theorem fast_segment_test (src : image) (p step threshold : Z) :
  0 <= threshold -> - 2 ^ 31 <= src p - threshold -> src p + threshold < 2 ^ 31 ->
  (CornerDetector.fast_pixel src p step threshold = true
   <-> DetectorNotions.segment_test src p step threshold).
Proof.
  intros Ht H0 H1. apply SegmentFacts.fast_pixel_segment; assumption.
Qed.

Lemma fast_segment_test_witness :
  CornerDetector.fast_pixel two_corners (29 * 76 + 23) 76 20 = true
  <-> DetectorNotions.segment_test two_corners (29 * 76 + 23) 76 20.
Proof.
  apply (fast_segment_test two_corners (29 * 76 + 23) 76 20); vm_compute; congruence.
Defined.

(** X12.  Detector and suppressor agree: on an 8-bit image and for a
    threshold [0 <= t < 2^31 - 255], a pixel passes the detector at
    threshold [t] exactly when its corner score is at least [t]. *)
Theorem fast_iff_score (src : image) (p step threshold : Z) :
  byte_image src -> 0 <= threshold < 2 ^ 31 - 255 ->
  (CornerDetector.fast_pixel src p step threshold = true
   <-> threshold <= Suppressor.cornerScore src p step).
Proof.
  intros Hb Ht. pose proof (Hb p) as Hv.
  rewrite SegmentFacts.fast_pixel_segment by lia.
  symmetry. apply ScoreFacts.cornerScore_ge; [exact Hb | lia].
Qed.

Lemma fast_iff_score_witness :
  CornerDetector.fast_pixel two_corners (29 * 76 + 23) 76 20 = true
  <-> 20 <= Suppressor.cornerScore two_corners (29 * 76 + 23) 76.
Proof.
  apply (fast_iff_score two_corners (29 * 76 + 23) 76 20 two_corners_byte). lia.
Defined.

(** X13.  On an 8-bit image the corner score lies between -1 and 254. *)
Theorem cornerScore_range (src : image) (p step : Z) :
  byte_image src -> - 1 <= Suppressor.cornerScore src p step <= 254.
Proof.
  intros Hb. unfold Suppressor.cornerScore.
  rewrite SuppressorFacts.score_of_circle_arc9, SuppressorFacts.load_circle_byte by exact Hb.
  apply ScoreFacts.arc9_score_range. intros k Hk.
  rewrite ScoreFacts.dget_circle by exact Hk.
  pose proof (Hb p).
  unfold DetectorNotions.circle. destruct (k <? 8);
    match goal with |- context [src ?q] =>
      match q with p => fail 1 | _ => pose proof (Hb q) end end; lia.
Qed.

Lemma cornerScore_range_witness :
  - 1 <= Suppressor.cornerScore two_corners (29 * 76 + 23) 76 <= 254.
Proof. apply (cornerScore_range two_corners (29 * 76 + 23) 76 two_corners_byte). Defined.

(** X14.  The candidates that one pass of the detector leaves in
    [local_key] for a tile are exactly the pixels that the work-items scan
    (three pixels inside the tile on every side, within the local range
    across and eight times the local range down), that the mask does not
    exclude, and that pass the test at the given threshold. *)
Theorem detect_exact (p : FastKernelParams) (gx gy threshold : Z) (keys : list (Z * Z))
    (min_x max_x min_y max_y : Z) :
  group_pos_x_ptr p !! Z.to_nat gx = Some (min_x, max_x) ->
  group_pos_y_ptr p !! Z.to_nat gy = Some (min_y, max_y) ->
  0 <= min_x < 2 ^ 31 -> 3 <= max_x < 2 ^ 31 ->
  0 <= min_y < 2 ^ 31 -> 3 <= max_y < 2 ^ 31 ->
  CornerDetector.detect p gx gy threshold = Some keys ->
  forall key, In key keys <->
    ScanNotions.scanned p min_x max_x min_y max_y key /\
    ScanNotions.candidate p threshold key = true.
Proof.
  intros Hgx Hgy Hx0 Hx1 Hy0 Hy1 Hd.
  exact (DetectFacts.detect_spec p gx gy threshold keys min_x max_x min_y max_y
           Hgx Hgy Hx0 Hx1 Hy0 Hy1 Hd).
Qed.

Lemma detect_exact_witness :
  In (24, 29) [(23, 29); (24, 29)] <->
    ScanNotions.scanned (two_corner_params true) 19 57 19 57 (24, 29) /\
    ScanNotions.candidate (two_corner_params true) 20 (24, 29) = true.
Proof.
  apply (detect_exact (two_corner_params true) 0 0 20 [(23, 29); (24, 29)] 19 57 19 57);
    first [lia | vm_compute; reflexivity].
Defined.

(** X15.  When [cell_size + overlap] is 7 modulo 64, a tile of full height
    ([max_y - min_y = cell_size + overlap]) has no work-item for the last row
    of its window: no candidate is reported in row [max_y - 4]. *)
Theorem detect_skips_last_row (p : FastKernelParams) (gx gy threshold : Z)
    (keys : list (Z * Z)) (min_x max_x min_y max_y : Z) :
  group_pos_x_ptr p !! Z.to_nat gx = Some (min_x, max_x) ->
  group_pos_y_ptr p !! Z.to_nat gy = Some (min_y, max_y) ->
  0 <= min_x < 2 ^ 31 -> 3 <= max_x < 2 ^ 31 ->
  0 <= min_y < 2 ^ 31 -> 3 <= max_y < 2 ^ 31 ->
  0 <= cell_size p -> 0 <= overlap p -> cell_size p + overlap p + 31 < 2 ^ 32 ->
  (cell_size p + overlap p) mod 64 = 7 ->
  max_y - min_y = cell_size p + overlap p ->
  CornerDetector.detect p gx gy threshold = Some keys ->
  forall key, In key keys -> snd key < max_y - 4.
Proof.
  intros Hgx Hgy Hx0 Hx1 Hy0 Hy1 Hc Ho Hs Hmod Hfull Hd key Hin.
  apply (DetectFacts.detect_spec p gx gy threshold keys min_x max_x min_y max_y
           Hgx Hgy Hx0 Hx1 Hy0 Hy1 Hd) in Hin.
  destruct Hin as [(_ & _ & _ & Hrow) _].
  destruct (DetectFacts.local_range_shape p Hc Ho Hs) as (_ & _ & _ & _ & Hshort).
  apply Hshort in Hmod. unfold ROWS_PER_THREAD in *. lia.
Qed.

Lemma detect_skips_last_row_witness :
  ScanNotions.candidate wide_cell_params 20 (30, 86) = true /\
  forall key, In key [(40, 50)] -> snd key < 90 - 4.
Proof.
  split; [vm_compute; reflexivity|].
  apply (detect_skips_last_row wide_cell_params 0 0 20 [(40, 50)] 19 90 19 90);
    first [lia | vm_compute; reflexivity | vm_compute; congruence | simpl; lia].
Defined.

(** X16.  The decision of [nmsOps] on a candidate: it is accepted exactly
    when, for each of its eight neighbours, the candidate lies within four
    pixels of the side of the tile towards that neighbour or its score
    strictly exceeds the score of the neighbour, whether or not the
    neighbour is itself a candidate.  The column offset is taken from the
    column pair of the work-group, the row offset from the entry of the
    column table at the index of the row pair. *)
Theorem nms_eight_neighbours (p : FastKernelParams) (gx gy : Z) (key gpx gpy gpx_at_y : Z * Z) :
  group_pos_x_ptr p !! Z.to_nat gx = Some gpx ->
  group_pos_y_ptr p !! Z.to_nat gy = Some gpy ->
  group_pos_x_ptr p !! Z.to_nat gy = Some gpx_at_y ->
  exists b,
    NMS.nms_accept p gx gy key
    = Some (b, Suppressor.cornerScore (src_image_ptr p)
                 (u32 (snd key * image_steps p) + fst key) (i32 (image_steps p))) /\
    (b = true <-> SuppressorNotions.nms_rule p gpx gpy gpx_at_y key).
Proof.
  intros Hx Hy Hxy. exact (NMSFacts.nms_accept_eq p gx gy key gpx gpy gpx_at_y Hx Hy Hxy).
Qed.

Lemma nms_eight_neighbours_witness :
  exists b,
    NMS.nms_accept (two_corner_params true) 0 0 (23, 29)
    = Some (b, Suppressor.cornerScore two_corners (u32 (29 * 76 + 23)) (i32 76)) /\
    (b = true <-> SuppressorNotions.nms_rule (two_corner_params true) (19, 57) (19, 57) (19, 57)
                    (23, 29)).
Proof.
  apply (nms_eight_neighbours (two_corner_params true) 0 0 (23, 29) (19, 57) (19, 57) (19, 57));
    reflexivity.
Defined.

(** X17.  [nmsOps] indexes the column table with the index of the row pair.
    For a work-group whose row index is not below the number of column
    pairs, the table is read out of bounds as soon as the first pass finds
    a candidate. *)
Theorem nms_reads_column_table_at_row_index {FO : FloatOps} (p : FastKernelParams)
    (gx gy : Z) (key : Z * Z) (keys : list (Z * Z)) (st : device_state) :
  nms_required p = true ->
  0 <= gy -> group_x_size p <= gy ->
  CornerDetector.detect p gx gy (ini_threshold p) = Some (key :: keys) ->
  Kernel.fastExt_group p gx gy st = None.
Proof.
  intros Hnms H0 Hsize Hd.
  assert (Hnone : group_pos_x_ptr p !! Z.to_nat gy = None).
  { apply lookup_ge_None. unfold group_x_size in Hsize. lia. }
  assert (Hacc : NMS.nms_accept p gx gy key = None).
  { unfold NMS.nms_accept. rewrite Hnone.
    destruct (group_pos_x_ptr p !! Z.to_nat gx); [|reflexivity].
    destruct (group_pos_y_ptr p !! Z.to_nat gy); reflexivity. }
  unfold Kernel.fastExt_group, dbind, Kernel.fastOps. rewrite Hd, Hnms.
  cbn [Kernel.nmsOps]. unfold dbind, Kernel.nms_item, dbind, dlift. rewrite Hacc.
  reflexivity.
Qed.

Lemma nms_reads_column_table_at_row_index_witness :
  Kernel.fastExt_group tall_params 0 1 stale_state = None.
Proof.
  apply (nms_reads_column_table_at_row_index tall_params 0 1 (30, 60) [] stale_state);
    first [lia | vm_compute; reflexivity | vm_compute; congruence | simpl; lia].
Defined.

(** X18.  Condition for a defined run of the second kernel: for a
    non-negative number of keypoints, no work-item overflows the [int]
    position [idx * 32] of its descriptor or accesses the keypoint or
    descriptor buffer out of bounds exactly when there are at most [2 ^ 26]
    keypoints, the keypoint buffer holds at least [num_keypoints] records
    and the descriptor buffer at least [32 * num_keypoints] bytes. *)
Theorem orb_kernel_in_bounds_iff {FO : FloatOps} (p : Descriptor.OrbDescriptorKernelParams)
    (st : Descriptor.orb_state) :
  0 <= Descriptor.num_keypoints p ->
  ((exists st', Descriptor.orb_kernel p st = Some st') <->
   Descriptor.num_keypoints p <= 2 ^ 26 /\
   Descriptor.num_keypoints p <= Z.of_nat (length (Descriptor.keypoints_ptr st)) /\
   Descriptor.num_keypoints p * 32 <= Z.of_nat (length (Descriptor.descriptors_ptr st))).
Proof.
  intros Hn. exact (OrderFacts.orb_kernel_Some p st Hn).
Qed.

Lemma orb_kernel_in_bounds_iff_witness :
  (exists st', Descriptor.orb_kernel orb_example_params orb_example_state = Some st') <->
  1 <= 2 ^ 26 /\
  1 <= Z.of_nat (length (Descriptor.keypoints_ptr orb_example_state)) /\
  1 * 32 <= Z.of_nat (length (Descriptor.descriptors_ptr orb_example_state)).
Proof.
  apply (orb_kernel_in_bounds_iff orb_example_params orb_example_state). simpl. lia.
Defined.

(** X19.  The work-items of the second kernel do not interfere: run in any
    order, they leave the same keypoints and descriptors as in the order of
    the global id, and fail in any order if they fail in one. *)
Theorem orb_kernel_order_independent {FO : FloatOps}
    (p : Descriptor.OrbDescriptorKernelParams) (ids : list Z) (st : Descriptor.orb_state) :
  Permutation ids (seqZ 0 (Descriptor.aligned_width (Descriptor.num_keypoints p))) ->
  Descriptor.run_items p ids st = Descriptor.orb_kernel p st.
Proof.
  intros HP. unfold Descriptor.orb_kernel.
  apply OrderFacts.run_items_perm; [exact HP|].
  apply (Permutation_Forall (Permutation_sym HP)).
  apply Forall_forall. intros x Hx. apply elem_of_seqZ in Hx. lia.
Qed.

Lemma orb_kernel_order_independent_witness :
  Descriptor.run_items orb_example_params (rev (seqZ 0 16)) orb_example_state
  = Descriptor.orb_kernel orb_example_params orb_example_state.
Proof.
  apply (orb_kernel_order_independent orb_example_params (rev (seqZ 0 16)) orb_example_state).
  apply Permutation_sym, Permutation_rev.
Defined.

(** X20.  The moment [m_10] that [computeOrientation] accumulates is zero
    when the patch it reads is equal to its mirror image from left to
    right. *)
Theorem moment_m10_of_mirrored_patch {FO : FloatOps}
    (p : Descriptor.OrbDescriptorKernelParams) (center : Z) :
  MomentNotions.mirror_lr p center -> snd (Descriptor.moments p center) = 0.
Proof. apply MomentFacts.moments_m10. Qed.

Lemma moment_m10_of_mirrored_patch_witness :
  snd (Descriptor.moments flat_orb_params (30 * 76 + 30)) = 0.
Proof.
  apply (moment_m10_of_mirrored_patch flat_orb_params (30 * 76 + 30)).
  intros u r _. reflexivity.
Defined.

(** X21.  The moment [m_01] is zero when the patch is equal to its mirror
    image from top to bottom. *)
Theorem moment_m01_of_mirrored_patch {FO : FloatOps}
    (p : Descriptor.OrbDescriptorKernelParams) (center : Z) :
  MomentNotions.mirror_ud p center -> fst (Descriptor.moments p center) = 0.
Proof. apply MomentFacts.moments_m01. Qed.

Lemma moment_m01_of_mirrored_patch_witness :
  fst (Descriptor.moments flat_orb_params (30 * 76 + 30)) = 0.
Proof.
  apply (moment_m01_of_mirrored_patch flat_orb_params (30 * 76 + 30)).
  intros u r _. reflexivity.
Defined.

(** X22.  Every candidate that the detector reports at threshold [t] on an
    8-bit image has a corner score, as [nmsOps] computes it, of at least
    [t]. *)
Theorem candidate_score_reaches_threshold (p : FastKernelParams) (gx gy threshold : Z)
    (keys : list (Z * Z)) (min_x max_x min_y max_y : Z) :
  group_pos_x_ptr p !! Z.to_nat gx = Some (min_x, max_x) ->
  group_pos_y_ptr p !! Z.to_nat gy = Some (min_y, max_y) ->
  0 <= min_x < 2 ^ 31 -> 3 <= max_x < 2 ^ 31 ->
  0 <= min_y < 2 ^ 31 -> 3 <= max_y < 2 ^ 31 ->
  byte_image (src_image_ptr p) ->
  0 <= threshold < 2 ^ 31 - 255 ->
  max_x <= image_steps p < 2 ^ 31 ->
  max_y * image_steps p < 2 ^ 32 ->
  CornerDetector.detect p gx gy threshold = Some keys ->
  forall key, In key keys -> threshold <= Notions.key_score p key.
Proof.
  intros Hgx Hgy Hx0 Hx1 Hy0 Hy1 Hb Ht Hstep Hsize Hd key Hin.
  apply (DetectFacts.detect_spec p gx gy threshold keys min_x max_x min_y max_y
           Hgx Hgy Hx0 Hx1 Hy0 Hy1 Hd) in Hin.
  destruct Hin as [(Hx & _ & Hy & _) Hc].
  unfold ScanNotions.candidate in Hc. cbv zeta in Hc.
  apply andb_prop in Hc as [_ Hf].
  rewrite (i32_small (image_steps p)) in Hf by lia.
  unfold Notions.key_score. rewrite (i32_small (image_steps p)) by lia.
  assert (Hpos : 0 <= snd key * image_steps p < 2 ^ 32).
  { assert (0 <= snd key * image_steps p) by (apply Z.mul_nonneg_nonneg; lia).
    assert ((snd key + 1) * image_steps p <= max_y * image_steps p)
      by (apply Z.mul_le_mono_nonneg_r; lia).
    lia. }
  rewrite (u32_small _ Hpos).
  pose proof (Hb (snd key * image_steps p + fst key)) as Hv.
  apply ScoreFacts.cornerScore_ge; [exact Hb | lia |].
  apply SegmentFacts.fast_pixel_segment; [lia | lia | lia | exact Hf].
Qed.

Lemma candidate_score_reaches_threshold_witness :
  In (24, 29) [(23, 29); (24, 29)] /\
  20 <= Notions.key_score (two_corner_params true) (24, 29).
Proof.
  split; [simpl; tauto|].
  apply (candidate_score_reaches_threshold (two_corner_params true) 0 0 20
           [(23, 29); (24, 29)] 19 57 19 57);
    first [lia | exact two_corners_byte | vm_compute; reflexivity | vm_compute; congruence
          | simpl; lia | simpl; tauto].
Defined.

(** X23.  The detection kernel only appends to the keypoint buffer: for
    any sequence of work-groups, run on a buffer of less than [2^31]
    records with a counter below [2^32], the counter does not decrease, the
    buffer keeps its length and no record below the initial value of the
    counter is modified. *)
Theorem kernel_is_append_only {FO : FloatOps} (p : FastKernelParams)
    (groups : list (Z * Z)) (st st' : device_state) :
  Notions.buffer_ok st ->
  Kernel.run_groups p groups st = Some (tt, st') ->
  AppendNotions.appended st st'.
Proof.
  intros Hok H. destruct (AppendFacts.run_groups_appended p groups st st' Hok H) as [A _].
  exact A.
Qed.

Lemma kernel_is_append_only_witness :
  AppendNotions.appended stale_state
    (final_state (Kernel.run_groups (two_corner_params true) [(0, 0); (1, 0)] stale_state)).
Proof.
  apply (kernel_is_append_only (two_corner_params true) [(0, 0); (1, 0)] stale_state
           (final_state (Kernel.run_groups (two_corner_params true) [(0, 0); (1, 0)]
                           stale_state)) stale_state_ok).
  reflexivity.
Defined.

(** ** [fastAtan2] in single precision *)

Module FloatFacts.
Import FloatNotions.

(** *** Digits *)

Lemma digits2_pos_spec p :
  2 ^ (Zpos (digits2_pos p) - 1) <= Zpos p < 2 ^ Zpos (digits2_pos p).
Proof.
  induction p as [p IH|p IH|]; cbn [digits2_pos].
  - rewrite Pos2Z.inj_succ.
    replace (Z.succ (Zpos (digits2_pos p)) - 1) with (Z.succ (Zpos (digits2_pos p) - 1)) by lia.
    rewrite !Z.pow_succ_r by lia. lia.
  - rewrite Pos2Z.inj_succ.
    replace (Z.succ (Zpos (digits2_pos p)) - 1) with (Z.succ (Zpos (digits2_pos p) - 1)) by lia.
    rewrite !Z.pow_succ_r by lia. lia.
  - simpl. lia.
Qed.

Lemma Zdigits2_pos m : 0 < m -> 1 <= Zdigits2 m.
Proof. destruct m; simpl; lia. Qed.

Lemma Zdigits2_spec m : 0 < m -> 2 ^ (Zdigits2 m - 1) <= m < 2 ^ Zdigits2 m.
Proof. destruct m as [|p|p]; try lia. intros _. apply digits2_pos_spec. Qed.

Lemma Zdigits2_le m n : 0 < m -> 0 <= n -> m < 2 ^ n -> Zdigits2 m <= n.
Proof.
  intros Hm Hn Hlt. pose proof (Zdigits2_spec m Hm) as [H1 _].
  pose proof (Zdigits2_pos m Hm).
  destruct (Z_le_gt_dec (Zdigits2 m) n) as [|Hgt]; [assumption|].
  assert (2 ^ n <= 2 ^ (Zdigits2 m - 1)) by (apply Z.pow_le_mono_r; lia). lia.
Qed.

Lemma Zdigits2_gt m n : 0 <= n -> 2 ^ n <= m -> n < Zdigits2 m.
Proof.
  intros Hn Hle. assert (Hm : 0 < m) by (pose proof (Z.pow_pos_nonneg 2 n); lia).
  pose proof (Zdigits2_spec m Hm) as [_ H2].
  destruct (Z_lt_le_dec n (Zdigits2 m)) as [|Hge]; [assumption|].
  assert (2 ^ Zdigits2 m <= 2 ^ n) by (apply Z.pow_le_mono_r; lia). lia.
Qed.

Lemma Zdigits2_unique m n : 2 ^ (n - 1) <= m < 2 ^ n -> 1 <= n -> Zdigits2 m = n.
Proof.
  intros [H1 H2] Hn.
  assert (Hm : 0 < m) by (pose proof (Z.pow_pos_nonneg 2 (n - 1)); lia).
  pose proof (Zdigits2_le m n Hm ltac:(lia) H2).
  pose proof (Zdigits2_gt m (n - 1) ltac:(lia) H1). lia.
Qed.

(** *** Iterated shift *)

Lemma iter_pos_nat {A} (f : A -> A) p : forall x,
  SpecFloat.iter_pos f p x = Nat.iter (Pos.to_nat p) f x.
Proof.
  induction p as [p IH|p IH|]; intros x; cbn [SpecFloat.iter_pos].
  - rewrite !IH, Pos2Nat.inj_xI.
    replace (S (2 * Pos.to_nat p)) with (Pos.to_nat p + (Pos.to_nat p + 1))%nat by lia.
    rewrite !Nat.iter_add. reflexivity.
  - rewrite !IH, Pos2Nat.inj_xO.
    replace (2 * Pos.to_nat p)%nat with (Pos.to_nat p + Pos.to_nat p)%nat by lia.
    rewrite Nat.iter_add. reflexivity.
  - reflexivity.
Qed.

Lemma shr_1_spec mrs :
  0 <= shr_m mrs ->
  shr_m (shr_1 mrs) = shr_m mrs / 2 /\
  exactb (shr_1 mrs) = exactb mrs && (shr_m mrs mod 2 =? 0).
Proof.
  destruct mrs as [m r s]. cbn [shr_m]. intros Hm. unfold exactb.
  destruct m as [|p|p]; [| |lia].
  - simpl. destruct r, s; auto.
  - destruct p as [p|p|].
    + cbn [shr_1 shr_m shr_r shr_s].
      replace (Z.pos p~1) with (1 + Z.pos p * 2) by lia.
      rewrite Z.div_add, Z_mod_plus_full by lia.
      change (1 / 2) with 0. change (1 mod 2) with 1. simpl. split; [reflexivity|].
      destruct r, s; reflexivity.
    + cbn [shr_1 shr_m shr_r shr_s].
      replace (Z.pos p~0) with (0 + Z.pos p * 2) by lia.
      rewrite Z.div_add, Z_mod_plus_full by lia. simpl. split; [reflexivity|].
      destruct r, s; reflexivity.
    + simpl. destruct r, s; auto.
Qed.

Lemma mod_pow_succ m n :
  0 <= n -> (m mod 2 ^ (n + 1) =? 0) = (m mod 2 ^ n =? 0) && ((m / 2 ^ n) mod 2 =? 0).
Proof.
  intros Hn. rewrite Z.pow_add_r, Z.pow_1_r by lia.
  assert (Hp : 0 < 2 ^ n) by (apply Z.pow_pos_nonneg; lia).
  rewrite Z.rem_mul_r by lia.
  pose proof (Z.mod_pos_bound m (2 ^ n) Hp).
  pose proof (Z.mod_pos_bound (m / 2 ^ n) 2 ltac:(lia)).
  destruct (Z.eqb_spec (m mod 2 ^ n) 0), (Z.eqb_spec ((m / 2 ^ n) mod 2) 0); simpl;
    apply Z.eqb_eq || apply Z.eqb_neq; nia.
Qed.

Lemma shr_iter_spec n : forall mrs,
  0 <= shr_m mrs ->
  shr_m (Nat.iter n shr_1 mrs) = shr_m mrs / 2 ^ Z.of_nat n /\
  exactb (Nat.iter n shr_1 mrs) = exactb mrs && (shr_m mrs mod 2 ^ Z.of_nat n =? 0).
Proof.
  induction n as [|n IH]; intros mrs Hm.
  - simpl. rewrite Z.div_1_r, Z.mod_1_r. simpl. rewrite andb_true_r. auto.
  - rewrite Nat.iter_succ. destruct (IH mrs Hm) as [I1 I2].
    assert (Hp : 0 < 2 ^ Z.of_nat n) by (apply Z.pow_pos_nonneg; lia).
    assert (H0 : 0 <= shr_m (Nat.iter n shr_1 mrs)).
    { rewrite I1. apply Z.div_pos; lia. }
    destruct (shr_1_spec _ H0) as [S1 S2].
    rewrite S1, S2, I1, I2, Nat2Z.inj_succ.
    replace (Z.succ (Z.of_nat n)) with (Z.of_nat n + 1) by lia.
    rewrite mod_pow_succ by lia. rewrite andb_assoc.
    split; [|reflexivity].
    rewrite Z.pow_add_r, Z.pow_1_r by lia. rewrite Z.div_div by lia. reflexivity.
Qed.

Lemma shr_spec mrs e k :
  0 <= shr_m mrs -> 0 <= k ->
  shr_m (fst (shr mrs e k)) = shr_m mrs / 2 ^ k /\
  exactb (fst (shr mrs e k)) = exactb mrs && (shr_m mrs mod 2 ^ k =? 0) /\
  snd (shr mrs e k) = e + k.
Proof.
  intros Hm Hk. destruct k as [|p|p]; [| |lia].
  - simpl. rewrite Z.div_1_r, Z.mod_1_r, Z.add_0_r. simpl. rewrite andb_true_r. auto.
  - cbn [shr fst snd]. rewrite iter_pos_nat.
    destruct (shr_iter_spec (Pos.to_nat p) mrs Hm) as [I1 I2].
    rewrite positive_nat_Z in I1, I2. auto.
Qed.

Lemma shr_nonpos mrs e k : k <= 0 -> shr mrs e k = (mrs, e).
Proof. destruct k; try reflexivity. lia. Qed.

Lemma loc_of_record m l : loc_of_shr_record (shr_record_of_loc m l) = l.
Proof. destruct l as [|[]]; reflexivity. Qed.

Lemma shr_m_record m l : shr_m (shr_record_of_loc m l) = m.
Proof. destruct l as [|[]]; reflexivity. Qed.

Lemma exactb_record m l : exactb (shr_record_of_loc m l) = true <-> l = loc_Exact.
Proof. destruct l as [|[]]; simpl; split; intros H; try reflexivity; discriminate. Qed.

Lemma exactb_loc mrs : exactb mrs = true -> loc_of_shr_record mrs = loc_Exact.
Proof. destruct mrs as [m [] []]; simpl; intros H; try discriminate. reflexivity. Qed.

Lemma round_nearest_even_cases m l :
  (round_nearest_even m l = m \/ round_nearest_even m l = m + 1) /\
  (l = loc_Exact -> round_nearest_even m l = m).
Proof.
  destruct l as [|[]]; simpl; try (split; [auto|intros; try discriminate; auto]).
  destruct (Z.even m); auto.
Qed.

Lemma fexp32_eq e : fexp 24 128 e = Z.max (e - 24) (-149).
Proof. reflexivity. Qed.

Lemma round_aux_shape s mx ex lx :
  0 <= mx ->
  ex <= fexp 24 128 (Zdigits2 mx + ex) ->
  exists m2,
    let f := fexp 24 128 (Zdigits2 mx + ex) in
    let m1 := mx / 2 ^ (f - ex) in
    (m2 = m1 \/ m2 = m1 + 1) /\
    (lx = loc_Exact -> mx mod 2 ^ (f - ex) = 0 -> m2 = m1) /\
    0 <= m1 < 2 ^ 24 /\
    (0 < mx -> f = -149 \/ 2 ^ 23 <= m1) /\
    binary_round_aux 24 128 s mx ex lx =
      if m2 =? 0 then S754_zero s
      else if m2 =? 2 ^ 24
           then (if f + 1 <=? 104 then S754_finite s (Z.to_pos (2 ^ 23)) (f + 1)
                 else S754_infinity s)
           else (if f <=? 104 then S754_finite s (Z.to_pos m2) f else S754_infinity s).
Proof.
  intros Hm Hk.
  set (f := fexp 24 128 (Zdigits2 mx + ex)) in *.
  assert (Hf : f = Z.max (Zdigits2 mx + ex - 24) (-149)) by reflexivity.
  set (k := f - ex). assert (Hk0 : 0 <= k) by (unfold k; lia).
  assert (Hp : 0 < 2 ^ k) by (apply Z.pow_pos_nonneg; lia).
  set (m1 := mx / 2 ^ k).
  assert (Hm1 : 0 <= m1 < 2 ^ 24).
  { split; [apply Z.div_pos; lia|].
    apply Z.div_lt_upper_bound; [lia|].
    destruct (Z.eq_dec mx 0) as [->|Hne]; [lia|].
    pose proof (Zdigits2_spec mx ltac:(lia)) as [_ Hd].
    rewrite <- Z.pow_add_r by lia.
    eapply Z.lt_le_trans; [exact Hd|]. apply Z.pow_le_mono_r; lia. }
  assert (Hnorm : 0 < mx -> f = -149 \/ 2 ^ 23 <= m1).
  { intros Hpos. destruct (Z.eq_dec f (-149)) as [|Hne]; [left; assumption|right].
    pose proof (Zdigits2_spec mx Hpos) as [Hd _].
    pose proof (Zdigits2_pos mx Hpos).
    assert (Hkd : k = Zdigits2 mx - 24) by (unfold k; lia).
    unfold m1. apply Z.div_le_lower_bound; [lia|].
    rewrite Hkd, <- Z.pow_add_r by lia.
    replace (Zdigits2 mx - 24 + 23) with (Zdigits2 mx - 1) by lia. exact Hd. }
  unfold binary_round_aux, shr_fexp. fold f. fold k.
  pose proof (shr_spec (shr_record_of_loc mx lx) ex k) as Hs.
  rewrite shr_m_record in Hs. specialize (Hs Hm Hk0).
  destruct (shr (shr_record_of_loc mx lx) ex k) as [mrs' e'] eqn:E1.
  cbn [fst snd] in Hs. destruct Hs as (S1 & S2 & S3).
  subst e'. replace (ex + k) with f in * by (unfold k; lia).
  set (m2 := round_nearest_even (shr_m mrs') (loc_of_shr_record mrs')).
  destruct (round_nearest_even_cases (shr_m mrs') (loc_of_shr_record mrs')) as [Hc He].
  fold m2 in Hc, He. rewrite S1 in Hc, He. fold m1 in Hc, He.
  exists m2. cbv zeta. fold k. fold m1.
  split; [exact Hc|]. split.
  { intros Hl Hmod. apply He. apply exactb_loc. rewrite S2.
    apply andb_true_intro. split; [apply exactb_record; exact Hl | apply Z.eqb_eq; exact Hmod]. }
  split; [exact Hm1|]. split; [exact Hnorm|].
  assert (Hm2 : 0 <= m2 <= 2 ^ 24) by lia.
  destruct (Z.eqb_spec m2 0) as [E0|E0].
  - rewrite E0. cbn [Zdigits2 shr_record_of_loc].
    rewrite shr_nonpos by (rewrite fexp32_eq; lia). reflexivity.
  - destruct (Z.eqb_spec m2 (2 ^ 24)) as [E1'|E1'].
    + rewrite E1'. change (Zdigits2 (2 ^ 24)) with 25.
      replace (fexp 24 128 (25 + f) - f) with 1 by (rewrite fexp32_eq; lia).
      cbn [shr_record_of_loc shr]. reflexivity.
    + assert (Hd2 : Zdigits2 m2 <= 24) by (apply Zdigits2_le; lia).
      rewrite shr_nonpos by (rewrite fexp32_eq; lia).
      cbn [shr_record_of_loc shr_m].
      destruct m2 as [|p|p]; try lia. reflexivity.
Qed.

(** *** Values *)

Lemma Q2_pos e : (0 < Q2 e)%Q.
Proof. apply Qpower_0_lt. reflexivity. Qed.

Lemma Q2_add a b : (Q2 (a + b) == Q2 a * Q2 b)%Q.
Proof. apply Qpower_plus. discriminate. Qed.

Lemma Q2_Z n : 0 <= n -> (Q2 n == inject_Z (2 ^ n))%Q.
Proof. intros H. unfold Q2. rewrite Zpower_Qpower by exact H. reflexivity. Qed.

Lemma Q2_le a b : a <= b -> (Q2 a <= Q2 b)%Q.
Proof. intros H. apply Qpower_le_compat_l; [exact H|]. discriminate. Qed.

Lemma Q2_lt_inv a b : (Q2 a < Q2 b)%Q -> a < b.
Proof. intros H. apply (Qpower_lt_compat_l_inv 2); [exact H|reflexivity]. Qed.

Lemma val_shift m e k : 0 <= k -> (val m (e + k) == val (m * 2 ^ k) e)%Q.
Proof.
  intros H. unfold val. rewrite Q2_add, (Q2_Z k H), inject_Z_mult. ring.
Qed.

Lemma val_le m1 m2 e : m1 <= m2 <-> (val m1 e <= val m2 e)%Q.
Proof.
  unfold val. pose proof (Q2_pos e) as Hp. rewrite Zle_Qle. split; intros H.
  - apply Qmult_le_compat_r; [exact H | apply Qlt_le_weak; exact Hp].
  - apply Qmult_lt_0_le_reg_r in H; assumption.
Qed.

Lemma val_lt m1 m2 e : m1 < m2 <-> (val m1 e < val m2 e)%Q.
Proof.
  split; intros H.
  - apply Qnot_le_lt. intros H'. apply val_le in H'. lia.
  - destruct (Z_lt_le_dec m1 m2) as [|Hge]; [assumption|].
    apply (val_le m2 m1 e) in Hge. apply Qle_not_lt in Hge. contradiction.
Qed.

Lemma val_mul m1 e1 m2 e2 : (val m1 e1 * val m2 e2 == val (m1 * m2) (e1 + e2))%Q.
Proof. unfold val. rewrite Q2_add, inject_Z_mult. ring. Qed.

Lemma val_add m1 m2 e : (val m1 e + val m2 e == val (m1 + m2) e)%Q.
Proof. unfold val. rewrite inject_Z_plus. ring. Qed.

Lemma val_opp m e : (- val m e == val (- m) e)%Q.
Proof. unfold val. rewrite inject_Z_opp. ring. Qed.

Lemma val_0 e : (val 0 e == 0)%Q.
Proof. unfold val. ring. Qed.

Lemma val_pow n e : 0 <= n -> (val (2 ^ n) e == Q2 (n + e))%Q.
Proof. intros H. unfold val. rewrite Q2_add, (Q2_Z n H). reflexivity. Qed.

Lemma val_pos m e : 0 < m -> (0 < val m e)%Q.
Proof.
  intros H. apply (val_lt 0 m e) in H. rewrite val_0 in H. exact H.
Qed.

Lemma val_nonneg m e : 0 <= m -> (0 <= val m e)%Q.
Proof.
  intros H. apply (val_le 0 m e) in H. rewrite val_0 in H. exact H.
Qed.

(** *** Canonical pairs *)

Lemma canon_iff m e :
  canon m e <-> fexp 24 128 (Zpos (digits2_pos m) + e) = e /\ e <= 104.
Proof.
  unfold canon, bounded, canonical_mantissa.
  rewrite andb_true_iff, Z.eqb_eq, Z.leb_le. reflexivity.
Qed.

Lemma canon_facts m e :
  canon m e ->
  -149 <= e <= 104 /\ Zpos m < 2 ^ 24 /\ (e = -149 \/ 2 ^ 23 <= Zpos m) /\
  fexp 24 128 (Zdigits2 (Zpos m) + e) = e.
Proof.
  intros H. apply canon_iff in H. destruct H as [H1 H2].
  pose proof (digits2_pos_spec m) as [D1 D2].
  cbn [Zdigits2]. rewrite fexp32_eq in *.
  assert (Hd : Zpos (digits2_pos m) <= 24) by lia.
  split; [lia|]. split.
  - eapply Z.lt_le_trans; [exact D2|]. apply Z.pow_le_mono_r; lia.
  - split; [|assumption].
    destruct (Z.eq_dec e (-149)); [left; assumption|right].
    assert (Zpos (digits2_pos m) = 24) by lia.
    replace 23 with (Zpos (digits2_pos m) - 1) by lia. exact D1.
Qed.

Lemma canon_intro m e :
  0 < m < 2 ^ 24 -> -149 <= e <= 104 -> (e = -149 \/ 2 ^ 23 <= m) -> canon (Z.to_pos m) e.
Proof.
  intros Hm He Hn. apply canon_iff. split; [|lia].
  change (Zpos (digits2_pos (Z.to_pos m))) with (Zdigits2 (Zpos (Z.to_pos m))).
  rewrite Z2Pos.id by lia. rewrite fexp32_eq.
  pose proof (Zdigits2_le m 24 ltac:(lia) ltac:(lia) ltac:(lia)).
  pose proof (Zdigits2_pos m ltac:(lia)).
  destruct Hn as [->|Hn]; [lia|].
  pose proof (Zdigits2_gt m 23 ltac:(lia) Hn). lia.
Qed.

Lemma fexp_le_canon mx ex mB eB :
  0 < mx -> canon mB eB -> (val mx ex <= val (Zpos mB) eB)%Q ->
  fexp 24 128 (Zdigits2 mx + ex) <= eB.
Proof.
  intros Hm Hc Hle.
  pose proof (Zdigits2_spec mx Hm) as [D1 _].
  pose proof (Zdigits2_pos mx Hm) as Dp.
  pose proof (digits2_pos_spec mB) as [_ E2].
  apply canon_iff in Hc. destruct Hc as [Hc _].
  assert (H : (Q2 (Zdigits2 mx - 1 + ex) < Q2 (Zpos (digits2_pos mB) + eB))%Q).
  { rewrite <- !val_pow by lia.
    eapply Qle_lt_trans; [apply val_le; exact D1|].
    eapply Qle_lt_trans; [exact Hle|]. apply val_lt. exact E2. }
  apply Q2_lt_inv in H. rewrite fexp32_eq in *. lia.
Qed.

(** *** The result of rounding, bounded by a canonical pair *)

Lemma round_aux_le s mx ex lx (v : Q) mB eB :
  0 <= mx -> ex <= fexp 24 128 (Zdigits2 mx + ex) ->
  (mx = 0 -> fexp 24 128 (Zdigits2 mx + ex) = -149) ->
  (val mx ex <= v)%Q -> (lx <> loc_Exact -> val mx ex < v)%Q ->
  canon mB eB -> (v <= val (Zpos mB) eB)%Q ->
  fexp 24 128 (Zdigits2 mx + ex) <= eB ->
  fin_le s (binary_round_aux 24 128 s mx ex lx) mB eB.
Proof.
  intros Hm Hk H0 Hv Hlx Hc HB Hf.
  destruct (round_aux_shape s mx ex lx Hm Hk) as (m2 & Hm2 & Hex & Hm1 & Hnorm & Hr).
  cbv zeta in *.
  set (f := fexp 24 128 (Zdigits2 mx + ex)) in *.
  set (k := f - ex) in *.
  set (m1 := mx / 2 ^ k) in *.
  assert (Hk0 : 0 <= k) by (unfold k; lia).
  assert (Hp : 0 < 2 ^ k) by (apply Z.pow_pos_nonneg; lia).
  pose proof (canon_facts mB eB Hc) as (HeB & HmB & _ & _).
  set (b := Zpos mB * 2 ^ (eB - f)).
  assert (HbB : (val (Zpos mB) eB == val b f)%Q).
  { unfold b. rewrite <- val_shift by lia. replace (f + (eB - f)) with eB by lia. reflexivity. }
  assert (Hbx : (val b f == val (b * 2 ^ k) ex)%Q).
  { rewrite <- val_shift by lia. replace (ex + k) with f by (unfold k; lia). reflexivity. }
  assert (Hmxb : mx <= b * 2 ^ k).
  { apply (val_le _ _ ex). rewrite <- Hbx, <- HbB. eapply Qle_trans; eauto. }
  assert (Hm1b : m1 <= b).
  { unfold m1. apply Z.div_le_upper_bound; lia. }
  assert (Hm2b : m2 <= b).
  { destruct Hm2 as [->| ->]; [exact Hm1b|].
    destruct (Z.eq_dec m1 b) as [E|E]; [|lia]. exfalso.
    pose proof (Z.mul_div_le mx (2 ^ k) Hp) as Hd. fold m1 in Hd.
    assert (Emx : mx = b * 2 ^ k) by lia.
    assert (Hmod : mx mod 2 ^ k = 0) by (rewrite Emx; apply Z.mod_mul; lia).
    destruct lx as [|c].
    - specialize (Hex eq_refl Hmod). lia.
    - assert (Hs : (val mx ex < v)%Q) by (apply Hlx; discriminate).
      rewrite Emx, <- Hbx, <- HbB in Hs.
      apply Qlt_not_le in Hs. contradiction. }
  assert (Hval : (val m2 f <= val (Zpos mB) eB)%Q).
  { rewrite HbB. apply val_le. exact Hm2b. }
  assert (Hf149 : -149 <= f) by (unfold f; rewrite fexp32_eq; lia).
  rewrite Hr.
  destruct (Z.eqb_spec m2 0) as [E0|E0]; [left; reflexivity|].
  right.
  destruct (Z.eqb_spec m2 (2 ^ 24)) as [E1|E1].
  - assert (Hlt : f < eB).
    { destruct (Z.eq_dec f eB) as [E|E]; [|lia]. exfalso.
      rewrite E1, E in Hval. apply val_le in Hval. lia. }
    destruct (Z.leb_spec (f + 1) 104); [|lia].
    eexists _, _. split; [reflexivity|]. split.
    + apply canon_intro; lia.
    + rewrite Z2Pos.id by lia.
      rewrite (val_shift (2 ^ 23) f 1) by lia.
      replace (2 ^ 23 * 2 ^ 1) with m2 by (rewrite E1; reflexivity). exact Hval.
  - destruct (Z.leb_spec f 104); [|lia].
    eexists _, _. split; [reflexivity|]. split.
    + apply canon_intro; [lia|lia|].
      destruct (Z.eq_dec mx 0) as [Ex|Ex]; [left; apply H0; exact Ex|].
      destruct (Hnorm ltac:(lia)); [left; assumption|right; lia].
    + rewrite Z2Pos.id by lia. exact Hval.
Qed.

Lemma round_aux_ge s mx ex mB eB :
  0 < mx -> ex <= fexp 24 128 (Zdigits2 mx + ex) ->
  canon mB eB -> (val (Zpos mB) eB <= val mx ex)%Q ->
  fin_ge s (binary_round_aux 24 128 s mx ex loc_Exact) mB eB.
Proof.
  intros Hm Hk Hc HB.
  destruct (round_aux_shape s mx ex loc_Exact ltac:(lia) Hk)
    as (m2 & Hm2 & Hex & Hm1 & Hnorm & Hr).
  cbv zeta in *.
  set (f := fexp 24 128 (Zdigits2 mx + ex)) in *.
  set (k := f - ex) in *.
  set (m1 := mx / 2 ^ k) in *.
  assert (Hk0 : 0 <= k) by (unfold k; lia).
  assert (Hp : 0 < 2 ^ k) by (apply Z.pow_pos_nonneg; lia).
  pose proof (canon_facts mB eB Hc) as (HeB & HmB & _ & _).
  specialize (Hnorm Hm).
  assert (Hf149 : -149 <= f) by (unfold f; rewrite fexp32_eq; lia).
  assert (Hval1 : (val (Zpos mB) eB <= val m1 f)%Q).
  { destruct (Z_le_gt_dec f eB) as [Hle|Hgt].
    - set (b := Zpos mB * 2 ^ (eB - f)).
      assert (HbB : (val (Zpos mB) eB == val b f)%Q).
      { unfold b. rewrite <- val_shift by lia.
        replace (f + (eB - f)) with eB by lia. reflexivity. }
      assert (Hbx : (val b f == val (b * 2 ^ k) ex)%Q).
      { rewrite <- val_shift by lia. replace (ex + k) with f by (unfold k; lia). reflexivity. }
      rewrite HbB. apply val_le. unfold m1. apply Z.div_le_lower_bound; [lia|].
      rewrite Z.mul_comm. apply (val_le _ _ ex). rewrite <- Hbx, <- HbB. exact HB.
    - destruct Hnorm as [E|Hn]; [lia|].
      apply Qle_trans with (val (2 ^ 24) eB); [apply val_le; lia|].
      apply Qle_trans with (val (2 ^ 23) f); [|apply val_le; exact Hn].
      rewrite !val_pow by lia. apply Q2_le. lia. }
  assert (Hval : (val (Zpos mB) eB <= val m2 f)%Q).
  { eapply Qle_trans; [exact Hval1|]. apply val_le. lia. }
  assert (Hm2pos : 0 < m2).
  { apply (val_lt 0 m2 f). rewrite val_0.
    eapply Qlt_le_trans; [|exact Hval]. apply val_pos. lia. }
  rewrite Hr.
  destruct (Z.eqb_spec m2 0) as [E0|E0]; [lia|].
  destruct (Z.eqb_spec m2 (2 ^ 24)) as [E1|E1].
  - destruct (Z.leb_spec (f + 1) 104); [|left; reflexivity].
    right. eexists _, _. split; [reflexivity|]. split.
    + apply canon_intro; lia.
    + rewrite Z2Pos.id by lia.
      rewrite (val_shift (2 ^ 23) f 1) by lia.
      replace (2 ^ 23 * 2 ^ 1) with m2 by (rewrite E1; reflexivity). exact Hval.
  - destruct (Z.leb_spec f 104); [|left; reflexivity].
    right. eexists _, _. split; [reflexivity|]. split.
    + apply canon_intro; [lia|lia|]. destruct Hnorm; [left; assumption|right; lia].
    + rewrite Z2Pos.id by lia. exact Hval.
Qed.

(** *** Alignment *)

Lemma pos_iter_xO m d : Zpos (Pos.iter xO m d) = Zpos m * 2 ^ Zpos d.
Proof.
  induction d as [|d IH] using Pos.peano_ind.
  - cbn [Pos.iter]. rewrite Pos2Z.inj_xO. lia.
  - rewrite Pos.iter_succ, Pos2Z.inj_xO, IH, Pos2Z.inj_succ, Z.pow_succ_r by lia. lia.
Qed.

Lemma shl_align_spec m e e' :
  exists m' e'',
    shl_align m e e' = (m', e'') /\ e'' = Z.min e e' /\ Zpos m' = Zpos m * 2 ^ (e - e'').
Proof.
  unfold shl_align. destruct (e' - e) as [|d|d] eqn:E.
  - exists m, e. split; [reflexivity|]. split; [lia|]. rewrite Z.sub_diag. lia.
  - exists m, e. split; [reflexivity|]. split; [lia|]. rewrite Z.sub_diag. lia.
  - exists (Pos.iter xO m d), e'. split; [reflexivity|]. split; [lia|].
    rewrite pos_iter_xO. f_equal. f_equal. lia.
Qed.

Lemma shifted_val m e k : 0 <= k -> (val (m * 2 ^ k) (e - k) == val m e)%Q.
Proof.
  intros H. rewrite <- val_shift by exact H. replace (e - k + k) with e by lia. reflexivity.
Qed.

Lemma shifted_digits m k : 0 < m -> 0 <= k -> Zdigits2 (m * 2 ^ k) = Zdigits2 m + k.
Proof.
  intros Hm Hk. pose proof (Zdigits2_spec m Hm) as [D1 D2].
  pose proof (Zdigits2_pos m Hm).
  assert (Hp : 0 < 2 ^ k) by (apply Z.pow_pos_nonneg; lia).
  apply Zdigits2_unique; [|lia]. split.
  - replace (Zdigits2 m + k - 1) with (Zdigits2 m - 1 + k) by lia.
    rewrite Z.pow_add_r by lia. apply Z.mul_le_mono_nonneg_r; lia.
  - rewrite Z.pow_add_r by lia. apply Z.mul_lt_mono_pos_r; lia.
Qed.

(** *** [binary_round] *)

Lemma binary_round_aligned s m e :
  exists mz ez,
    binary_round 24 128 s m e = binary_round_aux 24 128 s (Zpos mz) ez loc_Exact /\
    (val (Zpos mz) ez == val (Zpos m) e)%Q /\
    ez <= fexp 24 128 (Zdigits2 (Zpos mz) + ez).
Proof.
  unfold binary_round.
  destruct (shl_align_spec m e (fexp 24 128 (Zpos (digits2_pos m) + e)))
    as (mz & ez & Heq & Hez & Hmz).
  rewrite Heq. exists mz, ez. split; [reflexivity|].
  assert (Hk : 0 <= e - ez) by lia.
  split.
  - rewrite Hmz. replace ez with (e - (e - ez)) at 2 by lia. apply shifted_val. exact Hk.
  - rewrite Hmz, shifted_digits by lia.
    replace (Zdigits2 (Zpos m) + (e - ez) + ez) with (Zpos (digits2_pos m) + e)
      by (cbn [Zdigits2]; lia).
    lia.
Qed.

Lemma binary_round_le s m e mB eB :
  canon mB eB -> (val (Zpos m) e <= val (Zpos mB) eB)%Q ->
  fin_le s (binary_round 24 128 s m e) mB eB.
Proof.
  intros Hc Hle. destruct (binary_round_aligned s m e) as (mz & ez & -> & Hv & Hk).
  apply (round_aux_le s (Zpos mz) ez loc_Exact (val (Zpos mz) ez) mB eB).
  - lia.
  - exact Hk.
  - intros H; lia.
  - apply Qle_refl.
  - intros H. contradiction.
  - exact Hc.
  - rewrite Hv. exact Hle.
  - apply (fexp_le_canon _ _ mB eB); [lia | exact Hc | rewrite Hv; exact Hle].
Qed.

Lemma binary_round_ge s m e mB eB :
  canon mB eB -> (val (Zpos mB) eB <= val (Zpos m) e)%Q ->
  fin_ge s (binary_round 24 128 s m e) mB eB.
Proof.
  intros Hc Hle. destruct (binary_round_aligned s m e) as (mz & ez & -> & Hv & Hk).
  apply round_aux_ge; try assumption; [lia|]. rewrite Hv. exact Hle.
Qed.

(** *** Values of floats *)

Lemma SF2Q_pos m e : (0 < SF2Q (S754_finite false m e))%Q.
Proof. apply val_pos. reflexivity. Qed.

Lemma SF2Q_neg m e : (SF2Q (S754_finite true m e) < 0)%Q.
Proof.
  cbn [SF2Q cond_Zopp]. pose proof (val_pos (Zpos m) e eq_refl) as H.
  change (Z.opp (Zpos m)) with (- Zpos m). rewrite <- val_opp. lra.
Qed.

Lemma SF2Q_true m e : (SF2Q (S754_finite true m e) == - val (Zpos m) e)%Q.
Proof. cbn [SF2Q cond_Zopp]. rewrite val_opp. reflexivity. Qed.

(** the result of rounding a value that lies between [lo] and [hi] *)
Lemma fin_le_between s r (p : Q) lo hi :
  brackets lo hi ->
  (SF2Q lo <= p <= SF2Q hi)%Q ->
  signed s p ->
  (forall mB eB, canon mB eB -> ((if s then - p else p) <= val (Zpos mB) eB)%Q ->
                 fin_le s r mB eB) ->
  between lo hi r.
Proof.
  intros (Hlo & Hhi & Hl0 & Hh0) [Hp1 Hp2] Hs Hr. unfold signed in Hs.
  destruct s.
  - destruct lo as [sl| | |sl ml el]; try contradiction.
    + cbn [SF2Q] in Hp1. lra.
    + destruct sl; [|pose proof (SF2Q_pos ml el); lra].
      rewrite SF2Q_true in Hp1.
      destruct (Hr ml el Hlo ltac:(lra)) as [->|(m & e & -> & Hc & Hv)].
      * split; [exact I|]. rewrite SF2Q_true. cbn [SF2Q]. lra.
      * split; [exact Hc|]. rewrite !SF2Q_true.
        pose proof (val_pos (Zpos m) e eq_refl). lra.
  - destruct hi as [sh| | |sh mh eh]; try contradiction.
    + cbn [SF2Q] in Hp2. lra.
    + destruct sh; [pose proof (SF2Q_neg mh eh); lra|].
      cbn [SF2Q cond_Zopp] in Hp2.
      destruct (Hr mh eh Hhi ltac:(lra)) as [->|(m & e & -> & Hc & Hv)].
      * split; [exact I|]. cbn [SF2Q cond_Zopp] in *. lra.
      * split; [exact Hc|]. cbn [SF2Q cond_Zopp].
        pose proof (val_pos (Zpos m) e eq_refl). lra.
Qed.

Lemma between_zero lo hi s : brackets lo hi -> between lo hi (S754_zero s).
Proof. intros (Hlo & Hhi & Hl0 & Hh0). split; [exact I|]. cbn [SF2Q]. lra. Qed.

Lemma between_self lo hi x :
  fin x -> (SF2Q lo <= SF2Q x <= SF2Q hi)%Q -> between lo hi x.
Proof. intros H1 H2. split; assumption. Qed.

(** *** [binary_normalize] *)

Lemma binary_normalize_between z e lo hi :
  brackets lo hi ->
  (SF2Q lo <= val z e <= SF2Q hi)%Q ->
  between lo hi (binary_normalize 24 128 z e false).
Proof.
  intros Hb Hp. destruct z as [|m|m]; cbn [binary_normalize].
  - apply between_zero. exact Hb.
  - apply (fin_le_between false _ (val (Zpos m) e)); try assumption.
    + unfold signed. apply val_pos. reflexivity.
    + intros mB eB Hc Hle. apply binary_round_le; assumption.
  - apply (fin_le_between true _ (val (Zneg m) e)); try assumption.
    + unfold signed. change (Zneg m) with (- Zpos m). rewrite <- val_opp.
      pose proof (val_pos (Zpos m) e eq_refl). lra.
    + intros mB eB Hc Hle. apply binary_round_le; [assumption|].
      change (Zneg m) with (- Zpos m) in Hle. rewrite <- val_opp in Hle. lra.
Qed.

(** *** Multiplication *)

Lemma mul_exponent mx ex my ey :
  canon mx ex -> canon my ey ->
  ex + ey <= fexp 24 128 (Zdigits2 (Zpos (mx * my)) + (ex + ey)).
Proof.
  intros Hx Hy.
  pose proof (canon_facts mx ex Hx) as (Hex & Hmx & Hnx & _).
  pose proof (canon_facts my ey Hy) as (Hey & Hmy & Hny & _).
  rewrite fexp32_eq.
  destruct Hnx as [Ex|Hnx], Hny as [Ey|Hny]; try lia.
  - assert (23 < Zdigits2 (Zpos (mx * my))); [|lia].
    apply Zdigits2_gt; [lia|]. rewrite Pos2Z.inj_mul. nia.
  - assert (23 < Zdigits2 (Zpos (mx * my))); [|lia].
    apply Zdigits2_gt; [lia|]. rewrite Pos2Z.inj_mul. nia.
  - assert (23 < Zdigits2 (Zpos (mx * my))); [|lia].
    apply Zdigits2_gt; [lia|]. rewrite Pos2Z.inj_mul. nia.
Qed.

Lemma SFmul_le sx mx ex sy my ey mB eB :
  canon mx ex -> canon my ey -> canon mB eB ->
  (val (Zpos mx) ex * val (Zpos my) ey <= val (Zpos mB) eB)%Q ->
  fin_le (xorb sx sy) (SFmul 24 128 (S754_finite sx mx ex) (S754_finite sy my ey)) mB eB.
Proof.
  intros Hx Hy Hc Hle. cbn [SFmul].
  rewrite val_mul in Hle. rewrite <- Pos2Z.inj_mul in Hle.
  apply (round_aux_le _ _ _ loc_Exact (val (Zpos (mx * my)) (ex + ey)) mB eB).
  - lia.
  - apply mul_exponent; assumption.
  - intros H; lia.
  - apply Qle_refl.
  - intros H. contradiction.
  - exact Hc.
  - exact Hle.
  - apply (fexp_le_canon _ _ mB eB); [lia | exact Hc | exact Hle].
Qed.

Lemma SFmul_between x y lo hi :
  fin x -> fin y -> brackets lo hi ->
  (SF2Q lo <= SF2Q x * SF2Q y <= SF2Q hi)%Q ->
  between lo hi (SFmul 24 128 x y).
Proof.
  intros Hx Hy Hb Hp.
  destruct x as [sx| | |sx mx ex]; try contradiction;
    destruct y as [sy| | |sy my ey]; try contradiction;
    try (apply between_zero; exact Hb).
  cbn [fin] in Hx, Hy.
  pose proof (val_pos (Zpos mx) ex eq_refl) as Px.
  pose proof (val_pos (Zpos my) ey eq_refl) as Py.
  assert (Pxy : (0 < val (Zpos mx) ex * val (Zpos my) ey)%Q) by (apply Qmult_lt_0_compat; assumption).
  apply (fin_le_between (xorb sx sy) _ (SF2Q (S754_finite sx mx ex) * SF2Q (S754_finite sy my ey)));
    try assumption.
  - unfold signed. destruct sx, sy; cbn [xorb]; rewrite ?SF2Q_true; cbn [SF2Q cond_Zopp]; nra.
  - intros mB eB Hc Hle. apply SFmul_le; try assumption.
    destruct sx, sy; cbn [xorb] in Hle; rewrite ?SF2Q_true in Hle; cbn [SF2Q cond_Zopp] in Hle; nra.
Qed.

(** *** Addition and subtraction *)

Lemma aligned_val s m e ez :
  ez <= e ->
  (val (cond_Zopp s (Zpos (fst (shl_align m e ez)))) ez == SF2Q (S754_finite s m e))%Q.
Proof.
  intros Hle. destruct (shl_align_spec m e ez) as (m' & e'' & Heq & He & Hm).
  rewrite Heq. cbn [fst SF2Q]. rewrite Hm.
  replace e'' with ez in * by lia.
  assert (H : (val (Zpos m * 2 ^ (e - ez)) ez == val (Zpos m) e)%Q).
  { rewrite <- val_shift by lia. replace (ez + (e - ez)) with e by lia. reflexivity. }
  destruct s; cbn [cond_Zopp].
  - rewrite <- !val_opp. rewrite H. reflexivity.
  - exact H.
Qed.

Lemma SF2Q_opp s m e :
  (SF2Q (S754_finite (negb s) m e) == - SF2Q (S754_finite s m e))%Q.
Proof.
  destruct s; cbn [negb SF2Q cond_Zopp].
  - rewrite val_opp, Z.opp_involutive. reflexivity.
  - rewrite val_opp. reflexivity.
Qed.

Lemma SFadd_between x y lo hi :
  fin x -> fin y -> brackets lo hi ->
  (SF2Q lo <= SF2Q x + SF2Q y <= SF2Q hi)%Q ->
  between lo hi (SFadd 24 128 x y).
Proof.
  intros Hx Hy Hb Hp.
  destruct x as [sx| | |sx mx ex]; try contradiction;
    destruct y as [sy| | |sy my ey]; try contradiction.
  - destruct sx, sy; apply between_zero; exact Hb.
  - cbn [SFadd]. apply between_self; [exact Hy|]. cbn [SF2Q] in Hp |- *. lra.
  - cbn [SFadd]. apply between_self; [exact Hx|]. cbn [SF2Q] in Hp |- *. lra.
  - cbn [SFadd]. apply binary_normalize_between; [exact Hb|].
    rewrite <- val_add, !aligned_val by lia. exact Hp.
Qed.

Lemma SFsub_between x y lo hi :
  fin x -> fin y -> brackets lo hi ->
  (SF2Q lo <= SF2Q x - SF2Q y <= SF2Q hi)%Q ->
  between lo hi (SFsub 24 128 x y).
Proof.
  intros Hx Hy Hb Hp.
  destruct x as [sx| | |sx mx ex]; try contradiction;
    destruct y as [sy| | |sy my ey]; try contradiction.
  - destruct sx, sy; apply between_zero; exact Hb.
  - cbn [SFsub]. apply between_self; [exact Hy|].
    rewrite SF2Q_opp. cbn [SF2Q] in Hp. cbn [SF2Q]. lra.
  - cbn [SFsub]. apply between_self; [exact Hx|]. cbn [SF2Q] in Hp |- *. lra.
  - cbn [SFsub]. apply binary_normalize_between; [exact Hb|].
    assert (E : (val (cond_Zopp sx (Zpos (fst (shl_align mx ex (Z.min ex ey))))
                      - cond_Zopp sy (Zpos (fst (shl_align my ey (Z.min ex ey)))))
                     (Z.min ex ey)
                 == SF2Q (S754_finite sx mx ex) - SF2Q (S754_finite sy my ey))%Q).
    { rewrite <- (aligned_val sx mx ex (Z.min ex ey)), <- (aligned_val sy my ey (Z.min ex ey))
        by lia.
      unfold Z.sub at 1. rewrite <- val_add, <- val_opp. ring. }
    rewrite E. exact Hp.
Qed.

(** the sum of a positive value and a positive value is at least the first *)
Lemma SFadd_pos_ge mx ex my ey :
  canon mx ex ->
  fin_ge false (SFadd 24 128 (S754_finite false mx ex) (S754_finite false my ey)) mx ex.
Proof.
  intros Hc. cbn [SFadd cond_Zopp].
  set (a := fst (shl_align mx ex (Z.min ex ey))).
  set (b := fst (shl_align my ey (Z.min ex ey))).
  change (Zpos a + Zpos b) with (Zpos (a + b)). cbn [binary_normalize].
  apply binary_round_ge; [exact Hc|].
  rewrite Pos2Z.inj_add, <- val_add.
  pose proof (aligned_val false mx ex (Z.min ex ey) ltac:(lia)) as Ha.
  pose proof (aligned_val false my ey (Z.min ex ey) ltac:(lia)) as Hb.
  cbn [cond_Zopp SF2Q] in Ha, Hb. fold a in Ha. fold b in Hb.
  rewrite Ha, Hb. pose proof (val_pos (Zpos my) ey eq_refl). lra.
Qed.

(** *** Division *)

Lemma new_location_exact n r : new_location n r = loc_Exact <-> r = 0.
Proof.
  unfold new_location, new_location_even, new_location_odd.
  destruct (Z.even n); destruct (Z.eqb_spec r 0); split; intros H;
    try reflexivity; try assumption; try discriminate; try contradiction.
Qed.

Lemma SFdiv_le sx mx ex sy my ey mB eB :
  canon mB eB ->
  (val (Zpos mx) ex <= val (Zpos mB) eB * val (Zpos my) ey)%Q ->
  fin_le (xorb sx sy) (SFdiv 24 128 (S754_finite sx mx ex) (S754_finite sy my ey)) mB eB.
Proof.
  intros Hc Hle. cbn [SFdiv]. unfold SFdiv_core_binary.
  set (d1 := Zdigits2 (Zpos mx)). set (d2 := Zdigits2 (Zpos my)).
  set (D := d1 + ex - (d2 + ey)).
  set (e' := Z.min (fexp 24 128 D) (ex - ey)).
  set (s := ex - ey - e').
  assert (Hs : 0 <= s) by (unfold s, e'; lia).
  set (m' := match s with Zpos _ => Z.shiftl (Zpos mx) s | 0 => Zpos mx | Zneg _ => 0 end).
  assert (Hm' : m' = Zpos mx * 2 ^ s).
  { unfold m'. destruct s as [|p|p]; [lia | rewrite Z.shiftl_mul_pow2 by lia; reflexivity | lia]. }
  clearbody m'.
  assert (Hp : 0 < 2 ^ s) by (apply Z.pow_pos_nonneg; lia).
  pose proof (Z_div_mod m' (Zpos my) eq_refl) as Hdm.
  destruct (Z.div_eucl m' (Zpos my)) as [q r]. destruct Hdm as [Hdm Hr].
  assert (Hq : 0 <= q) by nia.
  pose proof (Zdigits2_spec (Zpos mx) eq_refl) as [X1 X2]. fold d1 in X1, X2.
  pose proof (Zdigits2_spec (Zpos my) eq_refl) as [Y1 Y2]. fold d2 in Y1, Y2.
  pose proof (Zdigits2_pos (Zpos mx) eq_refl) as X0. fold d1 in X0.
  pose proof (Zdigits2_pos (Zpos my) eq_refl) as Y0. fold d2 in Y0.
  set (W := inject_Z (Zpos my)).
  assert (HW : (0 < W)%Q) by (unfold W; change (inject_Z 0 < inject_Z (Zpos my))%Q; rewrite <- Zlt_Qlt; lia).
  set (v := (val m' e' / W)%Q).
  assert (Hqv : (val q e' <= v)%Q).
  { unfold v. apply Qle_shift_div_l; [exact HW|].
    unfold W, val. rewrite <- Qmult_assoc, (Qmult_comm (Q2 e')), Qmult_assoc, <- inject_Z_mult.
    apply Qmult_le_compat_r; [|apply Qlt_le_weak, Q2_pos].
    rewrite <- Zle_Qle. nia. }
  assert (Hqv' : r <> 0 -> (val q e' < v)%Q).
  { intros Hr0. unfold v. apply Qlt_shift_div_l; [exact HW|].
    unfold W, val. rewrite <- Qmult_assoc, (Qmult_comm (Q2 e')), Qmult_assoc, <- inject_Z_mult.
    apply Qmult_lt_compat_r; [apply Q2_pos|].
    rewrite <- Zlt_Qlt. nia. }
  assert (Hm'v : (val m' e' == val (Zpos mx) ex * Q2 (- ey))%Q).
  { rewrite Hm'. rewrite <- val_shift by lia. unfold val.
    replace (e' + s) with (ex + - ey) by (unfold s; lia). rewrite Q2_add. ring. }
  assert (HvB : (v <= val (Zpos mB) eB)%Q).
  { unfold v. apply Qle_shift_div_r; [exact HW|]. rewrite Hm'v.
    assert (HWy : (W == val (Zpos my) ey * Q2 (- ey))%Q).
    { unfold W, val. rewrite <- Qmult_assoc, <- Q2_add.
      replace (ey + - ey) with 0 by lia. change (Q2 0) with 1%Q. ring. }
    rewrite HWy, Qmult_assoc.
    apply Qmult_le_compat_r; [exact Hle | apply Qlt_le_weak, Q2_pos]. }
  (* digits of the quotient *)
  assert (Hdq : 0 < q -> D <= Zdigits2 q + e').
  { intros Hq0. pose proof (Zdigits2_pos q Hq0).
    destruct (Z_lt_le_dec (d1 + s - 1 - d2) 0) as [Hneg|Hpos'].
    - unfold D, s in *. lia.
    - assert (Hq2 : 2 ^ (d1 + s - 1 - d2) <= q).
      { assert (H1 : 2 ^ (d1 + s - 1) <= m').
        { rewrite Hm'. replace (d1 + s - 1) with (d1 - 1 + s) by lia.
          rewrite Z.pow_add_r by lia. apply Z.mul_le_mono_nonneg_r; lia. }
        assert (H2 : 2 ^ (d1 + s - 1) = 2 ^ (d1 + s - 1 - d2) * 2 ^ d2).
        { rewrite <- Z.pow_add_r by lia. f_equal. lia. }
        assert (H3 : 0 < 2 ^ (d1 + s - 1 - d2)) by (apply Z.pow_pos_nonneg; lia).
        nia. }
      pose proof (Zdigits2_gt q (d1 + s - 1 - d2) Hpos' Hq2). unfold D, s in *. lia. }
  assert (Hq0 : q = 0 -> e' <= -149).
  { intros ->.
    assert (Hlt : m' < Zpos my) by lia.
    assert (Hds : d1 + s - 1 < d2).
    { destruct (Z_lt_le_dec (d1 + s - 1) d2) as [|Hge]; [assumption|].
      assert (2 ^ d2 <= 2 ^ (d1 + s - 1)) by (apply Z.pow_le_mono_r; lia).
      assert (2 ^ (d1 + s - 1) <= m'); [|lia].
      rewrite Hm'. replace (d1 + s - 1) with (d1 - 1 + s) by lia.
      rewrite Z.pow_add_r by lia. apply Z.mul_le_mono_nonneg_r; lia. }
    assert (He'D : e' <= fexp 24 128 D) by (unfold e'; lia).
    rewrite fexp32_eq in He'D. unfold D, s in *. lia. }
  assert (Hk : e' <= fexp 24 128 (Zdigits2 q + e')).
  { destruct (Z.eq_dec q 0) as [E|E].
    - specialize (Hq0 E). subst q. cbn [Zdigits2]. rewrite fexp32_eq. lia.
    - specialize (Hdq ltac:(lia)).
      assert (He'D : e' <= fexp 24 128 D) by (unfold e'; lia).
      rewrite fexp32_eq in *. lia. }
  apply (round_aux_le _ q e' (new_location (Zpos my) r) v mB eB).
  - exact Hq.
  - exact Hk.
  - intros E. specialize (Hq0 E). subst q. cbn [Zdigits2]. rewrite fexp32_eq. lia.
  - exact Hqv.
  - intros Hl. apply Hqv'. intros E. apply Hl. apply new_location_exact. exact E.
  - exact Hc.
  - exact HvB.
  - destruct (Z.eq_dec q 0) as [E|E].
    + specialize (Hq0 E). subst q. cbn [Zdigits2]. rewrite fexp32_eq.
      pose proof (canon_facts mB eB Hc). lia.
    + apply (fexp_le_canon _ _ mB eB); [lia | exact Hc | eapply Qle_trans; eauto].
Qed.

(** *** Comparison *)

Lemma canon_exp_lt m1 e1 m2 e2 :
  canon m1 e1 -> canon m2 e2 -> e1 < e2 -> (val (Zpos m1) e1 < val (Zpos m2) e2)%Q.
Proof.
  intros H1 H2 Hlt.
  pose proof (canon_facts m1 e1 H1) as (He1 & Hm1 & _ & _).
  pose proof (canon_facts m2 e2 H2) as (He2 & Hm2 & Hn2 & _).
  destruct Hn2 as [E|Hn2]; [lia|].
  apply Qlt_le_trans with (val (2 ^ 24) e1); [apply val_lt; exact Hm1|].
  apply Qle_trans with (val (2 ^ 23) e2); [|apply val_le; exact Hn2].
  rewrite !val_pow by lia. apply Q2_le. lia.
Qed.

Lemma compare_abs x y :
  fin x -> fin y ->
  if Binary32.ge (SFabs x) (SFabs y) then (SF2Q (SFabs y) <= SF2Q (SFabs x))%Q
  else (SF2Q (SFabs x) <= SF2Q (SFabs y))%Q.
Proof.
  intros Hx Hy.
  destruct x as [sx| | |sx mx ex]; try contradiction;
    destruct y as [sy| | |sy my ey]; try contradiction;
    cbn [SFabs]; unfold Binary32.ge; cbn [SFcompare SF2Q cond_Zopp].
  - apply Qle_refl.
  - apply Qlt_le_weak, val_pos. reflexivity.
  - apply Qlt_le_weak, val_pos. reflexivity.
  - cbn [fin] in Hx, Hy. destruct (Z.compare_spec ex ey) as [E|E|E].
    + subst ey. change (Pos.compare_cont Eq mx my) with (Pos.compare mx my).
      destruct (Pos.compare_spec mx my) as [E'|E'|E'].
      * subst. apply Qle_refl.
      * apply val_le. lia.
      * apply val_le. lia.
    + apply Qlt_le_weak, canon_exp_lt; assumption.
    + apply Qlt_le_weak, canon_exp_lt; assumption.
Qed.

Lemma fin_abs x : fin x -> fin (SFabs x).
Proof. destruct x; simpl; auto. Qed.

Lemma SF2Q_abs_nonneg x : (0 <= SF2Q (SFabs x))%Q.
Proof.
  destruct x as [s| | |s m e]; cbn [SFabs SF2Q cond_Zopp]; try apply Qle_refl.
  apply val_nonneg. lia.
Qed.

Lemma fastAtan2_unfold y x :
  @Descriptor.fastAtan2 binary32 y x =
  let ax := SFabs x in
  let ay := SFabs y in
  let a :=
    if Binary32.ge ax ay then poly32 (SFdiv 24 128 ay (SFadd 24 128 ax eps32))
    else SFsub 24 128 c90 (poly32 (SFdiv 24 128 ax (SFadd 24 128 ay eps32))) in
  let a := if SFltb x F0 then SFsub 24 128 c180 a else a in
  let a := if SFltb y F0 then SFsub 24 128 c360 a else a in
  a.
Proof. reflexivity. Qed.

Lemma fin_is_finite x : Binary32.is_finite x = true <-> fin x.
Proof. destruct x; simpl; unfold canon; split; intros H; auto; try discriminate; contradiction. Qed.

Lemma Q_one : (SF2Q one == 1)%Q. Proof. vm_compute. reflexivity. Qed.
Lemma Q_c90 : (SF2Q c90 == 90)%Q. Proof. vm_compute. reflexivity. Qed.
Lemma Q_c180 : (SF2Q c180 == 180)%Q. Proof. vm_compute. reflexivity. Qed.
Lemma Q_c360 : (SF2Q c360 == 360)%Q. Proof. vm_compute. reflexivity. Qed.
Lemma Q_p1 : (SF2Q p1 == 15016559 # 262144)%Q. Proof. vm_compute. reflexivity. Qed.
Lemma Q_p3 : (SF2Q p3 == - (9787118 # 524288))%Q. Proof. vm_compute. reflexivity. Qed.
Lemma Q_p5 : (SF2Q p5 == 9347007 # 1048576)%Q. Proof. vm_compute. reflexivity. Qed.
Lemma Q_p7 : (SF2Q p7 == - (10652377 # 4194304))%Q. Proof. vm_compute. reflexivity. Qed.

Lemma Q_F0 : (SF2Q F0 == 0)%Q. Proof. reflexivity. Qed.

Ltac consts := rewrite ?Q_one, ?Q_c90, ?Q_c180, ?Q_c360, ?Q_p1, ?Q_p3, ?Q_p5, ?Q_p7, ?Q_F0 in *.

Lemma brackets_const lo hi :
  Binary32.is_finite lo = true -> Binary32.is_finite hi = true ->
  Qle_bool (SF2Q lo) 0 = true -> Qle_bool 0 (SF2Q hi) = true -> brackets lo hi.
Proof.
  intros H1 H2 H3 H4. repeat split.
  - apply fin_is_finite; exact H1.
  - apply fin_is_finite; exact H2.
  - apply Qle_bool_imp_le; exact H3.
  - apply Qle_bool_imp_le; exact H4.
Qed.

Ltac brk := apply brackets_const; vm_compute; reflexivity.

Lemma poly32_between c : between F0 one c -> between F0 p1 (poly32 c).
Proof.
  intros [Hc Hv]. unfold poly32. cbv zeta.
  assert (Hfp1 : fin p1) by (apply fin_is_finite; reflexivity).
  assert (Hfp3 : fin p3) by (apply fin_is_finite; reflexivity).
  assert (Hfp5 : fin p5) by (apply fin_is_finite; reflexivity).
  assert (Hfp7 : fin p7) by (apply fin_is_finite; reflexivity).
  set (c2 := SFmul 24 128 c c).
  assert (H2 : between F0 one c2).
  { apply SFmul_between; [exact Hc | exact Hc | brk |]. consts. nra. }
  destruct H2 as [Hc2 Hv2].
  set (t1 := SFmul 24 128 p7 c2).
  assert (H1 : between p7 F0 t1).
  { apply SFmul_between; [exact Hfp7 | exact Hc2 | brk |]. consts. nra. }
  destruct H1 as [Ht1 Hv1].
  set (t2 := SFadd 24 128 t1 p5).
  assert (H2 : between F0 p5 t2).
  { apply SFadd_between; [exact Ht1 | exact Hfp5 | brk |]. consts. lra. }
  destruct H2 as [Ht2 Hvt2].
  set (t3 := SFmul 24 128 t2 c2).
  assert (H3 : between F0 p5 t3).
  { apply SFmul_between; [exact Ht2 | exact Hc2 | brk |]. consts. nra. }
  destruct H3 as [Ht3 Hvt3].
  set (t4 := SFadd 24 128 t3 p3).
  assert (H4 : between p3 F0 t4).
  { apply SFadd_between; [exact Ht3 | exact Hfp3 | brk |]. consts. lra. }
  destruct H4 as [Ht4 Hvt4].
  set (t5 := SFmul 24 128 t4 c2).
  assert (H5 : between p3 F0 t5).
  { apply SFmul_between; [exact Ht4 | exact Hc2 | brk |]. consts. nra. }
  destruct H5 as [Ht5 Hvt5].
  set (t6 := SFadd 24 128 t5 p1).
  assert (H6 : between F0 p1 t6).
  { apply SFadd_between; [exact Ht5 | exact Hfp1 | brk |]. consts. lra. }
  destruct H6 as [Ht6 Hvt6].
  apply SFmul_between; [exact Ht6 | exact Hc | brk |]. consts. nra.
Qed.

Lemma fin_le_false_between r mB eB :
  fin_le false r mB eB -> between F0 (S754_finite false mB eB) r.
Proof.
  intros [->|(m & e & -> & Hc & Hv)].
  - split; [exact I|]. cbn [SF2Q F0 cond_Zopp]. split; [apply Qle_refl|].
    apply val_nonneg. lia.
  - split; [exact Hc|]. cbn [SF2Q F0 cond_Zopp]. split; [|exact Hv].
    apply val_nonneg. lia.
Qed.

Lemma quotient_between x y :
  fin x -> fin y -> (SF2Q (SFabs y) <= SF2Q (SFabs x))%Q ->
  between F0 one (SFdiv 24 128 (SFabs y) (SFadd 24 128 (SFabs x) eps32)).
Proof.
  intros Hx Hy Hle.
  assert (Hb : brackets F0 one) by brk.
  destruct x as [sx| | |sx mx ex]; try contradiction;
    destruct y as [sy| | |sy my ey]; try contradiction; cbn [SFabs] in *.
  - apply between_zero. exact Hb.
  - exfalso. cbn [SF2Q cond_Zopp] in Hle.
    pose proof (val_pos (Zpos my) ey eq_refl). lra.
  - destruct (SFadd_pos_ge mx ex 8388608 (-75) Hx) as [E|(m & e & E & Hc & Hv)];
      unfold eps32; rewrite E; apply between_zero; exact Hb.
  - destruct (SFadd_pos_ge mx ex 8388608 (-75) Hx) as [E|(m & e & E & Hc & Hv)];
      unfold eps32; rewrite E.
    + apply between_zero. exact Hb.
    + apply (fin_le_false_between _ 8388608 (-23)).
      change false with (xorb false false) at 1.
      apply SFdiv_le; [reflexivity|].
      cbn [SF2Q cond_Zopp] in Hle.
      assert (H1 : (val (Zpos 8388608) (-23) == 1)%Q) by (vm_compute; reflexivity).
      rewrite H1. lra.
Qed.

Lemma leb_zero x : fin x -> (0 <= SF2Q x)%Q -> SFleb F0 x = true.
Proof.
  destruct x as [s| | |s m e]; try contradiction; intros _ H; [reflexivity|].
  destruct s; [|reflexivity].
  pose proof (SF2Q_neg m e). lra.
Qed.

Lemma leb_const x mB eB :
  fin x -> (0 <= SF2Q x)%Q -> canon mB eB ->
  (SF2Q x <= val (Zpos mB) eB)%Q -> SFleb x (S754_finite false mB eB) = true.
Proof.
  destruct x as [s| | |s m e]; try contradiction; intros Hx H0 Hc Hle; [reflexivity|].
  destruct s; [reflexivity|]. cbn [fin] in Hx.
  unfold SFleb. cbn [SFcompare]. cbn [SF2Q cond_Zopp] in Hle.
  destruct (Z.compare_spec e eB) as [E|E|E]; try reflexivity.
  - subst. change (Pos.compare_cont Eq m mB) with (Pos.compare m mB).
    apply val_le in Hle.
    destruct (Pos.compare_spec m mB); try reflexivity. lia.
  - pose proof (canon_exp_lt mB eB m e Hc Hx E). lra.
Qed.

(** the three properties of [fastAtan2] on finite arguments *)
Lemma fastAtan2_finite (y x : spec_float) :
  Binary32.is_finite y = true -> Binary32.is_finite x = true ->
  let a := @Descriptor.fastAtan2 binary32 y x in
  (SFeqb y F0 = true -> SFltb F0 x = true -> a = F0) /\
  (SFeqb x F0 = true -> SFltb F0 y = true -> a = Binary32.of_Q 90) /\
  (SFeqb x F0 = true -> SFltb y F0 = true -> a = Binary32.of_Q 270) /\
  Binary32.is_finite a = true /\
  SFleb F0 a = true /\ SFleb a (Binary32.of_Q 360) = true.
Proof.
  intros Hy Hx. cbv zeta. rewrite fastAtan2_unfold. cbv zeta.
  split; [|split; [|split]].
  - (* fastAtan2(0, x > 0) *)
    intros Ey Ex.
    destruct y as [sy| | |sy my ey]; try discriminate; [|destruct sy; discriminate].
    destruct x as [sx| | |sx mx ex]; try discriminate.
    destruct sx; [discriminate|]. cbn [SFabs].
    change (Binary32.ge (S754_finite false mx ex) (S754_zero false)) with true. cbv iota.
    change (SFltb (S754_finite false mx ex) F0) with false.
    change (SFltb (S754_zero sy) F0) with false. cbv iota.
    apply fin_is_finite in Hx.
    destruct (SFadd_pos_ge mx ex 8388608 (-75) Hx) as [E|(m & e & E & _)];
      unfold eps32; rewrite E; reflexivity.
  - (* fastAtan2(y > 0, 0) *)
    intros Ex Ey.
    destruct x as [sx| | |sx mx ex]; try discriminate; [|destruct sx; discriminate].
    destruct y as [sy| | |sy my ey]; try discriminate.
    destruct sy; [discriminate|]. cbn [SFabs].
    change (Binary32.ge (S754_zero false) (S754_finite false my ey)) with false. cbv iota.
    change (SFltb (S754_zero sx) F0) with false.
    change (SFltb (S754_finite false my ey) F0) with false. cbv iota.
    apply fin_is_finite in Hy.
    destruct (SFadd_pos_ge my ey 8388608 (-75) Hy) as [E|(m & e & E & _)];
      unfold eps32; rewrite E; reflexivity.
  - (* fastAtan2(y < 0, 0) *)
    intros Ex Ey.
    destruct x as [sx| | |sx mx ex]; try discriminate; [|destruct sx; discriminate].
    destruct y as [sy| | |sy my ey]; try discriminate.
    destruct sy; [|discriminate]. cbn [SFabs].
    change (Binary32.ge (S754_zero false) (S754_finite false my ey)) with false. cbv iota.
    change (SFltb (S754_zero sx) F0) with false.
    change (SFltb (S754_finite true my ey) F0) with true. cbv iota.
    apply fin_is_finite in Hy.
    destruct (SFadd_pos_ge my ey 8388608 (-75) Hy) as [E|(m & e & E & _)];
      unfold eps32; rewrite E; reflexivity.
  - (* the range *)
    apply fin_is_finite in Hx, Hy.
    pose proof (compare_abs x y Hx Hy) as Hcmp.
    set (a1 := if Binary32.ge (SFabs x) (SFabs y) then _ else _).
    assert (H1 : between F0 c90 a1).
    { unfold a1. destruct (Binary32.ge (SFabs x) (SFabs y)).
      - destruct (poly32_between _ (quotient_between x y Hx Hy Hcmp)) as [Hf Hv].
        split; [exact Hf|]. consts. lra.
      - destruct (poly32_between _ (quotient_between y x Hy Hx Hcmp)) as [Hf Hv].
        apply SFsub_between; [apply fin_is_finite; reflexivity | exact Hf | brk |].
        consts. lra. }
    clearbody a1.
    set (a2 := if SFltb x F0 then _ else a1).
    assert (H2 : between F0 c180 a2).
    { unfold a2. destruct H1 as [Hf Hv]. destruct (SFltb x F0).
      - apply SFsub_between; [apply fin_is_finite; reflexivity | exact Hf | brk |].
        consts. lra.
      - split; [exact Hf|]. consts. lra. }
    clearbody a2.
    set (a3 := if SFltb y F0 then _ else a2).
    assert (H3 : between F0 c360 a3).
    { unfold a3. destruct H2 as [Hf Hv]. destruct (SFltb y F0).
      - apply SFsub_between; [apply fin_is_finite; reflexivity | exact Hf | brk |].
        consts. lra.
      - split; [exact Hf|]. consts. lra. }
    clearbody a3. destruct H3 as [Hf [Hv0 Hv1]].
    split; [apply fin_is_finite; exact Hf|]. split.
    + apply leb_zero; [exact Hf|]. consts. exact Hv0.
    + change (Binary32.of_Q 360) with (S754_finite false 11796480 (-15)).
      apply leb_const; [exact Hf | consts; exact Hv0 | reflexivity |].
      exact Hv1.
Qed.

End FloatFacts.

(** C7 (amended).  In single precision (IEEE 754 binary32, every operation
    rounded to nearest, ties to even) and for finite arguments (neither an
    infinity nor a NaN): [fastAtan2 (0, x)] is [+0] for every [x > 0];
    [fastAtan2 (y, 0)] is 90 for every [y > 0] and 270 for every [y < 0];
    and the result is a finite number of the closed interval from 0 to
    360. *)
Theorem fastAtan2_closed_range (y x : spec_float) :
  Binary32.is_finite y = true -> Binary32.is_finite x = true ->
  (SFeqb y (S754_zero false) = true -> SFltb (S754_zero false) x = true ->
   @Descriptor.fastAtan2 binary32 y x = S754_zero false) /\
  (SFeqb x (S754_zero false) = true -> SFltb (S754_zero false) y = true ->
   @Descriptor.fastAtan2 binary32 y x = Binary32.of_Q 90) /\
  (SFeqb x (S754_zero false) = true -> SFltb y (S754_zero false) = true ->
   @Descriptor.fastAtan2 binary32 y x = Binary32.of_Q 270) /\
  Binary32.is_finite (@Descriptor.fastAtan2 binary32 y x) = true /\
  SFleb (S754_zero false) (@Descriptor.fastAtan2 binary32 y x) = true /\
  SFleb (@Descriptor.fastAtan2 binary32 y x) (Binary32.of_Q 360) = true.
Proof. intros Hy Hx. exact (FloatFacts.fastAtan2_finite y x Hy Hx). Qed.

Lemma fastAtan2_closed_range_witness :
  (SFeqb (Binary32.of_Z (-1)) (S754_zero false) = true ->
   SFltb (S754_zero false) (Binary32.of_Z 4000000) = true ->
   @Descriptor.fastAtan2 binary32 (Binary32.of_Z (-1)) (Binary32.of_Z 4000000)
   = S754_zero false) /\
  (SFeqb (Binary32.of_Z 4000000) (S754_zero false) = true ->
   SFltb (S754_zero false) (Binary32.of_Z (-1)) = true ->
   @Descriptor.fastAtan2 binary32 (Binary32.of_Z (-1)) (Binary32.of_Z 4000000)
   = Binary32.of_Q 90) /\
  (SFeqb (Binary32.of_Z 4000000) (S754_zero false) = true ->
   SFltb (Binary32.of_Z (-1)) (S754_zero false) = true ->
   @Descriptor.fastAtan2 binary32 (Binary32.of_Z (-1)) (Binary32.of_Z 4000000)
   = Binary32.of_Q 270) /\
  Binary32.is_finite
    (@Descriptor.fastAtan2 binary32 (Binary32.of_Z (-1)) (Binary32.of_Z 4000000)) = true /\
  SFleb (S754_zero false)
    (@Descriptor.fastAtan2 binary32 (Binary32.of_Z (-1)) (Binary32.of_Z 4000000)) = true /\
  SFleb (@Descriptor.fastAtan2 binary32 (Binary32.of_Z (-1)) (Binary32.of_Z 4000000))
    (Binary32.of_Q 360) = true.
Proof.
  apply (fastAtan2_closed_range (Binary32.of_Z (-1)) (Binary32.of_Z 4000000)); reflexivity.
Defined.

(** C7 (as stated) fails: [fastAtan2 (-1, 4000000)] is 360, which is not
    below 360; and when the arguments are not finite the result need not be
    a number: [fastAtan2 (inf, inf)] is a NaN. *)
Lemma fastAtan2_not_below_360 :
  @Descriptor.fastAtan2 binary32 (Binary32.of_Z (-1)) (Binary32.of_Z 4000000)
  = Binary32.of_Q 360 /\
  SFltb (@Descriptor.fastAtan2 binary32 (Binary32.of_Z (-1)) (Binary32.of_Z 4000000))
    (Binary32.of_Q 360) = false /\
  @Descriptor.fastAtan2 binary32 (S754_infinity false) (S754_infinity false) = S754_nan.
Proof. repeat split; vm_compute; reflexivity. Qed.
